(** * Bitswap decision queue, send queue and public API of go-ipfs

    A shallow embedding of
    - [exchange/bitswap/decision/peer_request_queue.go] (the two-level
      scheduler [prq] with its partners and tasks),
    - [exchange/bitswap/peermanager.go] ([msgQueue.AddMessage]),
    - [exchange/bitswap/bitswap.go] and [workers.go] ([GetBlock],
      [GetBlocks], [HasBlock], [Close], [wantNewBlocks], [clientWorker],
      [ReceiveMessage], [cancelBlocks], [sendWantlistMsgToPeers],
      [provideCollector], [startWorkers]),
    - the manager loop [Run] and the queue worker [runQueue] of
      [peermanager.go],
    - [exchange/bitswap/network/ipfs_impl.go] ([FindProvidersAsync]),
    - [exchange/bitswap/testnet/virtual.go] (the virtual network),
    - [exchange/bitswap/testutils.go] ([SessionGenerator.Instances]),
    - [pin/indirect.go] (the reference counts of indirect pins, in both
      versions of the file),
    followed by the properties proved about them. *)

From Stdlib Require Import ZArith Lia.
From stdpp Require Import gmap strings list fin_maps.

Local Open Scope Z_scope.

(** ** Go's [int] *)

(** [int] is 64 bits wide on the targets go-ipfs is built for; arithmetic
    wraps around silently. *)
Module GoInt.

Definition minInt : Z := - 2 ^ 63.
Definition maxInt : Z := 2 ^ 63 - 1.

Definition wrap (z : Z) : Z := (z + 2 ^ 63) mod 2 ^ 64 - 2 ^ 63.

Definition add (a b : Z) : Z := wrap (a + b).
Definition sub (a b : Z) : Z := wrap (a - b).

End GoInt.

(** ** wantlist.Entry as the queue reads it *)
Module wantlist.

(** Modelled from the spec: the package wantlist is not among the sources.
    An entry of a wantlist carries a key and a priority, the two fields
    that [Push] reads as [entry.Key] and [entry.Priority]. *)
Record Entry := mkEntry { Key : string; Priority : Z }.

End wantlist.

(** ** thirdparty/pq *)
Module pq.

(** The package thirdparty/pq (the [PQ] container behind [pq.New(cmp)],
    with [Push], [Pop], [Len] and [Update]) is not among the sources; the
    definitions of this section are modelled from the spec.  The queue is
    the list of its element handles, top first.  [Push] and [Update] put an
    element in its place by the comparator, which reads the elements behind
    the handles as they are at the time of that call; an element whose rank
    changes afterwards stays where it is until [Update] is called for it. *)
Section PQ.
Context {E : Type} `{EqDecision E}.
Variable cmp : E → E → bool.

(** Modelled from the spec: the place of a new element in a queue ordered
    by the comparator, behind the elements it does not outrank (the spec
    asks for a stable order under equal ranks). *)
Fixpoint insert (e : E) (q : list E) : list E :=
  match q with
  | [] => [e]
  | x :: r => if cmp e x then e :: x :: r else x :: insert e r
  end.

(** Modelled from the spec: taking one element out of the queue. *)
Fixpoint remove (e : E) (q : list E) : list E :=
  match q with
  | [] => []
  | x :: r => if decide (x = e) then r else x :: remove e r
  end.

(** Modelled from the spec: [Push] inserts into the queue. *)
Definition Push (e : E) (q : list E) : list E := insert e q.

(** Modelled from the spec: [Len], the number of queued elements. *)
Definition Len (q : list E) : nat := length q.

(** Modelled from the spec: [Pop] removes the top element of the queue;
    [None] on the empty queue. *)
Definition Pop (q : list E) : option (E * list E) :=
  match q with
  | [] => None
  | x :: r => Some (x, r)
  end.

(** Modelled from the spec: [Update] re-establishes the order after the
    rank of a queued element changed (the spec's re-heapify): the element
    is put in its place anew. *)
Definition Update (e : E) (q : list E) : list E :=
  if decide (e ∈ q) then insert e (remove e q) else q.
End PQ.

End pq.

(** ** decision/peer_request_queue.go *)
Module decision.

Import wantlist.

(** [peerRequestTask]; a task pointer [*peerRequestTask] is an address
    ([nat]) into the [heap] of the queue.  The [index] field belongs to the
    pq container and has no counterpart in the list representation of
    [pq]; [Done] is the closure defined as [Done] below, it captures the
    partner of [Target] and the key of [Entry]. *)
Record peerRequestTask := mkTask {
  Entry : wantlist.Entry;
  Target : string;
  trash : bool;
  created : Z
}.

(** [taskKey] is [string(p) + string(k)]. *)
Definition taskKey (p k : string) : string := String.app p k.

Definition task_Key (t : peerRequestTask) : string :=
  taskKey (Target t) (Key (Entry t)).

Definition FIFO (a b : peerRequestTask) : bool := created a <? created b.

Definition V1 (a b : peerRequestTask) : bool :=
  if decide (Target a = Target b)
  then Priority (Entry b) <? Priority (Entry a)
  else FIFO a b.

(** [activePartner]; [taskQueue] holds task pointers.  A partner is
    allocated once per peer id ([Push] allocates only when [partners[to]]
    is absent and nothing deletes from [partners]), so the pointer
    [*activePartner] is represented by that peer id. *)
Record activePartner := mkPartner {
  active : Z;
  activeBlocks : gset string;
  requests : Z;
  taskQueue : list nat
}.

Definition newActivePartner : activePartner :=
  {| active := 0; activeBlocks := ∅; requests := 0; taskQueue := [] |}.

Definition partnerCompare (pa pb : activePartner) : bool :=
  if decide (requests pa = 0) then false
  else if decide (requests pb = 0) then true
  else active pa <? active pb.

Definition StartTask (p : activePartner) (k : string) : activePartner :=
  {| active := GoInt.add (active p) 1;
     activeBlocks := {[k]} ∪ activeBlocks p;
     requests := requests p;
     taskQueue := taskQueue p |}.

(** [TaskDone]; [None] is the panic "more tasks finished than started!". *)
Definition TaskDone (p : activePartner) (k : string) : option activePartner :=
  let a := GoInt.sub (active p) 1 in
  if a <? 0 then None
  else Some {| active := a;
               activeBlocks := activeBlocks p ∖ {[k]};
               requests := requests p;
               taskQueue := taskQueue p |}.

Definition set_requests (r : Z) (p : activePartner) : activePartner :=
  {| active := active p; activeBlocks := activeBlocks p;
     requests := r; taskQueue := taskQueue p |}.

Definition set_taskQueue (q : list nat) (p : activePartner) : activePartner :=
  {| active := active p; activeBlocks := activeBlocks p;
     requests := requests p; taskQueue := q |}.

Definition set_Priority (pr : Z) (t : peerRequestTask) : peerRequestTask :=
  {| Entry := {| Key := Key (Entry t); Priority := pr |};
     Target := Target t; trash := trash t; created := created t |}.

Definition set_trash (t : peerRequestTask) : peerRequestTask :=
  {| Entry := Entry t; Target := Target t; trash := true;
     created := created t |}.

(** [prq].  [heap] is the store of the task objects that [taskMap] and the
    partners' task queues point into, [next] the next free address. *)
Record prq := mkPrq {
  pQueue : list string;
  taskMap : gmap string nat;
  partners : gmap string activePartner;
  heap : gmap nat peerRequestTask;
  next : nat
}.

Definition newPRQ : prq :=
  {| pQueue := []; taskMap := ∅; partners := ∅; heap := ∅; next := 0 |}.

(** The comparators as the two queues apply them to pointers. *)
Definition partnerCmp (ps : gmap string activePartner) (a b : string) : bool :=
  match ps !! a, ps !! b with
  | Some pa, Some pb => partnerCompare pa pb
  | _, _ => false
  end.

Definition taskCmp (h : gmap nat peerRequestTask) (a b : nat) : bool :=
  match h !! a, h !! b with
  | Some ta, Some tb => V1 ta tb
  | _, _ => false
  end.

(** The first lines of [Push]: the partner of [to], created and put into
    the peer queue when [tl.partners[to]] is absent.  The result is the
    partner with the peer queue and the partners as they then are. *)
Definition Push_partner (tl : prq) (to : string)
    : activePartner * list string * gmap string activePartner :=
  match partners tl !! to with
  | Some partner => (partner, pQueue tl, partners tl)
  | None =>
      let ps := <[to := newActivePartner]> (partners tl) in
      (newActivePartner, pq.Push (partnerCmp ps) to (pQueue tl), ps)
  end.

(** The rest of [Push], with the partner at hand; [now] is the value of
    [time.Now()].  Where the code hands [task.index] or [partner.Index()] to
    [Update], the queue is given the task pointer or the peer itself. *)
Definition Push_task (tl : prq) (entry : wantlist.Entry) (to : string)
    (now : Z) (partner : activePartner) (pQ : list string)
    (ps : gmap string activePartner) : prq :=
  match taskMap tl !! taskKey to (Key entry) with
  | Some l =>
      let h := alter (set_Priority (Priority entry)) l (heap tl) in
      let partner' :=
        set_taskQueue (pq.Update (taskCmp h) l (taskQueue partner)) partner in
      {| pQueue := pQ; taskMap := taskMap tl;
         partners := <[to := partner']> ps; heap := h; next := next tl |}
  | None =>
      if decide (Key entry ∈ activeBlocks partner)
      then {| pQueue := pQ; taskMap := taskMap tl; partners := ps;
              heap := heap tl; next := next tl |}
      else
        let task := {| Entry := entry; Target := to; trash := false;
                       created := now |} in
        let l := next tl in
        let h := <[l := task]> (heap tl) in
        let partner' :=
          set_requests (GoInt.add (requests partner) 1)
            (set_taskQueue (pq.Push (taskCmp h) l (taskQueue partner))
               partner) in
        let ps' := <[to := partner']> ps in
        {| pQueue := pq.Update (partnerCmp ps') to pQ;
           taskMap := <[task_Key task := l]> (taskMap tl);
           partners := ps'; heap := h; next := S (next tl) |}
  end.

(** [Push] *)
Definition Push (tl : prq) (entry : wantlist.Entry) (to : string) (now : Z) : prq :=
  let '(partner, pQ, ps) := Push_partner tl to in
  Push_task tl entry to now partner pQ ps.

(** The loop of [Pop] over the popped partner's task queue; every round
    pops one task, so the length of the queue bounds the rounds.  [None]
    stands for a dangling task pointer, which Go rules out. *)
Fixpoint drain (fuel : nat) (h : gmap nat peerRequestTask)
    (tm : gmap string nat) (partner : activePartner)
    : option (option nat * gmap string nat * activePartner) :=
  match fuel with
  | O => Some (None, tm, partner)
  | S fuel' =>
      match pq.Pop (taskQueue partner) with
      | None => Some (None, tm, partner)
      | Some (l, q') =>
          out ← h !! l;
          let tm' := delete (task_Key out) tm in
          let partner' := set_taskQueue q' partner in
          if trash out then drain fuel' h tm' partner'
          else
            let started := StartTask partner' (Key (Entry out)) in
            Some (Some l, tm',
                  set_requests (GoInt.sub (requests started) 1) started)
      end
  end.

(** [Pop] returns the popped task pointer ([None] for [nil]) and the new
    queue.  The outer [None] stands for a dangling pointer, which Go rules
    out (see [Pop_total]). *)
Definition Pop (tl : prq) : option (option nat * prq) :=
  match pq.Pop (pQueue tl) with
  | None => Some (None, tl)
  | Some (p, pQ) =>
      partner ← partners tl !! p;
      '(out, tm, partner') ←
        drain (pq.Len (taskQueue partner)) (heap tl) (taskMap tl) partner;
      let ps' := <[p := partner']> (partners tl) in
      Some (out, {| pQueue := pq.Push (partnerCmp ps') p pQ; taskMap := tm;
                    partners := ps'; heap := heap tl; next := next tl |})
  end.

(** [Remove]; [None] is the nil dereference of [tl.partners[p]].  The
    function does not call [tl.pQueue.Update]. *)
Definition Remove (tl : prq) (k p : string) : option prq :=
  match taskMap tl !! taskKey p k with
  | Some l =>
      partner ← partners tl !! p;
      Some {| pQueue := pQueue tl; taskMap := taskMap tl;
              partners :=
                <[p := set_requests (GoInt.sub (requests partner) 1) partner]>
                  (partners tl);
              heap := alter set_trash l (heap tl);
              next := next tl |}
  | None => Some tl
  end.

(** The [Done] closure of a task that [Push] created for peer [to] and key
    [k]: it captures the partner and [entry.Key].  [None] is the panic of
    [TaskDone] (or a closure that no [Push] has created yet). *)
Definition Done (tl : prq) (to k : string) : option prq :=
  partner ← partners tl !! to;
  partner' ← TaskDone partner k;
  let ps' := <[to := partner']> (partners tl) in
  Some {| pQueue := pq.Update (partnerCmp ps') to (pQueue tl);
          taskMap := taskMap tl; partners := ps';
          heap := heap tl; next := next tl |}.

(** Calls on the queue, and sequences of them. *)
Inductive op :=
  | OpPush (entry : wantlist.Entry) (to : string) (now : Z)
  | OpPop
  | OpRemove (k p : string)
  | OpDone (to k : string).

(** One call: the task pointer it yields (only [Pop] yields one) and the
    state it leaves. *)
Definition step (tl : prq) (o : op) : option (option nat * prq) :=
  match o with
  | OpPush entry to now => Some (None, Push tl entry to now)
  | OpPop => Pop tl
  | OpRemove k p => tl' ← Remove tl k p; Some (None, tl')
  | OpDone to k => tl' ← Done tl to k; Some (None, tl')
  end.

(** [exec] collects the tasks yielded by the [Pop]s of the sequence. *)
Fixpoint exec (ops : list op) (tl : prq) : option (list nat * prq) :=
  match ops with
  | [] => Some ([], tl)
  | o :: ops' =>
      '(out, tl1) ← step tl o;
      '(outs, tl2) ← exec ops' tl1;
      Some (from_option (λ l, [l]) [] out ++ outs, tl2)
  end.

Definition run (ops : list op) (tl : prq) : option prq :=
  snd <$> exec ops tl.

(** The task objects that sit in some partner's task queue. *)
Definition scheduled (tl : prq) : list nat :=
  mjoin ((λ kv, taskQueue (snd kv)) <$> map_to_list (partners tl)).

Definition is_task_for (tl : prq) (p k : string) (l : nat) : bool :=
  match heap tl !! l with
  | Some t => bool_decide (Target t = p ∧ Key (Entry t) = k)
  | None => false
  end.

Definition tasks_for (tl : prq) (p k : string) : list nat :=
  filter (λ l, is_task_for tl p k l = true) (scheduled tl).

(** Calls on one partner, and sequences of them; [None] is the panic. *)
Inductive partner_call :=
  | CallStartTask (k : string)
  | CallTaskDone (k : string).

Fixpoint partner_run (cs : list partner_call) (P : activePartner)
    : option activePartner :=
  match cs with
  | [] => Some P
  | CallStartTask k :: cs' => partner_run cs' (StartTask P k)
  | CallTaskDone k :: cs' => P' ← TaskDone P k; partner_run cs' P'
  end.

(** The tasks started and not yet done after the calls [cs], [n] being
    their number before; [None] when some [TaskDone] of the sequence has
    no [StartTask] before it to answer. *)
Fixpoint outstanding (n : nat) (cs : list partner_call) : option nat :=
  match cs with
  | [] => Some n
  | CallStartTask _ :: cs' => outstanding (S n) cs'
  | CallTaskDone _ :: cs' =>
      match n with
      | O => None
      | S m => outstanding m cs'
      end
  end.

(** A run used as an example: a second [Push] for a queued key, a [Push]
    for an active key, a cancelled task and its re-push. *)
Definition example_ops : list op :=
  [ OpPush {| Key := "k1"; Priority := 5 |} "p" 1;
    OpPush {| Key := "k1"; Priority := 9 |} "p" 2;
    OpPush {| Key := "k2"; Priority := 7 |} "p" 3;
    OpPush {| Key := "k3"; Priority := 1 |} "q" 4;
    OpPop;
    OpPush {| Key := "k1"; Priority := 2 |} "p" 5;
    OpRemove "k2" "p";
    OpPush {| Key := "k2"; Priority := 8 |} "p" 6 ].

Definition example_state : prq := default newPRQ (run example_ops newPRQ).

(** The same run cut before its [Pop], and the state after that [Pop]. *)
Definition example_before_pop : prq :=
  default newPRQ (run (take 4 example_ops) newPRQ).

Definition example_after_pop : prq :=
  default newPRQ (run (take 5 example_ops) newPRQ).

(** The same run cut before its last [Push]: the task of peer p and key k2
    (at address 1) is trashed and still queued. *)
Definition example_trashed : prq :=
  default newPRQ (run (take 7 example_ops) newPRQ).

(** A run that leaves peer p with a live task and a pending count of 0
    (its cancelled task is removed twice), next to a peer q with one
    pending request. *)
Definition example_stale_ops : list op :=
  [ OpPush {| Key := "k1"; Priority := 5 |} "p" 1;
    OpPush {| Key := "k2"; Priority := 7 |} "p" 2;
    OpPush {| Key := "k3"; Priority := 1 |} "q" 3;
    OpRemove "k1" "p";
    OpRemove "k1" "p" ].

(** The shape of the states the calls produce: a queued pointer leads to a
    task of that partner which [taskMap] files under its key, no queue
    holds a pointer twice, and every entry of [taskMap] is queued at the
    partner of its target. *)
Record wf_core (h : gmap nat peerRequestTask) (tm : gmap string nat)
    (ps : gmap string activePartner) : Prop := mk_wf_core {
  wf_queue : ∀ p P l, ps !! p = Some P → l ∈ taskQueue P →
    ∃ t, h !! l = Some t ∧ Target t = p ∧ tm !! task_Key t = Some l;
  wf_nodup : ∀ p P, ps !! p = Some P → NoDup (taskQueue P);
  wf_map : ∀ tk l, tm !! tk = Some l →
    ∃ t P, h !! l = Some t ∧ task_Key t = tk
           ∧ ps !! Target t = Some P ∧ l ∈ taskQueue P
}.

Record wf (tl : prq) : Prop := mk_wf {
  wf_tasks : wf_core (heap tl) (taskMap tl) (partners tl);
  wf_pQueue : ∀ p, p ∈ pQueue tl ↔ is_Some (partners tl !! p);
  wf_pQueue_nodup : NoDup (pQueue tl);
  wf_next : ∀ l, is_Some (heap tl !! l) → (l < next tl)%nat
}.

(** Counters that moved at most [n] times by one from zero. *)
Definition in_bounds (n : Z) (P : activePartner) : Prop :=
  - n ≤ requests P ≤ n ∧ 0 ≤ active P ≤ n.

Definition bounded (n : Z) (ps : gmap string activePartner) : Prop :=
  ∀ p P, ps !! p = Some P → in_bounds n P.

(** [t'] is a later state of the task object [t]: target and key are
    never written, and nothing clears [trash]. *)
Definition same_task (t t' : peerRequestTask) : Prop :=
  Target t' = Target t ∧ Key (Entry t') = Key (Entry t)
  ∧ (trash t = true → trash t' = true).

(** No partner has a task queued for a key of its active set. *)
Definition active_not_queued (tl : prq) : Prop :=
  ∀ p P l t, partners tl !! p = Some P → l ∈ taskQueue P →
    heap tl !! l = Some t → Key (Entry t) ∉ activeBlocks P.

(** Whatever [taskMap] files under [tk] is trashed. *)
Definition key_dead (tk : string) (tl : prq) : Prop :=
  ∀ l, taskMap tl !! tk = Some l →
    ∃ t, heap tl !! l = Some t ∧ trash t = true.

(** No call of the sequence is a [Push] filed under [tk]. *)
Definition no_push (tk : string) (ops : list op) : Prop :=
  Forall (λ o, match o with
               | OpPush entry to _ => taskKey to (Key entry) ≠ tk
               | _ => True
               end) ops.

(** No call of the sequence fires the [Done] closure of peer [p] and key
    [k]. *)
Definition no_done (p k : string) (ops : list op) : Prop :=
  Forall (λ o, o ≠ OpDone p k) ops.

End decision.


(** ** blocks.Block *)
Module blocks.

(** Modelled from the spec: the package blocks is not among the sources.
    A block is a pair of a key and its bytes; [Key] is the method
    [blk.Key()]. *)
Record Block := mkBlock { Key : string; Data : string }.

#[global] Instance Block_eq_dec : EqDecision Block.
Proof. solve_decision. Defined.

End blocks.

(** ** The message interface bsmsg.BitSwapMessage *)
Module bsmsg.

Module Entry.

(** Modelled from the spec: the package message is not among the sources.
    [bsmsg.Entry] is a wantlist entry (key and priority) with its [Cancel]
    flag, read in [AddMessage] as [e.Key], [e.Priority] and [e.Cancel]. *)
Record t := mk { Key : string; Priority : Z; Cancel : bool }.

End Entry.

(** Modelled from the spec: the interface [bsmsg.BitSwapMessage], with the
    methods that the sources call.  A method that mutates the message is a
    function to the new message; the message objects themselves live in a
    store (see [peermanager]). *)
Class BitSwapMessage (M : Type) := {
  New : M;
  Wantlist : M → list Entry.t;
  Blocks : M → list blocks.Block;
  AddEntry : M → string → Z → M;
  Cancel : M → string → M;
  Empty : M → bool;
  SetFull : M → bool → M;
  Full : M → bool;
  AddBlock : M → blocks.Block → M;
  ClearBlocks : M → M
}.

(** Modelled from the spec: the implementation of the interface is not
    among the sources.  A message holds a [Full] flag, a set of wantlist
    entries (each either add-with-priority or cancel) keyed by their key,
    and a set of blocks keyed by their key; entries and blocks are kept in
    insertion order. *)
Record impl := mkImpl {
  full : bool;
  wantlist : list Entry.t;
  blks : list blocks.Block
}.

Fixpoint put_entry (e : Entry.t) (l : list Entry.t) : list Entry.t :=
  match l with
  | [] => [e]
  | x :: r => if decide (Entry.Key x = Entry.Key e) then e :: r
              else x :: put_entry e r
  end.

Fixpoint put_block (b : blocks.Block) (l : list blocks.Block) : list blocks.Block :=
  match l with
  | [] => [b]
  | x :: r => if decide (blocks.Key x = blocks.Key b) then b :: r
              else x :: put_block b r
  end.

#[global] Instance impl_message : BitSwapMessage impl := {|
  New := {| full := false; wantlist := []; blks := [] |};
  Wantlist m := wantlist m;
  Blocks m := blks m;
  AddEntry m k p :=
    {| full := full m;
       wantlist := put_entry (Entry.mk k p false) (wantlist m);
       blks := blks m |};
  Cancel m k :=
    {| full := full m;
       wantlist := put_entry (Entry.mk k 0 true) (wantlist m);
       blks := blks m |};
  Empty m := bool_decide (wantlist m = [] ∧ blks m = []);
  SetFull m b := {| full := b; wantlist := wantlist m; blks := blks m |};
  Full m := full m;
  AddBlock m b :=
    {| full := full m; wantlist := wantlist m; blks := put_block b (blks m) |};
  ClearBlocks m := {| full := full m; wantlist := wantlist m; blks := [] |}
|}.

End bsmsg.

(** ** peermanager.go: the send queue *)
Module peermanager.

Import bsmsg.

(** [msgQueue]; [wlmsg] is a pointer into the store of message objects
    ([None] is [nil]).  The channels [work] and [done] belong to the worker
    goroutine; of them only the outcome of the non-blocking send on [work]
    shows in [AddMessage]. *)
Record msgQueue := mkQueue {
  p : string;
  wlmsg : option nat;
  blocks : gmap string blocks.Block
}.

Section AddMessage.
Context {M : Type} `{BitSwapMessage M}.

(** [for _, blk := range msg.Blocks() { mq.blocks[blk.Key()] = blk }] *)
Definition add_blocks (bs : list blocks.Block)
    (m : gmap string blocks.Block) : gmap string blocks.Block :=
  foldl (λ acc blk, <[blocks.Key blk := blk]> acc) m bs.

(** One round of the merge loop on the pending message. *)
Definition merge_entry (wl : M) (e : Entry.t) : M :=
  if Entry.Cancel e then Cancel wl (Entry.Key e)
  else AddEntry wl (Entry.Key e) (Entry.Priority e).

(** [AddMessage] on the store [h] of message objects; [msg] is the
    pointer passed in.  [waiting] tells whether the worker is blocked on
    [<-mq.work], that is whether the non-blocking send in the deferred
    function goes through; the result carries that outcome.  [None] is
    the nil dereference of [msg]. *)
Definition AddMessage (h : gmap nat M) (mq : msgQueue) (msg : nat)
    (waiting : bool) : option (gmap nat M * msgQueue * bool) :=
  m ← h !! msg;
  let blocks' := add_blocks (Blocks m) (blocks mq) in
  let h1 := <[msg := ClearBlocks m]> h in
  match wlmsg mq with
  | None =>
      Some (h1, {| p := p mq; wlmsg := Some msg; blocks := blocks' |},
            waiting)
  | Some w =>
      if Full (ClearBlocks m)
      then Some (h1, {| p := p mq; wlmsg := Some msg; blocks := blocks' |},
                 waiting)
      else
        let h2 :=
          foldl (λ hh e, alter (λ wl, merge_entry wl e) w hh) h1
                (Wantlist (ClearBlocks m)) in
        Some (h2, {| p := p mq; wlmsg := Some w; blocks := blocks' |},
              waiting)
  end.
End AddMessage.

(** An example: a queue for "peer" whose pending message is object 0, and
    an incremental message, object 1, with a cancel, an addition and two
    blocks, one of them under the key x that the queue already holds. *)
Definition example_store : gmap nat bsmsg.impl :=
  {[ 0%nat := {| full := false;
                 wantlist := [Entry.mk "a" 3 false; Entry.mk "c" 1 false];
                 blks := [] |};
     1%nat := {| full := false;
                 wantlist := [Entry.mk "a" 0 true; Entry.mk "b" 5 false];
                 blks := [blocks.mkBlock "x" "new"; blocks.mkBlock "y" "two"] |} ]}.

Definition example_queue : msgQueue :=
  {| p := "peer"; wlmsg := Some 0%nat;
     blocks := {[ "x" := blocks.mkBlock "x" "old" ]} |}.

End peermanager.

(** ** bitswap.go and workers.go *)
Module bitswap.

Import blocks.

(** Go [error] values: [errors.New(msg)] (and the errors of the
    collaborators), and the two values of [ctx.Err()]. *)
Inductive error :=
  | errorString (msg : string)
  | Canceled
  | DeadlineExceeded.

#[global] Instance error_eq_dec : EqDecision error.
Proof. solve_decision. Defined.

(** [kMaxPriority = math.MaxInt32] *)
Definition kMaxPriority : Z := 2 ^ 31 - 1.

(** [blockRequest]; a [context.Context] is named by a number. *)
Record blockRequest := mkRequest { keys : list string; ctx : nat }.

(** What the outer [select] of [GetBlock] can receive. *)
Inductive promiseResult :=
  | GotBlock (b : Block)
  | PromiseClosed
  | ParentDone (e : error).

(** The statements of the API functions that touch a collaborator or a
    channel, each with the type of what it yields. *)
Inductive Eff : Type → Type :=
  (** [select { case <-bs.process.Closing(): ...; default: }] *)
  | Closing : Eff bool
  (** [bs.blockstore.Put(blk)] *)
  | Put (blk : Block) : Eff (option error)
  (** [bs.wantlist.Remove(k)] *)
  | WantlistRemove (k : string) : Eff unit
  (** [bs.notifications.Publish(blk)] *)
  | Publish (blk : Block) : Eff unit
  (** [bs.notifications.Subscribe(ctx, keys...)] *)
  | Subscribe (ctx : nat) (keys : list string) : Eff nat
  (** [select { case bs.batchRequests <- req: ...; case <-ctx.Done(): ... }] *)
  | SendBatchRequest (req : blockRequest) : Eff (option error)
  (** [select { case bs.newBlocks <- blk: ; case <-ctx.Done(): ... }] *)
  | SendNewBlocks (ctx : nat) (blk : Block) : Eff (option error)
  (** [context.WithCancel(parent)] and the deferred [cancelFunc()] *)
  | WithCancel (parent : nat) : Eff nat
  | CancelFunc (ctx : nat) : Eff unit
  (** [select { case block, ok := <-promise: ...; case <-parent.Done(): ... }] *)
  | AwaitPromise (promise : option nat) (parent : nat) : Eff promiseResult
  (** [select { case <-ctx.Done(): ... ctx.Err(); default: }] *)
  | CtxErr (ctx : nat) : Eff (option error)
  (** [bs.process.Close()] *)
  | ProcessClose : Eff (option error).

(** Programs over these statements. *)
Inductive Prog (R : Type) : Type :=
  | Ret (r : R)
  | Vis {X : Type} (e : Eff X) (k : X → Prog R).
Arguments Ret {R} r.
Arguments Vis {R X} e k.

Fixpoint bind {A B : Type} (m : Prog A) (f : A → Prog B) : Prog B :=
  match m with
  | Ret a => f a
  | Vis e k => Vis e (λ x, bind (k x) f)
  end.

Definition call {X : Type} (e : Eff X) : Prog X := Vis e Ret.

#[global] Instance Prog_bind : MBind Prog := λ A B f m, bind m f.
#[global] Instance Prog_ret : MRet Prog := λ A a, Ret a.

Definition closedError : error := errorString "bitswap is closed".

(** [GetBlocks] *)
Definition GetBlocks (ctx : nat) (keys : list string)
    : Prog (option nat * option error) :=
  c ← call Closing;
  if (c : bool) then mret (None, Some closedError)
  else
    promise ← call (Subscribe ctx keys);
    r ← call (SendBatchRequest {| keys := keys; ctx := ctx |});
    match r with
    | None => mret (Some promise, None)
    | Some e => mret (None, Some e)
    end.

(** [GetBlock]; the deferred [cancelFunc()] runs before every return.  The
    calls of the event log are left out, here and in [HasBlock]. *)
Definition GetBlock (parent : nat) (k : string)
    : Prog (option Block * option error) :=
  ctx ← call (WithCancel parent);
  r ← GetBlocks ctx [k];
  match r with
  | (_, Some err) => call (CancelFunc ctx);; mret (None, Some err)
  | (promise, None) =>
      got ← call (AwaitPromise promise parent);
      match got with
      | GotBlock block => call (CancelFunc ctx);; mret (Some block, None)
      | PromiseClosed =>
          e ← call (CtxErr ctx);
          call (CancelFunc ctx);;
          match e with
          | Some err => mret (None, Some err)
          | None =>
              mret (None, Some (errorString "promise channel was closed"))
          end
      | ParentDone err => call (CancelFunc ctx);; mret (None, Some err)
      end
  end.

(** [HasBlock] *)
Definition HasBlock (ctx : nat) (blk : Block) : Prog (option error) :=
  c ← call Closing;
  if (c : bool) then mret (Some closedError)
  else
    err ← call (Put blk);
    match err with
    | Some e => mret (Some e)
    | None =>
        call (WantlistRemove (Key blk));;
        call (Publish blk);;
        r ← call (SendNewBlocks ctx blk);
        match r with
        | Some e => mret (Some e)
        | None => mret None
        end
    end.

(** [Close] *)
Definition Close : Prog (option error) := call ProcessClose.

(** *** The collaborators *)

(** Modelled from the spec: a subscription of the notification registry,
    with the keys it still waits for and the blocks delivered to it so
    far. *)
Record subscription := mkSub {
  sub_ctx : nat;
  waiting : list string;
  delivered : list Block
}.

(** The state the API functions act on: the [Closing()] channel of the
    process, the collaborators and the two channels of [Bitswap]. *)
Record world := mkWorld {
  closing : bool;
  blockstore : gmap string Block;
  wantlist : gmap string Z;
  notifications : list subscription;
  batchRequests : list blockRequest;
  newBlocks : list Block;
  contexts : nat;
  cancelled : gset nat
}.

(** What the surroundings decide during one call: whether the block store
    fails, and which case of each blocking [select] fires ([Some e]: the
    context ended first and [ctx.Err()] is [e]). *)
Record sched := mkSched {
  put_error : option error;
  batch_ctx_done : option error;
  newBlocks_ctx_done : option error;
  promise_result : promiseResult;
  ctx_err : option error
}.

(** Modelled from the spec: what [Publish] does to one subscription. *)
Definition publish_to (blk : Block) (s : subscription) : subscription :=
  if decide (Key blk ∈ waiting s)
  then {| sub_ctx := sub_ctx s;
          waiting := filter (λ k, k ≠ Key blk) (waiting s);
          delivered := delivered s ++ [blk] |}
  else s.

(** Modelled from the spec: the collaborators (process, block store, local
    wantlist, notification registry, contexts) are not among the sources.
    The block store is a map from keys to blocks whose [Put] may fail; the
    local wantlist maps keys to priorities and [Remove] deletes (no-op when
    absent); [Publish] fans the block out to every subscription whose key
    set includes its key, each subscription receiving a block at most
    once; [Close] of the process closes the [Closing()] channel for good
    and runs the teardown given to [process.WithTeardown] in [New], which
    shuts the notification registry down, so that a closed engine
    publishes to nobody.  The two channels keep what was sent on them. *)
Definition handle {X : Type} (e : Eff X) (o : sched) (w : world) : X * world :=
  match e in Eff X return X * world with
  | Closing => (closing w, w)
  | Put blk =>
      match put_error o with
      | Some err => (Some err, w)
      | None =>
          (None,
           {| closing := closing w;
              blockstore := <[Key blk := blk]> (blockstore w);
              wantlist := wantlist w; notifications := notifications w;
              batchRequests := batchRequests w; newBlocks := newBlocks w;
              contexts := contexts w; cancelled := cancelled w |})
      end
  | WantlistRemove k =>
      (tt,
       {| closing := closing w; blockstore := blockstore w;
          wantlist := delete k (wantlist w);
          notifications := notifications w;
          batchRequests := batchRequests w; newBlocks := newBlocks w;
          contexts := contexts w; cancelled := cancelled w |})
  | Publish blk =>
      (tt,
       {| closing := closing w; blockstore := blockstore w;
          wantlist := wantlist w;
          notifications :=
            if closing w then notifications w
            else publish_to blk <$> notifications w;
          batchRequests := batchRequests w; newBlocks := newBlocks w;
          contexts := contexts w; cancelled := cancelled w |})
  | Subscribe ctx ks =>
      (length (notifications w),
       {| closing := closing w; blockstore := blockstore w;
          wantlist := wantlist w;
          notifications :=
            notifications w
              ++ [{| sub_ctx := ctx; waiting := ks; delivered := [] |}];
          batchRequests := batchRequests w; newBlocks := newBlocks w;
          contexts := contexts w; cancelled := cancelled w |})
  | SendBatchRequest req =>
      match batch_ctx_done o with
      | Some err => (Some err, w)
      | None =>
          (None,
           {| closing := closing w; blockstore := blockstore w;
              wantlist := wantlist w; notifications := notifications w;
              batchRequests := batchRequests w ++ [req];
              newBlocks := newBlocks w;
              contexts := contexts w; cancelled := cancelled w |})
      end
  | SendNewBlocks _ blk =>
      match newBlocks_ctx_done o with
      | Some err => (Some err, w)
      | None =>
          (None,
           {| closing := closing w; blockstore := blockstore w;
              wantlist := wantlist w; notifications := notifications w;
              batchRequests := batchRequests w;
              newBlocks := newBlocks w ++ [blk];
              contexts := contexts w; cancelled := cancelled w |})
      end
  | WithCancel _ =>
      (contexts w,
       {| closing := closing w; blockstore := blockstore w;
          wantlist := wantlist w; notifications := notifications w;
          batchRequests := batchRequests w; newBlocks := newBlocks w;
          contexts := S (contexts w); cancelled := cancelled w |})
  | CancelFunc c =>
      (tt,
       {| closing := closing w; blockstore := blockstore w;
          wantlist := wantlist w; notifications := notifications w;
          batchRequests := batchRequests w; newBlocks := newBlocks w;
          contexts := contexts w; cancelled := {[c]} ∪ cancelled w |})
  | AwaitPromise _ _ => (promise_result o, w)
  | CtxErr _ => (ctx_err o, w)
  | ProcessClose =>
      (None,
       {| closing := true; blockstore := blockstore w;
          wantlist := wantlist w; notifications := notifications w;
          batchRequests := batchRequests w; newBlocks := newBlocks w;
          contexts := contexts w; cancelled := cancelled w |})
  end.

(** Modelled from the spec: [bs.blockstore.Has(k)]. *)
Definition Has (w : world) (k : string) : bool :=
  bool_decide (is_Some (blockstore w !! k)).

(** A statement that was run, with the state it was run in. *)
Definition event : Type := sigT Eff * world.

Definition ev {X : Type} (e : Eff X) (w : world) : event := (existT X e, w).

(** Running a program: its result, the final state and the statements it
    ran, in order. *)
Fixpoint exec {R : Type} (m : Prog R) (o : sched) (w : world)
    : R * world * list event :=
  match m with
  | Ret r => (r, w, [])
  | Vis e k =>
      let '(x, w1) := handle e o w in
      let '(r, w2, tr) := exec (k x) o w1 in
      (r, w2, ev e w :: tr)
  end.

(** The statements that may block: the [select]s without [default]. *)
Definition blocking (e : event) : bool :=
  match projT2 (fst e) with
  | SendBatchRequest _ | SendNewBlocks _ _ | AwaitPromise _ _ => true
  | _ => false
  end.

(** Calls of the public API and the error each returns. *)
Inductive api :=
  | CallGetBlock (parent : nat) (k : string)
  | CallGetBlocks (ctx : nat) (keys : list string)
  | CallHasBlock (ctx : nat) (blk : Block)
  | CallClose.

Definition api_exec (c : api) (o : sched) (w : world)
    : option error * world * list event :=
  match c with
  | CallGetBlock parent k =>
      let '(r, w', tr) := exec (GetBlock parent k) o w in (snd r, w', tr)
  | CallGetBlocks ctx ks =>
      let '(r, w', tr) := exec (GetBlocks ctx ks) o w in (snd r, w', tr)
  | CallHasBlock ctx blk => exec (HasBlock ctx blk) o w
  | CallClose => exec Close o w
  end.

Fixpoint api_run (cs : list (api * sched)) (w : world)
    : list (api * option error * list event) * world :=
  match cs with
  | [] => ([], w)
  | (c, o) :: cs' =>
      let '(err, w1, tr) := api_exec c o w in
      let '(rs, w2) := api_run cs' w1 in
      ((c, err, tr) :: rs, w2)
  end.

(** An example: an open engine that wants the key k, with one subscriber
    waiting for it, and surroundings in which nothing fails. *)
Definition example_world : world :=
  {| closing := false; blockstore := ∅; wantlist := {[ "k" := kMaxPriority ]};
     notifications := [{| sub_ctx := 0; waiting := ["k"]; delivered := [] |}];
     batchRequests := []; newBlocks := []; contexts := 1; cancelled := ∅ |}.

Definition example_sched : sched :=
  {| put_error := None; batch_ctx_done := None; newBlocks_ctx_done := None;
     promise_result := PromiseClosed; ctx_err := None |}.

(** The same surroundings, but the caller's context ends before [newBlocks]
    takes the block. *)
Definition example_sched_cancelled : sched :=
  {| put_error := None; batch_ctx_done := None;
     newBlocks_ctx_done := Some Canceled;
     promise_result := PromiseClosed; ctx_err := None |}.

(** *** The priorities of a batch *)

(** The index loop shared by [clientWorker] and [wantNewBlocks]:
    [for i, k := range keys { ... (k, kMaxPriority-i) }], as the list of
    the pairs the body is run with, [i] being the index of the first key. *)
Fixpoint priorities (i : Z) (keys : list string) : list (string * Z) :=
  match keys with
  | [] => []
  | k :: ks => (k, GoInt.sub kMaxPriority i) :: priorities (i + 1) ks
  end.

(** The calls [bs.wantlist.Add(k, kMaxPriority-i)] that [clientWorker]
    makes for one batch request; none for a request of zero keys. *)
Definition clientWorker_adds (keys : list string) : list (string * Z) :=
  if decide (length keys = 0%nat) then [] else priorities 0 keys.

(** The priority the spec words give the key at index [i]: counted down
    from [kMaxPriority] and saturating at 0. *)
Definition saturating_priority (i : Z) : Z := Z.max 0 (kMaxPriority - i).

(** A batch of [kMaxPriority + 2] keys, and the index of its last key. *)
Definition big_batch : list string :=
  replicate (Z.to_nat (kMaxPriority + 2)) "k".

Definition big_batch_last : nat := Z.to_nat (kMaxPriority + 1).

Section wantNewBlocks.
Context {M : Type} `{bsmsg.BitSwapMessage M}.

(** [wantNewBlocks]: the message handed to [bs.pm.Broadcast], [None]
    when the function returns early. *)
Definition wantNewBlocks (bkeys : list string) : option M :=
  if decide (length bkeys < 1)%nat then None
  else
    Some (foldl (λ message kp, bsmsg.AddEntry message (fst kp) (snd kp))
                (bsmsg.SetFull bsmsg.New false)
                (priorities 0 bkeys)).
End wantNewBlocks.

End bitswap.

(** ** decision/peer_request_queue.go: what the counters count *)
Module prq_accounting.

Import wantlist decision.

(** A task pointer whose task is not marked as trash. *)
Definition live (h : gmap nat peerRequestTask) (l : nat) : bool :=
  match h !! l with
  | Some t => negb (trash t)
  | None => false
  end.

(** The number of live tasks in a task queue. *)
Definition live_tasks (h : gmap nat peerRequestTask) (q : list nat) : nat :=
  length (filter (λ l, live h l = true) q).

(** Every partner's [requests] is the number of its live queued tasks. *)
Definition counts (h : gmap nat peerRequestTask)
    (ps : gmap string activePartner) : Prop :=
  ∀ p P, ps !! p = Some P → requests P = Z.of_nat (live_tasks h (taskQueue P)).

(** The call is not a [Remove] that finds a task already marked as trash,
    nor one that finds, under a colliding task key, the task of another
    peer. *)
Definition cancels_live_task (tl : prq) (o : op) : bool :=
  match o with
  | OpRemove k p =>
      match taskMap tl !! taskKey p k with
      | Some l =>
          match heap tl !! l with
          | Some t => negb (trash t) && bool_decide (Target t = p)
          | None => false
          end
      | None => true
      end
  | _ => true
  end.

(** No [Remove] of the sequence is of that kind, each taken in the state
    in which it is called. *)
Fixpoint removes_once (ops : list op) (tl : prq) : bool :=
  match ops with
  | [] => true
  | o :: ops' =>
      cancels_live_task tl o
      && match step tl o with
         | Some (_, tl1) => removes_once ops' tl1
         | None => true
         end
  end.

End prq_accounting.

(** ** peermanager.go: the manager loop and the queue workers *)
Module PeerManager.

Import bsmsg peermanager.

(** What [Run] works on: [pm.peers] and the store of the message objects
    that the queues point into.  A [*msgQueue] is reachable only through
    [pm.peers] and from its own worker, so the map holds the queues
    themselves. *)
Record state (M : Type) := mkState {
  store : gmap nat M;
  peers : gmap string msgQueue
}.
Arguments mkState {M} store peers.
Arguments store {M} s.
Arguments peers {M} s.

(** What one round of the [select] in [Run] receives: a [msgPair] from
    [pm.incoming] (sent by [Send], or by [Broadcast] with an empty [to]),
    a peer from [pm.connect] or [pm.disconnect], a [cancellation] from
    [pm.cancels], or [ctx.Done()]. *)
Inductive received :=
  | Incoming (to : string) (msg : nat)
  | Connect (p : string)
  | Disconnect (p : string)
  | Cancels (who blk : string)
  | RunCtxDone.

(** [startPeerHandler]; the worker goroutine it starts is [runQueue]. *)
Definition startPeerHandler (ps : gmap string msgQueue) (p : string)
    : gmap string msgQueue :=
  match ps !! p with
  | Some _ => ps
  | None => <[p := {| peermanager.p := p; wlmsg := None; blocks := ∅ |}]> ps
  end.

(** [stopPeerHandler] *)
Definition stopPeerHandler (ps : gmap string msgQueue) (p : string)
    : gmap string msgQueue :=
  match ps !! p with
  | Some _ => delete p ps
  | None => ps
  end.

(** What [Send], [Broadcast], [Connected], [Disconnected] and
    [CancelBlock] put on the channels of the manager; [Broadcast] leaves
    the [to] of its [msgPair] at the zero value. *)
Definition Send (to : string) (msg : nat) : received := Incoming to msg.
Definition Broadcast (msg : nat) : received := Incoming "" msg.
Definition Connected (p : string) : received := Connect p.
Definition Disconnected (p : string) : received := Disconnect p.
Definition CancelBlock (p blk : string) : received := Cancels p blk.

Section Run.
Context {M : Type} `{BitSwapMessage M}.

(** The order in which [for _, p := range pm.peers] visits the queues;
    Go leaves it unspecified. *)
Variable range : gmap string msgQueue → list (string * msgQueue).

(** [p.AddMessage(msgp.msg)] for the queue of peer [q]; the signal to the
    worker is left to [runQueue_round]. *)
Definition add_to (s : state M) (q : string) (msg : nat) : option (state M) :=
  mq ← peers s !! q;
  '(h, mq', _) ← AddMessage (store s) mq msg false;
  Some {| store := h; peers := <[q := mq']> (peers s) |}.

(** One round of the loop of [Run]; [None] is a nil dereference (of a
    message pointer that is [nil]). *)
Definition Run_round (s : state M) (r : received) : option (state M) :=
  match r with
  | Incoming to msg =>
      if decide (to = "")
      then foldl (λ acc kv, s' ← acc; add_to s' kv.1 msg) (Some s)
                 (range (peers s))
      else
        add_to {| store := store s;
                  peers := match peers s !! to with
                           | Some _ => peers s
                           | None => startPeerHandler (peers s) to
                           end |} to msg
  | Connect p =>
      Some {| store := store s; peers := startPeerHandler (peers s) p |}
  | Disconnect p =>
      Some {| store := store s; peers := stopPeerHandler (peers s) p |}
  | Cancels who blk =>
      match peers s !! who with
      | None => Some s
      | Some mq =>
          Some {| store := store s;
                  peers := <[who := {| peermanager.p := peermanager.p mq;
                                       wlmsg := wlmsg mq;
                                       blocks := delete blk (blocks mq) |}]>
                             (peers s) |}
      end
  | RunCtxDone => Some s
  end.

(** The rounds of [Run] up to [ctx.Done()]. *)
Fixpoint Run (rs : list received) (s : state M) : option (state M) :=
  match rs with
  | [] => Some s
  | RunCtxDone :: _ => Some s
  | r :: rs' => s' ← Run_round s r; Run rs' s'
  end.

(** The order in which [for _, blk := range blks] visits the blocks. *)
Variable range_blocks : gmap string blocks.Block → list (string * blocks.Block).

(** One round of [runQueue] after a receive from [mq.work]: the queue as
    it is left, and the messages handed to [pm.network.SendMessage] for
    the peer [mq.p], in order.  The errors of [ConnectTo] and
    [SendMessage] are logged and change nothing.  [None] is the nil
    dereference in [wlm.Empty()]. *)
Definition runQueue_round (h : gmap nat M) (mq : msgQueue)
    : option (msgQueue * list M) :=
  let blks := blocks mq in
  let mq' := {| peermanager.p := peermanager.p mq; wlmsg := None; blocks := ∅ |} in
  w ← wlmsg mq;
  wlm ← h !! w;
  Some (mq',
        (if Empty wlm then [] else [wlm])
        ++ ((λ kv, AddBlock New kv.2) <$> range_blocks blks)).

End Run.

(** Whether [pm.peers] holds a queue for [p] after the rounds [rs], given
    whether it did before. *)
Fixpoint has_queue (rs : list received) (p : string) (before : bool) : bool :=
  match rs with
  | [] => before
  | RunCtxDone :: _ => before
  | Incoming to _ :: rs' =>
      has_queue rs' p (if decide (to = p ∧ to ≠ "") then true else before)
  | Connect q :: rs' => has_queue rs' p (if decide (q = p) then true else before)
  | Disconnect q :: rs' =>
      has_queue rs' p (if decide (q = p) then false else before)
  | Cancels _ _ :: rs' => has_queue rs' p before
  end.

(** An example: the queues of two connected peers with nothing pending,
    a message (object 0) with a wantlist entry and a block, and a second
    message (object 1) with another entry. *)
Definition example_manager : state bsmsg.impl :=
  {| store :=
       {[ 0%nat := {| full := false; wantlist := [Entry.mk "a" 3 false];
                      blks := [blocks.mkBlock "x" "data"] |};
          1%nat := {| full := false; wantlist := [Entry.mk "b" 5 false];
                      blks := [] |} ]};
     peers :=
       {[ "A" := {| peermanager.p := "A"; wlmsg := None; blocks := ∅ |};
          "B" := {| peermanager.p := "B"; wlmsg := None; blocks := ∅ |} ]} |}.

(** The same after [Run] has handled [Send("A", object 0)], and after it
    has handled [Broadcast(object 0)] instead. *)
Definition example_manager_sent : state bsmsg.impl :=
  default example_manager
    (Run_round map_to_list example_manager (Send "A" 0%nat)).

Definition example_manager_broadcast : state bsmsg.impl :=
  default example_manager
    (Run_round map_to_list example_manager (Broadcast 0%nat)).

End PeerManager.

(** ** bitswap.go: the inbound path *)
Module receive.

Import blocks bsmsg bitswap.

(** [err.Error()] *)
Definition Error (e : error) : string :=
  match e with
  | errorString msg => msg
  | Canceled => "context canceled"
  | DeadlineExceeded => "context deadline exceeded"
  end.

(** What the surroundings decide while one block of a message is taken
    in: whether [bs.blockstore.Has] fails, and the outcomes left open in
    the [HasBlock] call. *)
Record surroundings := mkSurroundings {
  has_fails : bool;
  api : sched
}.

Section ReceiveMessage.
Context {M : Type} `{BitSwapMessage M}.

(** The [Bitswap] fields that [ReceiveMessage] touches: the state of the
    API functions, the two counters, and the calls made on the decision
    engine and on the peer manager, which are recorded in order. *)
Record receiver := mkReceiver {
  w : world;
  blocksRecvd : Z;
  dupBlocksRecvd : Z;
  engine_MessageReceived : list (string * M);
  pm_CancelBlock : list (string * string);
  pm_Broadcast : list M
}.

(** [cancelBlocks]: the message handed to [bs.pm.Broadcast], [None] when
    the function returns early. *)
Definition cancelBlocks (bkeys : list string) : option M :=
  if decide (length bkeys < 1)%nat then None
  else Some (foldl (λ message k, Cancel message k) (SetFull New false) bkeys).

(** The loop of [ReceiveMessage] over [incoming.Blocks()], from the block
    at index [i] on: the error returned from inside the loop if any, the
    fields, and [keys].  [context.WithTimeout] and its [cancel] are the
    [WithCancel] and [CancelFunc] of the API state. *)
Fixpoint receive_blocks (env : nat → surroundings) (ctx : nat)
    (blks : list Block) (i : nat) (st : receiver) (keys : list string)
    : option error * receiver * list string :=
  match blks with
  | [] => (None, st, keys)
  | block :: rest =>
      let o := api (env i) in
      let dup :=
        if negb (has_fails (env i)) && Has (w st) (Key block)
        then GoInt.add (dupBlocksRecvd st) 1 else dupBlocksRecvd st in
      let '(hasBlockCtx, w1) := handle (WithCancel ctx) o (w st) in
      let '(err, w2, _) := exec (HasBlock hasBlockCtx block) o w1 in
      let st2 w' :=
        {| w := w'; blocksRecvd := GoInt.add (blocksRecvd st) 1;
           dupBlocksRecvd := dup;
           engine_MessageReceived := engine_MessageReceived st;
           pm_CancelBlock := pm_CancelBlock st;
           pm_Broadcast := pm_Broadcast st |} in
      match err with
      | Some e =>
          (Some (errorString
                   (String.app "ReceiveMessage HasBlock error: " (Error e))),
           st2 w2, keys)
      | None =>
          let '(_, w3) := handle (CancelFunc hasBlockCtx) o w2 in
          receive_blocks env ctx rest (S i) (st2 w3) (keys ++ [Key block])
      end
  end.

(** [ReceiveMessage] *)
Definition ReceiveMessage (env : nat → surroundings) (ctx : nat) (p : string)
    (incoming : M) (st : receiver) : option error * receiver :=
  let st1 :=
    {| w := w st; blocksRecvd := blocksRecvd st;
       dupBlocksRecvd := dupBlocksRecvd st;
       engine_MessageReceived := engine_MessageReceived st ++ [(p, incoming)];
       pm_CancelBlock :=
         pm_CancelBlock st
         ++ ((λ e, (p, Entry.Key e))
               <$> filter (λ e, Entry.Cancel e = true) (Wantlist incoming));
       pm_Broadcast := pm_Broadcast st |} in
  let '(err, st2, keys) :=
    receive_blocks env ctx (Blocks incoming) 0 st1 [] in
  match err with
  | Some e => (Some e, st2)
  | None =>
      (None,
       {| w := w st2; blocksRecvd := blocksRecvd st2;
          dupBlocksRecvd := dupBlocksRecvd st2;
          engine_MessageReceived := engine_MessageReceived st2;
          pm_CancelBlock := pm_CancelBlock st2;
          pm_Broadcast :=
            pm_Broadcast st2 ++ from_option (λ m, [m]) [] (cancelBlocks keys) |})
  end.
End ReceiveMessage.

Arguments receiver M : clear implicits.

(** Surroundings in which nothing fails and no context ends. *)
Definition calm : surroundings :=
  {| has_fails := false; api := example_sched |}.

(** An example: a receiver on the example engine, and an incoming message
    with a cancel entry and two blocks. *)
Definition example_receiver : receiver bsmsg.impl :=
  {| w := example_world; blocksRecvd := 0; dupBlocksRecvd := 0;
     engine_MessageReceived := []; pm_CancelBlock := []; pm_Broadcast := [] |}.

Definition example_incoming : bsmsg.impl :=
  bsmsg.mkImpl false [Entry.mk "z" 0 true; Entry.mk "y" 4 false]
               [mkBlock "k" "data"; mkBlock "j" "more"].

End receive.

(** ** workers.go: the worker loops *)
Module workers.

Import blocks.

(** The local variables of [provideCollector]; [keysOut] is either [nil]
    ([false]) or the channel [bs.provideKeys] ([true]). *)
Record collector := mkCollector {
  toProvide : list string;
  nextKey : string;
  keysOut : bool
}.

(** Their zero values, with which the loop starts. *)
Definition collector_start : collector :=
  {| toProvide := []; nextKey := ""; keysOut := false |}.

(** The case of the [select] that fires in one round of the loop: a
    receive from [bs.newBlocks] (of a block, or [None] for the closed
    channel), the send of [nextKey] on [keysOut], or [ctx.Done()]. *)
Inductive collector_case :=
  | RecvNewBlock (blk : option Block)
  | SendNextKey
  | CollectorCtxDone.

(** One round: the new variables, the key sent on [bs.provideKeys] if one
    was, and whether the function returns.  [None]: the case cannot fire,
    a send on a [nil] channel blocks for ever. *)
Definition collector_round (s : collector) (c : collector_case)
    : option (collector * option string * bool) :=
  match c with
  | RecvNewBlock None => Some (s, None, true)
  | RecvNewBlock (Some blk) =>
      if keysOut s
      then Some ({| toProvide := toProvide s ++ [Key blk];
                    nextKey := nextKey s; keysOut := true |}, None, false)
      else Some ({| toProvide := toProvide s;
                    nextKey := Key blk; keysOut := true |}, None, false)
  | SendNextKey =>
      if keysOut s
      then match toProvide s with
           | k :: rest =>
               Some ({| toProvide := rest; nextKey := k; keysOut := true |},
                     Some (nextKey s), false)
           | [] =>
               Some ({| toProvide := []; nextKey := nextKey s;
                        keysOut := false |},
                     Some (nextKey s), false)
           end
      else None
  | CollectorCtxDone => Some (s, None, true)
  end.

(** The loop over the cases that fire, up to the round in which the
    function returns: the variables at the end and the keys sent on
    [bs.provideKeys], in order. *)
Fixpoint provideCollector (cs : list collector_case) (s : collector)
    : option (collector * list string) :=
  match cs with
  | [] => Some (s, [])
  | c :: cs' =>
      '(s1, out, returned) ← collector_round s c;
      if (returned : bool) then Some (s1, [])
      else
        '(s2, outs) ← provideCollector cs' s1;
        Some (s2, from_option (λ k, [k]) [] out ++ outs)
  end.

(** The keys of the blocks taken from [bs.newBlocks] before the round in
    which the function returns. *)
Fixpoint taken (cs : list collector_case) : list string :=
  match cs with
  | RecvNewBlock (Some blk) :: cs' => Key blk :: taken cs'
  | SendNextKey :: cs' => taken cs'
  | _ => []
  end.

(** The keys the collector holds and has not sent yet. *)
Definition held (s : collector) : list string :=
  if keysOut s then nextKey s :: toProvide s else [].

(** [init]: the value of [TaskWorkerCount] after it, given the value of
    the environment variable IPFS_BITSWAP_TASK_WORKERS and what
    [strconv.Atoi] makes of it (a number, or an error). *)
Definition init {Err : Type} (twc : string) (Atoi : string → Z + Err) : Z :=
  let TaskWorkerCount := 8 in
  if decide (twc = "") then TaskWorkerCount
  else
    match Atoi twc with
    | inr err => TaskWorkerCount
    | inl n => if 0 <? n then n else TaskWorkerCount
    end.

Definition provideWorkers : Z := 4.

(** The goroutines of [startWorkers], by the function each runs. *)
Inductive worker :=
  | clientWorker
  | taskWorker
  | rebroadcastWorker
  | provideCollectorWorker
  | provideWorker.

#[global] Instance worker_eq_dec : EqDecision worker.
Proof. solve_decision. Defined.

(** [startWorkers]: the goroutines handed to [px.Go], in order; a loop
    [for i := 0; i < n; i++] runs [Z.to_nat n] times. *)
Definition startWorkers (TaskWorkerCount : Z) : list worker :=
  [clientWorker]
  ++ replicate (Z.to_nat TaskWorkerCount) taskWorker
  ++ [rebroadcastWorker; provideCollectorWorker]
  ++ replicate (Z.to_nat provideWorkers) provideWorker.

End workers.

(** ** network/ipfs_impl.go and the fan-out of bitswap.go *)
Module bsnet.

(** [impl.FindProvidersAsync]: what the returned channel delivers, in
    order.  [connectedPeers] is [bsnet.host.Network().Peers()], [self] is
    [bsnet.host.ID()], [providers] are the ids that the routing system
    yields, and [forwarded] is the number of them that the goroutine gets
    through before its context ends. *)
Definition FindProvidersAsync (self : string) (connectedPeers : list string)
    (providers : list string) (forwarded : nat) : list string :=
  filter (λ id, id ≠ self) connectedPeers
  ++ filter (λ id, id ≠ self) (take forwarded providers).

(** The capacity of that channel: [make(chan peer.ID, len(connectedPeers))]. *)
Definition out_capacity (connectedPeers : list string) : nat :=
  length connectedPeers.

Section fan_out.
(** [util/peerset] is not among the sources; a peer set and its [TryAdd]
    are left open. *)
Context {PeerSet : Type}.
Variable pset_New : PeerSet.
Variable TryAdd : PeerSet → string → bool * PeerSet.

(** The loop of [sendWantlistMsgToPeers] over the ids that the channel
    [peers] delivers before it is closed: the peers for which a goroutine
    calling [bs.send(ctx, p, m)] is started, in order. *)
Fixpoint send_loop (set : PeerSet) (peers : list string) : list string :=
  match peers with
  | [] => []
  | peerToQuery :: rest =>
      let '(added, set') := TryAdd set peerToQuery in
      if (added : bool) then peerToQuery :: send_loop set' rest
      else send_loop set' rest
  end.

(** [sendWantlistMsgToPeers]; [received] is the number of ids taken from
    the channel before [ctx.Done()] fires, if it does. *)
Definition sendWantlistMsgToPeers (peers : list string)
    (received : option nat) : list string :=
  match received with
  | None => send_loop pset_New peers
  | Some n => send_loop pset_New (take n peers)
  end.
End fan_out.

(** A peer set as a set of ids, for the examples. *)
Definition gset_TryAdd (s : gset string) (p : string) : bool * gset string :=
  if decide (p ∈ s) then (false, s) else (true, {[p]} ∪ s).

End bsnet.

(** ** testnet/virtual.go *)
Module testnet.

Import bitswap.

(** [networkClient]: its peer id and the embedded [bsnet.Receiver], which
    is [nil] until [SetDelegate]; a receiver (in practice a [Bitswap]
    instance) is named by a number.  The routing client plays no part in
    the functions below. *)
Record networkClient := mkClient {
  local : string;
  Receiver : option nat
}.

(** A call of [deliver] that [SendMessage] has started with [go]: the
    client it was given, the sender and the message ([None] is [nil]). *)
Record delivery := mkDelivery {
  receiver : nat;
  from : string;
  message : option nat
}.

(** [network]: [clients] maps a peer id to a pointer [*networkClient],
    an address into [heap]; [spawned] are the [deliver] goroutines started
    so far. *)
Record network := mkNetwork {
  clients : gmap string nat;
  heap : gmap nat networkClient;
  next : nat;
  spawned : list delivery
}.

(** [VirtualNetwork] *)
Definition VirtualNetwork : network :=
  {| clients := ∅; heap := ∅; next := 0; spawned := [] |}.

(** [Adapter] for the identity with id [p]: the new client and the
    network. *)
Definition Adapter (n : network) (p : string) : nat * network :=
  (next n,
   {| clients := <[p := next n]> (clients n);
      heap := <[next n := {| local := p; Receiver := None |}]> (heap n);
      next := S (next n);
      spawned := spawned n |}).

Definition HasPeer (n : network) (p : string) : bool :=
  bool_decide (is_Some (clients n !! p)).

(** [nc.SetDelegate(r)] *)
Definition SetDelegate (n : network) (nc : nat) (r : nat) : network :=
  {| clients := clients n;
     heap := alter (λ c, {| local := local c; Receiver := Some r |}) nc (heap n);
     next := next n;
     spawned := spawned n |}.

(** [network.SendMessage]: the error returned, and the network with the
    [deliver] goroutine it has started. *)
Definition SendMessage (n : network) (from to : string) (message : option nat)
    : option error * network :=
  match clients n !! to with
  | None => (Some (errorString "Cannot locate peer on network"), n)
  | Some receiver =>
      (None,
       {| clients := clients n; heap := heap n; next := next n;
          spawned := spawned n ++ [{| receiver := receiver; from := from;
                                      message := message |}] |})
  end.

(** What a call of [deliver] comes to: an error, the call
    [ReceiveMessage(ctx, from, message)] on the delegate of the client, or
    the panic of calling through a [nil] delegate. *)
Inductive outcome :=
  | DeliverError (e : error)
  | ReceiveMessage (delegate : nat) (from : string) (message : nat)
  | DeliverPanic.

(** [deliver] *)
Definition deliver (n : network) (d : delivery) : outcome :=
  match message d with
  | None => DeliverError (errorString "Invalid input")
  | Some m =>
      if decide (from d = "") then DeliverError (errorString "Invalid input")
      else
        match heap n !! receiver d with
        | Some {| Receiver := Some r |} => ReceiveMessage r (from d) m
        | _ => DeliverPanic
        end
  end.

End testnet.

(** ** pin/indirect.go *)
Module pin.

(** [indirectPin], in the version of the file that counts in [int]:
    [refCounts map[util.Key]int]. *)
Record indirectPin := mkIndirectPin { refCounts : gmap string Z }.

Definition newIndirectPin : indirectPin := {| refCounts := ∅ |}.

(** The map read [i.refCounts[k]]: the zero value for an absent key. *)
Definition count (i : indirectPin) (k : string) : Z :=
  default 0 (refCounts i !! k).

(** [i.refCounts[k]++] *)
Definition Increment (i : indirectPin) (k : string) : indirectPin :=
  {| refCounts := <[k := GoInt.add (count i k) 1]> (refCounts i) |}.

(** [i.refCounts[k]--], then the [delete] when the count has become 0. *)
Definition Decrement (i : indirectPin) (k : string) : indirectPin :=
  let i1 := {| refCounts := <[k := GoInt.sub (count i k) 1]> (refCounts i) |} in
  if decide (count i1 k = 0) then {| refCounts := delete k (refCounts i1) |}
  else i1.

Definition HasKey (i : indirectPin) (k : string) : bool :=
  bool_decide (is_Some (refCounts i !! k)).

Definition GetRefs (i : indirectPin) : gmap string Z := refCounts i.

(** Calls on a pin, and sequences of them. *)
Inductive call :=
  | CallIncrement (k : string)
  | CallDecrement (k : string).

Definition step (i : indirectPin) (c : call) : indirectPin :=
  match c with
  | CallIncrement k => Increment i k
  | CallDecrement k => Decrement i k
  end.

Definition run (cs : list call) (i : indirectPin) : indirectPin :=
  foldl step i cs.

(** The [Increment]s of [k] in a sequence minus its [Decrement]s. *)
Definition delta (k : string) (c : call) : Z :=
  match c with
  | CallIncrement k' => if decide (k' = k) then 1 else 0
  | CallDecrement k' => if decide (k' = k) then -1 else 0
  end.

Definition balance (cs : list call) (k : string) : Z :=
  foldr (λ c b, delta k c + b) 0 cs.

(** Every [Decrement] of the sequence is for a key that the pin holds when
    the call is made. *)
Fixpoint decrements_held (cs : list call) (i : indirectPin) : bool :=
  match cs with
  | [] => true
  | c :: cs' =>
      match c with
      | CallIncrement _ => true
      | CallDecrement k => HasKey i k
      end && decrements_held cs' (step i c)
  end.

Section persist.
(** [util.B58KeyEncode] and [util.B58KeyDecode] are not among the sources,
    nor are [loadSet] and [storeSet]; the two conversions are left open,
    and the order in which a [range] loop visits a map, which Go leaves
    unspecified, is a function [range]. *)
Variables B58KeyEncode B58KeyDecode : string → string.
Variable range : gmap string Z → list (string * Z).

(** [storeIndirPin]: the map [rcStore] that the loop builds and hands to
    [storeSet], whose error is the result of the function. *)
Definition storeIndirPin (p : indirectPin) : gmap string Z :=
  foldl (λ rcStore kv, <[B58KeyEncode kv.1 := kv.2]> rcStore) ∅
        (range (refCounts p)).

(** [loadIndirPin], given what [loadSet] returned: its error, or the map
    [rcStore] that it filled. *)
Definition loadIndirPin {Err : Type} (loadSet : Err + gmap string Z)
    : Err + indirectPin :=
  match loadSet with
  | inl err => inl err
  | inr rcStore =>
      inr {| refCounts :=
               foldl (λ refcnt kv,
                        if 0 <? kv.2
                        then <[B58KeyDecode kv.1 := kv.2]> refcnt
                        else refcnt)
                     ∅ (range rcStore) |}
  end.
End persist.

End pin.

(** ** pin/indirect.go, counting in uint64 *)
Module pin_uint64.

(** Go's [uint64]: arithmetic modulo 2^64. *)
Definition wrap (z : Z) : Z := z mod 2 ^ 64.

(** [indirectPin], in the version of the file that counts in [uint64]:
    [refCounts map[util.Key]uint64]. *)
Record indirectPin := mkIndirectPin { refCounts : gmap string Z }.

Definition newIndirectPin : indirectPin := {| refCounts := ∅ |}.

Definition count (i : indirectPin) (k : string) : Z :=
  default 0 (refCounts i !! k).

(** [i.refCounts[k]++] *)
Definition Increment (i : indirectPin) (k : string) : indirectPin :=
  {| refCounts := <[k := wrap (count i k + 1)]> (refCounts i) |}.

(** [i.refCounts[k]--], then the [delete] when the count has become 0. *)
Definition Decrement (i : indirectPin) (k : string) : indirectPin :=
  let i1 := {| refCounts := <[k := wrap (count i k - 1)]> (refCounts i) |} in
  if decide (count i1 k = 0) then {| refCounts := delete k (refCounts i1) |}
  else i1.

Definition HasKey (i : indirectPin) (k : string) : bool :=
  bool_decide (is_Some (refCounts i !! k)).

Definition GetRefs (i : indirectPin) : gmap string Z := refCounts i.

Definition step (i : indirectPin) (c : pin.call) : indirectPin :=
  match c with
  | pin.CallIncrement k => Increment i k
  | pin.CallDecrement k => Decrement i k
  end.

Definition run (cs : list pin.call) (i : indirectPin) : indirectPin :=
  foldl step i cs.

End pin_uint64.

(** ** testutils.go: the session generator *)
Module testutils.


Section Instances.
(** The identity that the k-th call of [RandTestBogusIdentity] yields.
    That function is not among the sources; its error, on which [Next]
    panics, is left out. *)
Variable RandTestBogusIdentity : nat → string.




End Instances.

End testutils.

(** * Properties *)

(** ** The priority queue *)
Module pq_facts.

Section facts.
Context {E : Type} `{EqDecision E}.
Variable cmp : E → E → bool.

Lemma insert_perm (e : E) (q : list E) : pq.insert cmp e q ≡ₚ e :: q.
Proof.
  induction q as [|x r IH]; simpl; [done|].
  destruct (cmp e x); [done|]. rewrite IH. apply Permutation_swap.
Qed.

Lemma Push_perm (e : E) (q : list E) : pq.Push cmp e q ≡ₚ e :: q.
Proof. apply insert_perm. Qed.

Lemma remove_perm (e : E) (q : list E) : e ∈ q → q ≡ₚ e :: pq.remove e q.
Proof.
  induction q as [|x r IH]; intros Hin.
  - by apply elem_of_nil in Hin.
  - simpl. destruct (decide (x = e)) as [->|Hne]; [done|].
    apply elem_of_cons in Hin as [->|Hin]; [done|].
    rewrite (Permutation_swap x e). f_equiv. by apply IH.
Qed.

Lemma Update_perm (e : E) (q : list E) : pq.Update cmp e q ≡ₚ q.
Proof.
  unfold pq.Update. destruct (decide (e ∈ q)) as [Hin|]; [|done].
  rewrite insert_perm. symmetry. by apply remove_perm.
Qed.

Lemma Pop_perm (q q' : list E) (t : E) :
  pq.Pop q = Some (t, q') → q ≡ₚ t :: q'.
Proof. destruct q as [|x r]; simpl; [done|]. by intros [= <- <-]. Qed.

Lemma Pop_None (q : list E) : pq.Pop q = None → q = [].
Proof. by destruct q. Qed.

End facts.

End pq_facts.

(** ** The request queue keeps its shape *)
Module prq_facts.

Import wantlist decision.

Lemma wf_core_same_queue h tm (ps : gmap string activePartner) p P1 P2 :
  taskQueue P2 ≡ₚ taskQueue P1 →
  wf_core h tm (<[p := P1]> ps) → wf_core h tm (<[p := P2]> ps).
Proof.
  intros Hq [Hqueue Hnd Hmap]. split.
  - intros q P l Hl Hin. destruct (decide (p = q)) as [->|Hne].
    + rewrite lookup_insert_eq in Hl. injection Hl as <-.
      apply (Hqueue q P1 l); [by rewrite lookup_insert_eq|by rewrite <- Hq].
    + rewrite lookup_insert_ne in Hl by done.
      apply (Hqueue q P l); [by rewrite lookup_insert_ne|done].
  - intros q P Hl. destruct (decide (p = q)) as [->|Hne].
    + rewrite lookup_insert_eq in Hl. injection Hl as <-. rewrite Hq.
      apply (Hnd q). by rewrite lookup_insert_eq.
    + rewrite lookup_insert_ne in Hl by done.
      apply (Hnd q). by rewrite lookup_insert_ne.
  - intros tk l Hl. destruct (Hmap tk l Hl) as (t & P & Ht & Hk & HP & Hin).
    destruct (decide (p = Target t)) as [->|Hne].
    + rewrite lookup_insert_eq in HP. injection HP as <-.
      exists t, P2. rewrite lookup_insert_eq, Hq. done.
    + rewrite lookup_insert_ne in HP by done.
      exists t, P. by rewrite lookup_insert_ne.
Qed.

Lemma wf_core_update h tm (ps : gmap string activePartner) p P1 P2 :
  ps !! p = Some P1 → taskQueue P2 ≡ₚ taskQueue P1 →
  wf_core h tm ps → wf_core h tm (<[p := P2]> ps).
Proof.
  intros Hp Hq Hwf. apply (wf_core_same_queue _ _ _ _ P1); [done|].
  by rewrite insert_id.
Qed.

Lemma wf_core_alter (f : peerRequestTask → peerRequestTask) h tm ps l :
  (∀ t, Target (f t) = Target t ∧ Key (Entry (f t)) = Key (Entry t)) →
  wf_core h tm ps → wf_core (alter f l h) tm ps.
Proof.
  intros Hf [Hqueue Hnd Hmap].
  assert (Hlook : ∀ l' t, h !! l' = Some t →
    ∃ t', alter f l h !! l' = Some t' ∧ Target t' = Target t
          ∧ task_Key t' = task_Key t).
  { intros l' t Ht. destruct (decide (l = l')) as [->|Hne].
    - exists (f t). rewrite lookup_alter_eq, Ht. simpl.
      destruct (Hf t) as [HT HK]. unfold task_Key. by rewrite HT, HK.
    - exists t. by rewrite lookup_alter_ne. }
  split; [|done|].
  - intros p P l' Hp Hin.
    destruct (Hqueue p P l' Hp Hin) as (t & Ht & HT & Hm).
    destruct (Hlook l' t Ht) as (t' & Ht' & HT' & HK').
    exists t'. rewrite HT', HK'. done.
  - intros tk l' Hl.
    destruct (Hmap tk l' Hl) as (t & P & Ht & HK & HP & Hin).
    destruct (Hlook l' t Ht) as (t' & Ht' & HT' & HK').
    exists t', P. rewrite HT', HK'. done.
Qed.

Lemma wf_core_new_partner h tm (ps : gmap string activePartner) p :
  ps !! p = None → wf_core h tm ps → wf_core h tm (<[p := newActivePartner]> ps).
Proof.
  intros Hp [Hqueue Hnd Hmap]. split.
  - intros q P l Hl Hin. destruct (decide (p = q)) as [->|Hne].
    + rewrite lookup_insert_eq in Hl. injection Hl as <-.
      by apply elem_of_nil in Hin.
    + rewrite lookup_insert_ne in Hl by done. eauto.
  - intros q P Hl. destruct (decide (p = q)) as [->|Hne].
    + rewrite lookup_insert_eq in Hl. injection Hl as <-. constructor.
    + rewrite lookup_insert_ne in Hl by done. eauto.
  - intros tk l Hl. destruct (Hmap tk l Hl) as (t & P & Ht & Hk & HP & Hin).
    exists t, P. rewrite lookup_insert_ne; [done|]. congruence.
Qed.

(** One round of the loop of [Pop]. *)
Lemma pop_one_wf h tm (ps : gmap string activePartner) p P l q' out :
  wf_core h tm ps → ps !! p = Some P → taskQueue P ≡ₚ l :: q' →
  h !! l = Some out →
  wf_core h (delete (task_Key out) tm) (<[p := set_taskQueue q' P]> ps).
Proof.
  intros [Hqueue Hnd Hmap] Hp Hperm Hout.
  assert (Hl : l ∈ taskQueue P) by (rewrite Hperm; apply list_elem_of_here).
  destruct (Hqueue p P l Hp Hl) as (t & Ht & HT & Hm).
  assert (t = out) as -> by congruence.
  pose proof (Hnd p P Hp) as Hnd'. rewrite Hperm in Hnd'.
  apply NoDup_cons in Hnd' as [Hnotin Hnd'].
  split.
  - intros q Q l' HQ Hin. destruct (decide (p = q)) as [->|Hne].
    + rewrite lookup_insert_eq in HQ. injection HQ as <-. simpl in Hin.
      assert (Hin' : l' ∈ taskQueue P)
        by (rewrite Hperm; by apply list_elem_of_further).
      destruct (Hqueue q P l' Hp Hin') as (t' & Ht' & HT' & Hm').
      exists t'. split_and!; [done..|].
      rewrite lookup_delete_ne; [done|]. intros Heq.
      rewrite <- Heq in Hm'. congruence.
    + rewrite lookup_insert_ne in HQ by done.
      destruct (Hqueue q Q l' HQ Hin) as (t' & Ht' & HT' & Hm').
      exists t'. split_and!; [done..|].
      rewrite lookup_delete_ne; [done|]. intros Heq.
      rewrite <- Heq in Hm'. congruence.
  - intros q Q HQ. destruct (decide (p = q)) as [->|Hne].
    + rewrite lookup_insert_eq in HQ. by injection HQ as <-.
    + rewrite lookup_insert_ne in HQ by done. eauto.
  - intros tk l' Hl'. apply lookup_delete_Some in Hl' as [Hne Hl'].
    destruct (Hmap tk l' Hl') as (t' & Q & Ht' & Hk' & HQ & Hin).
    destruct (decide (p = Target t')) as [Heq|Hne'].
    + exists t', (set_taskQueue q' P). rewrite <- Heq, lookup_insert_eq.
      split_and!; [done..|]. simpl.
      rewrite <- Heq in HQ. assert (Q = P) as -> by congruence.
      rewrite Hperm in Hin. apply elem_of_cons in Hin as [->|Hin]; [|done].
      congruence.
    + exists t', Q. by rewrite lookup_insert_ne.
Qed.

Lemma drain_wf n : ∀ h tm (ps : gmap string activePartner) p P out tm' P',
  wf_core h tm ps → ps !! p = Some P →
  drain n h tm P = Some (out, tm', P') →
  wf_core h tm' (<[p := P']> ps).
Proof.
  induction n as [|n IH]; intros h tm ps p P out tm' P' Hwf Hp Hd; simpl in Hd.
  { injection Hd as <- <- <-. by rewrite insert_id. }
  destruct (pq.Pop (taskQueue P)) as [[l q']|] eqn:Hpop.
  2: { injection Hd as <- <- <-. by rewrite insert_id. }
  apply pq_facts.Pop_perm in Hpop.
  destruct (h !! l) as [t|] eqn:Ht; simpl in Hd; [|done].
  pose proof (pop_one_wf _ _ _ _ _ _ _ _ Hwf Hp Hpop Ht) as Hwf1.
  destruct (trash t).
  - eapply IH in Hd; [|exact Hwf1|by rewrite lookup_insert_eq].
    by rewrite insert_insert_eq in Hd.
  - injection Hd as <- <- <-.
    eapply wf_core_same_queue; [|exact Hwf1]. done.
Qed.

(** What the loop of [Pop] does to the fields of the partner. *)
Lemma drain_fields n : ∀ h tm P out tm' P',
  drain n h tm P = Some (out, tm', P') →
  match out with
  | Some l => ∃ t, h !! l = Some t ∧ trash t = false ∧ l ∈ taskQueue P
      ∧ active P' = GoInt.add (active P) 1
      ∧ activeBlocks P' = {[Key (Entry t)]} ∪ activeBlocks P
      ∧ requests P' = GoInt.sub (requests P) 1
  | None => active P' = active P ∧ activeBlocks P' = activeBlocks P
      ∧ requests P' = requests P
  end.
Proof.
  induction n as [|n IH]; intros h tm P out tm' P' Hd; simpl in Hd.
  { by injection Hd as <- <- <-. }
  destruct (pq.Pop (taskQueue P)) as [[l q']|] eqn:Hpop.
  2: { by injection Hd as <- <- <-. }
  apply pq_facts.Pop_perm in Hpop.
  destruct (h !! l) as [t|] eqn:Ht; simpl in Hd; [|done].
  destruct (trash t) eqn:Htrash.
  - apply IH in Hd. destruct out as [l'|]; [|done].
    destruct Hd as (t' & ? & ? & Hin & ? & ? & ?). exists t'.
    split_and!; try done. simpl in Hin. rewrite Hpop.
    by apply list_elem_of_further.
  - injection Hd as <- <- <-. exists t. split_and!; try done.
    rewrite Hpop. apply list_elem_of_here.
Qed.

(** The fuel is enough: when the loop ends without a task, the queue of
    the partner is empty, as after [for partner.taskQueue.Len() > 0]. *)
Lemma drain_None_empties n : ∀ h tm P tm' P',
  (length (taskQueue P) ≤ n)%nat →
  drain n h tm P = Some (None, tm', P') → taskQueue P' = [].
Proof.
  induction n as [|n IH]; intros h tm P tm' P' Hlen Hd; simpl in Hd.
  { injection Hd as <- <-. destruct (taskQueue P); [done|simpl in Hlen; lia]. }
  destruct (pq.Pop (taskQueue P)) as [[l q']|] eqn:Hpop.
  2: { injection Hd as <- <-. by apply pq_facts.Pop_None in Hpop. }
  apply pq_facts.Pop_perm in Hpop.
  destruct (h !! l) as [t|] eqn:Ht; simpl in Hd; [|done].
  destruct (trash t); [|done].
  eapply IH; [|done]. simpl.
  apply Permutation_length in Hpop. simpl in Hpop. lia.
Qed.

Lemma drain_total n : ∀ h tm P,
  (∀ l, l ∈ taskQueue P → is_Some (h !! l)) → is_Some (drain n h tm P).
Proof.
  induction n as [|n IH]; intros h tm P Hall; simpl; [done|].
  destruct (pq.Pop (taskQueue P)) as [[l q']|] eqn:Hpop; [|done].
  apply pq_facts.Pop_perm in Hpop.
  destruct (Hall l) as [t Ht]; [rewrite Hpop; apply list_elem_of_here|].
  rewrite Ht. simpl. destruct (trash t); [|done].
  apply IH. intros l' Hin. apply Hall. rewrite Hpop.
  by apply list_elem_of_further.
Qed.

Lemma drain_all_trashed n : ∀ h tm P,
  (∀ l, l ∈ taskQueue P → ∃ t, h !! l = Some t ∧ trash t = true) →
  ∃ tm' P', drain n h tm P = Some (None, tm', P').
Proof.
  induction n as [|n IH]; intros h tm P Hall; simpl; [eauto|].
  destruct (pq.Pop (taskQueue P)) as [[l q']|] eqn:Hpop; [|eauto].
  apply pq_facts.Pop_perm in Hpop.
  destruct (Hall l) as (t & Ht & Htr); [rewrite Hpop; apply list_elem_of_here|].
  rewrite Ht. simpl. rewrite Htr.
  apply IH. intros l' Hin. apply Hall. rewrite Hpop.
  by apply list_elem_of_further.
Qed.

(** [Push] *)
Lemma is_Some_insert_existing (ps : gmap string activePartner) p P P' :
  ps !! p = Some P → ∀ q, is_Some (<[p := P']> ps !! q) ↔ is_Some (ps !! q).
Proof.
  intros Hp q. destruct (decide (p = q)) as [->|Hne].
  - rewrite lookup_insert_eq, Hp. split; eauto.
  - by rewrite lookup_insert_ne.
Qed.

Lemma Push_partner_spec tl to :
  ∃ partner pQ ps,
    Push_partner tl to = (partner, pQ, ps)
    ∧ ps !! to = Some partner
    ∧ (partners tl !! to = Some partner ∧ pQ = pQueue tl ∧ ps = partners tl
       ∨ partners tl !! to = None ∧ partner = newActivePartner
         ∧ pQ ≡ₚ to :: pQueue tl
         ∧ ps = <[to := newActivePartner]> (partners tl)).
Proof.
  unfold Push_partner. destruct (partners tl !! to) as [partner|] eqn:Hto.
  - eexists _, _, _. split; [done|]. split; [done|]. by left.
  - eexists _, _, _. split; [done|]. split; [by rewrite lookup_insert_eq|].
    right. split_and!; try done. apply pq_facts.Push_perm.
Qed.

Lemma Push_partner_wf tl to partner pQ ps :
  wf tl → Push_partner tl to = (partner, pQ, ps) →
  ps !! to = Some partner
  ∧ wf_core (heap tl) (taskMap tl) ps
  ∧ (∀ p, p ∈ pQ ↔ is_Some (ps !! p)) ∧ NoDup pQ
  ∧ (∀ q Q l, ps !! q = Some Q → l ∈ taskQueue Q → partners tl !! q = Some Q).
Proof.
  intros [Hcore HpQ Hnd Hnext] Heq.
  destruct (Push_partner_spec tl to)
    as (partner0 & pQ0 & ps0 & Heq0 & Hto & Hcase).
  rewrite Heq in Heq0. injection Heq0 as <- <- <-.
  split; [done|].
  destruct Hcase as [(Hp & -> & ->)|(Hp & -> & HpQ' & ->)]; [done|].
  split_and!.
  - by apply wf_core_new_partner.
  - intros p. rewrite HpQ', elem_of_cons, HpQ.
    destruct (decide (to = p)) as [->|Hne].
    + rewrite lookup_insert_eq. split; [eauto|by left].
    + rewrite lookup_insert_ne by done.
      split; [intros [?|?]; [congruence|done]|by right].
  - rewrite HpQ'. apply NoDup_cons. split; [|done].
    intros [? ?]%HpQ. congruence.
  - intros q Q l HQ Hin. destruct (decide (to = q)) as [->|Hne].
    + rewrite lookup_insert_eq in HQ. injection HQ as <-.
      by apply elem_of_nil in Hin.
    + by rewrite lookup_insert_ne in HQ.
Qed.

(** Filing a new task. *)
Lemma wf_core_new_task h tm (ps : gmap string activePartner) to partner P' l task :
  wf_core h tm ps → ps !! to = Some partner →
  h !! l = None → tm !! task_Key task = None → Target task = to →
  taskQueue P' ≡ₚ l :: taskQueue partner →
  wf_core (<[l := task]> h) (<[task_Key task := l]> tm) (<[to := P']> ps).
Proof.
  intros [Hqueue Hndq Hmap] Hto Hfresh Hm HT Hperm. split.
  - intros q Q l' HQ Hin. destruct (decide (to = q)) as [->|Hne].
    + rewrite lookup_insert_eq in HQ. injection HQ as <-.
      rewrite Hperm in Hin. apply elem_of_cons in Hin as [->|Hin].
      * exists task. rewrite !lookup_insert_eq. done.
      * destruct (Hqueue q partner l' Hto Hin) as (t & Ht & HT' & Hmt).
        exists t. split_and!; [|done|].
        -- rewrite lookup_insert_ne; [done|]. congruence.
        -- rewrite lookup_insert_ne; [done|]. congruence.
    + rewrite lookup_insert_ne in HQ by done.
      destruct (Hqueue q Q l' HQ Hin) as (t & Ht & HT' & Hmt).
      exists t. split_and!; [|done|].
      * rewrite lookup_insert_ne; [done|]. congruence.
      * rewrite lookup_insert_ne; [done|]. congruence.
  - intros q Q HQ. destruct (decide (to = q)) as [->|Hne].
    + rewrite lookup_insert_eq in HQ. injection HQ as <-. rewrite Hperm.
      apply NoDup_cons. split; [|by eapply Hndq].
      intros Hin. destruct (Hqueue q partner _ Hto Hin) as (t & Ht & _).
      congruence.
    + rewrite lookup_insert_ne in HQ by done. eauto.
  - intros tk l' Hl. destruct (decide (task_Key task = tk)) as [<-|Hne].
    + rewrite lookup_insert_eq in Hl. injection Hl as <-.
      exists task, P'. rewrite HT, !lookup_insert_eq.
      split_and!; [done..|]. rewrite Hperm. apply list_elem_of_here.
    + rewrite lookup_insert_ne in Hl by done.
      destruct (Hmap tk l' Hl) as (t & Q & Ht & Hk & HQ & Hin).
      assert (l ≠ l') by congruence.
      destruct (decide (to = Target t)) as [Heq|Hne'].
      * exists t, P'. rewrite lookup_insert_ne by done. rewrite <- Heq.
        rewrite lookup_insert_eq. split_and!; [done..|].
        rewrite <- Heq in HQ. assert (Q = partner) as -> by congruence.
        rewrite Hperm. by apply list_elem_of_further.
      * exists t, Q. rewrite !lookup_insert_ne by done. done.
Qed.

Lemma Push_task_wf tl entry to now partner pQ ps :
  wf tl → Push_partner tl to = (partner, pQ, ps) →
  wf (Push_task tl entry to now partner pQ ps).
Proof.
  intros Hwf Heq.
  destruct (Push_partner_wf _ _ _ _ _ Hwf Heq) as (Hto & Hcore & HpQ & Hnd & _).
  pose proof (wf_next _ Hwf) as Hnext.
  unfold Push_task.
  destruct (taskMap tl !! taskKey to (Key entry)) as [l|] eqn:Hm.
  { split; simpl.
    - apply wf_core_alter; [by intros t|].
      eapply wf_core_update; [done| |done]. simpl. apply pq_facts.Update_perm.
    - intros q. by rewrite (is_Some_insert_existing _ _ _ _ Hto).
    - done.
    - intros l' [t Hl']. apply Hnext.
      destruct (decide (l = l')) as [->|Hne].
      + rewrite lookup_alter_eq in Hl'. destruct (heap tl !! l'); [eauto|done].
      + rewrite lookup_alter_ne in Hl' by done. eauto. }
  destruct (decide (Key entry ∈ activeBlocks partner)) as [Hact|Hact].
  { by split. }
  assert (Hfresh : heap tl !! next tl = None).
  { destruct (heap tl !! next tl) eqn:Hh; [|done].
    assert (next tl < next tl)%nat by (apply Hnext; eauto). lia. }
  split; simpl.
  - eapply (wf_core_new_task _ _ _ to partner); [done..|]. simpl.
    apply pq_facts.Push_perm.
  - intros q. rewrite pq_facts.Update_perm.
    by rewrite (is_Some_insert_existing _ _ _ _ Hto).
  - by rewrite pq_facts.Update_perm.
  - intros l [t Hl]. destruct (decide (next tl = l)) as [<-|Hne]; [lia|].
    rewrite lookup_insert_ne in Hl by done.
    assert (l < next tl)%nat by (apply Hnext; eauto). lia.
Qed.

Lemma Push_wf tl entry to now : wf tl → wf (Push tl entry to now).
Proof.
  intros Hwf. unfold Push.
  destruct (Push_partner tl to) as [[partner pQ] ps] eqn:Heq.
  by apply Push_task_wf.
Qed.

(** The three ways through [Push], with the orders of the two queues left
    open. *)
Lemma Push_cases tl entry to now :
  ∃ partner pQ ps,
    Push_partner tl to = (partner, pQ, ps)
    ∧ ((∃ l q', taskMap tl !! taskKey to (Key entry) = Some l
          ∧ q' ≡ₚ taskQueue partner
          ∧ Push tl entry to now =
              {| pQueue := pQ; taskMap := taskMap tl;
                 partners := <[to := set_taskQueue q' partner]> ps;
                 heap := alter (set_Priority (Priority entry)) l (heap tl);
                 next := next tl |})
       ∨ (taskMap tl !! taskKey to (Key entry) = None
          ∧ Key entry ∈ activeBlocks partner
          ∧ Push tl entry to now =
              {| pQueue := pQ; taskMap := taskMap tl; partners := ps;
                 heap := heap tl; next := next tl |})
       ∨ (∃ q' pQ', taskMap tl !! taskKey to (Key entry) = None
          ∧ (Key entry ∉ activeBlocks partner)
          ∧ q' ≡ₚ next tl :: taskQueue partner
          ∧ pQ' ≡ₚ pQ
          ∧ Push tl entry to now =
              {| pQueue := pQ';
                 taskMap := <[taskKey to (Key entry) := next tl]> (taskMap tl);
                 partners :=
                   <[to := set_requests (GoInt.add (requests partner) 1)
                             (set_taskQueue q' partner)]> ps;
                 heap := <[next tl := {| Entry := entry; Target := to;
                                         trash := false; created := now |}]>
                           (heap tl);
                 next := S (next tl) |})).
Proof.
  unfold Push. destruct (Push_partner tl to) as [[partner pQ] ps] eqn:Heq.
  exists partner, pQ, ps. split; [done|]. unfold Push_task.
  destruct (taskMap tl !! taskKey to (Key entry)) as [l|] eqn:Hm.
  { left. eexists l, _. split; [done|]. split; [|done].
    apply pq_facts.Update_perm. }
  destruct (decide (Key entry ∈ activeBlocks partner)) as [Hact|Hact].
  { right. left. done. }
  right. right. eexists _, _. split_and!; [done|done| | |done].
  - apply pq_facts.Push_perm.
  - apply pq_facts.Update_perm.
Qed.

(** [Pop] *)
Lemma Pop_wf tl out tl' : wf tl → Pop tl = Some (out, tl') → wf tl'.
Proof.
  intros [Hcore HpQ Hnd Hnext]. unfold Pop.
  destruct (pq.Pop (pQueue tl)) as [[p pQ]|] eqn:Hpop.
  2: { intros [= <- <-]. by split. }
  apply pq_facts.Pop_perm in Hpop.
  destruct (partners tl !! p) as [partner|] eqn:Hp; simpl; [|done].
  destruct (drain _ _ _ partner) as [[[o tm] partner']|] eqn:Hd; simpl; [|done].
  intros [= <- <-]. split; simpl.
  - by eapply drain_wf.
  - intros q. rewrite (is_Some_insert_existing _ _ _ _ Hp), <- HpQ.
    by rewrite pq_facts.Push_perm, Hpop.
  - by rewrite pq_facts.Push_perm, <- Hpop.
  - done.
Qed.

Lemma Pop_total tl : wf tl → is_Some (Pop tl).
Proof.
  intros [Hcore HpQ Hnd Hnext]. unfold Pop.
  destruct (pq.Pop (pQueue tl)) as [[p pQ]|] eqn:Hpop; [|done].
  apply pq_facts.Pop_perm in Hpop.
  destruct (HpQ p) as [[partner Hp] _].
  { rewrite Hpop. apply list_elem_of_here. }
  rewrite Hp. simpl.
  destruct (drain_total (pq.Len (taskQueue partner)) (heap tl) (taskMap tl) partner)
    as [[[o tm] partner'] ->]; [|done].
  intros l Hin. destruct (wf_queue _ _ _ Hcore p partner l Hp Hin) as (t & Ht & _).
  eauto.
Qed.

(** [Remove] *)
Lemma Remove_wf tl k p tl' : wf tl → Remove tl k p = Some tl' → wf tl'.
Proof.
  intros [Hcore HpQ Hnd Hnext]. unfold Remove.
  destruct (taskMap tl !! taskKey p k) as [l|]; [|by intros [= <-]].
  destruct (partners tl !! p) as [partner|] eqn:Hp; simpl; [|done].
  intros [= <-]. split; simpl.
  - apply wf_core_alter; [by intros t|].
    by eapply wf_core_update.
  - intros q. by rewrite (is_Some_insert_existing _ _ _ _ Hp).
  - done.
  - intros l' [t Hl']. apply Hnext.
    destruct (decide (l = l')) as [->|Hne].
    + rewrite lookup_alter_eq in Hl'. destruct (heap tl !! l'); [eauto|done].
    + rewrite lookup_alter_ne in Hl' by done. eauto.
Qed.

(** Why [Remove] can fail: [taskKey] concatenates, so the key bc of peer a
    is filed like the key c of a peer ab that has no partner. *)
Example Remove_without_partner :
  Remove (Push newPRQ {| Key := "bc"; Priority := 1 |} "a" 0) "c" "ab" = None.
Proof. reflexivity. Qed.

(** The [Done] closure *)
Lemma Done_wf tl to k tl' : wf tl → Done tl to k = Some tl' → wf tl'.
Proof.
  intros [Hcore HpQ Hnd Hnext]. unfold Done.
  destruct (partners tl !! to) as [partner|] eqn:Hp; simpl; [|done].
  destruct (TaskDone partner k) as [partner'|] eqn:Hd; simpl; [|done].
  intros [= <-]. unfold TaskDone in Hd.
  destruct (GoInt.sub (active partner) 1 <? 0); [done|]. injection Hd as <-.
  split; simpl.
  - by eapply wf_core_update.
  - intros q. rewrite pq_facts.Update_perm.
    by rewrite (is_Some_insert_existing _ _ _ _ Hp).
  - by rewrite pq_facts.Update_perm.
  - done.
Qed.

Lemma step_wf tl o out tl' : wf tl → step tl o = Some (out, tl') → wf tl'.
Proof.
  intros Hwf. destruct o as [entry to now| |k p|to k]; simpl.
  - intros [= <- <-]. by apply Push_wf.
  - by apply Pop_wf.
  - destruct (Remove tl k p) eqn:Hr; simpl; [|done]. intros [= <- <-].
    by eapply Remove_wf.
  - destruct (Done tl to k) eqn:Hr; simpl; [|done]. intros [= <- <-].
    by eapply Done_wf.
Qed.

Lemma newPRQ_wf : wf newPRQ.
Proof.
  split; simpl.
  - split; intros *; by rewrite lookup_empty.
  - intros p. rewrite lookup_empty, elem_of_nil. split; [done|by intros [? ?]].
  - constructor.
  - intros l. rewrite lookup_empty. by intros [? ?].
Qed.

Lemma exec_wf ops : ∀ tl outs tl',
  wf tl → exec ops tl = Some (outs, tl') → wf tl'.
Proof.
  induction ops as [|o ops IH]; intros tl outs tl' Hwf; simpl.
  { by intros [= <- <-]. }
  destruct (step tl o) as [[out tl1]|] eqn:Hs; simpl; [|done].
  destruct (exec ops tl1) as [[outs' tl2]|] eqn:He; simpl; [|done].
  intros [= <- <-]. eapply IH; [|done]. by eapply step_wf.
Qed.

Lemma run_wf ops tl tl' : wf tl → run ops tl = Some tl' → wf tl'.
Proof.
  unfold run. intros Hwf. destruct (exec ops tl) as [[outs tl1]|] eqn:He; [|done].
  intros [= <-]. by eapply exec_wf.
Qed.

(** The counters stay clear of the ends of [int]. *)
Lemma wrap_id z : GoInt.minInt ≤ z ≤ GoInt.maxInt → GoInt.wrap z = z.
Proof.
  unfold GoInt.minInt, GoInt.maxInt, GoInt.wrap. intros Hz.
  rewrite Z.mod_small; lia.
Qed.

Lemma bounded_insert n (ps : gmap string activePartner) p P' :
  0 ≤ n → bounded n ps → in_bounds (n + 1) P' →
  bounded (n + 1) (<[p := P']> ps).
Proof.
  intros Hn Hb HP q Q. destruct (decide (p = q)) as [->|Hne].
  - rewrite lookup_insert_eq. by intros [= <-].
  - rewrite lookup_insert_ne by done. intros HQ.
    destruct (Hb q Q HQ) as [? ?]. unfold in_bounds. lia.
Qed.

Lemma bounded_succ n (ps : gmap string activePartner) :
  0 ≤ n → bounded n ps → bounded (n + 1) ps.
Proof.
  intros Hn Hb q Q HQ. destruct (Hb q Q HQ) as [? ?]. unfold in_bounds. lia.
Qed.

Lemma Push_bounded n tl entry to now :
  0 ≤ n < GoInt.maxInt → bounded n (partners tl) →
  bounded (n + 1) (partners (Push tl entry to now)).
Proof.
  intros Hn Hb.
  destruct (Push_cases tl entry to now) as (partner & pQ & ps & Heq & Hcase).
  destruct (Push_partner_spec tl to)
    as (partner0 & pQ0 & ps0 & Heq0 & Hto & Hspec).
  rewrite Heq in Heq0. injection Heq0 as <- <- <-.
  assert (Hps : bounded n ps ∧ in_bounds n partner).
  { destruct Hspec as [(Hp & _ & ->)|(Hp & -> & _ & ->)].
    - split; [done|by eapply Hb].
    - assert (in_bounds n newActivePartner) by (unfold in_bounds; simpl; lia).
      split; [|done]. intros q Q. destruct (decide (to = q)) as [->|Hne].
      + rewrite lookup_insert_eq. by intros [= <-].
      + rewrite lookup_insert_ne by done. apply Hb. }
  destruct Hps as [Hps [Hr Ha]].
  destruct Hcase as [(l & q' & _ & _ & ->)|[(_ & _ & ->)|(q' & pQ' & _ & _ & _ & _ & ->)]];
    simpl.
  - apply bounded_insert; [lia|done|]. unfold in_bounds. simpl. lia.
  - apply bounded_succ; [lia|done].
  - apply bounded_insert; [lia|done|]. unfold in_bounds. simpl.
    unfold GoInt.add. unfold GoInt.maxInt in Hn.
    rewrite wrap_id; unfold GoInt.minInt, GoInt.maxInt; lia.
Qed.

Lemma Pop_bounded n tl out tl' :
  0 ≤ n < GoInt.maxInt → bounded n (partners tl) →
  Pop tl = Some (out, tl') → bounded (n + 1) (partners tl').
Proof.
  intros Hn Hb. unfold Pop.
  destruct (pq.Pop (pQueue tl)) as [[p pQ]|] eqn:Hpop.
  2: { intros [= <- <-]. apply bounded_succ; [lia|done]. }
  destruct (partners tl !! p) as [partner|] eqn:Hp; simpl; [|done].
  destruct (drain _ _ _ partner) as [[[o tm] partner']|] eqn:Hd; simpl; [|done].
  intros [= <- <-]. simpl. apply bounded_insert; [lia|done|].
  destruct (Hb p partner Hp) as [Hr Ha]. apply drain_fields in Hd.
  unfold GoInt.maxInt in Hn. unfold in_bounds.
  destruct o as [l|].
  - destruct Hd as (t & _ & _ & _ & -> & _ & ->). unfold GoInt.add, GoInt.sub.
    rewrite !wrap_id; unfold GoInt.minInt, GoInt.maxInt; lia.
  - destruct Hd as (-> & _ & ->). lia.
Qed.

Lemma Remove_bounded n tl k p tl' :
  0 ≤ n < GoInt.maxInt → bounded n (partners tl) →
  Remove tl k p = Some tl' → bounded (n + 1) (partners tl').
Proof.
  intros Hn Hb. unfold Remove.
  destruct (taskMap tl !! taskKey p k) as [l|].
  2: { intros [= <-]. apply bounded_succ; [lia|done]. }
  destruct (partners tl !! p) as [partner|] eqn:Hp; simpl; [|done].
  intros [= <-]. simpl. apply bounded_insert; [lia|done|].
  destruct (Hb p partner Hp) as [Hr Ha]. unfold in_bounds. simpl.
  unfold GoInt.sub. unfold GoInt.maxInt in Hn.
  rewrite wrap_id; unfold GoInt.minInt, GoInt.maxInt; lia.
Qed.

Lemma TaskDone_Some P k P' :
  0 ≤ active P ≤ GoInt.maxInt → TaskDone P k = Some P' →
  0 < active P ∧ active P' = active P - 1
  ∧ activeBlocks P' = activeBlocks P ∖ {[k]}
  ∧ requests P' = requests P ∧ taskQueue P' = taskQueue P.
Proof.
  intros Ha. unfold TaskDone, GoInt.sub.
  rewrite wrap_id by (unfold GoInt.minInt, GoInt.maxInt in *; lia).
  destruct (active P - 1 <? 0) eqn:Hlt; [done|]. intros [= <-]. simpl.
  apply Z.ltb_ge in Hlt. split_and!; [lia|done..].
Qed.

Lemma Done_bounded n tl to k tl' :
  0 ≤ n < GoInt.maxInt → bounded n (partners tl) →
  Done tl to k = Some tl' → bounded (n + 1) (partners tl').
Proof.
  intros Hn Hb. unfold Done.
  destruct (partners tl !! to) as [partner|] eqn:Hp; simpl; [|done].
  destruct (TaskDone partner k) as [partner'|] eqn:Hd; simpl; [|done].
  intros [= <-]. simpl. apply bounded_insert; [lia|done|].
  destruct (Hb to partner Hp) as [Hr Ha].
  apply TaskDone_Some in Hd as (? & Ha' & _ & Hr' & _); [|lia].
  unfold in_bounds. rewrite Ha', Hr'. lia.
Qed.

Lemma step_bounded n tl o out tl' :
  0 ≤ n < GoInt.maxInt → bounded n (partners tl) →
  step tl o = Some (out, tl') → bounded (n + 1) (partners tl').
Proof.
  intros Hn Hb. destruct o as [entry to now| |k p|to k]; simpl.
  - intros [= <- <-]. by apply Push_bounded.
  - by apply Pop_bounded.
  - destruct (Remove tl k p) eqn:Hr; simpl; [|done]. intros [= <- <-].
    by eapply Remove_bounded.
  - destruct (Done tl to k) eqn:Hr; simpl; [|done]. intros [= <- <-].
    by eapply Done_bounded.
Qed.

Lemma exec_bounded ops : ∀ n tl outs tl',
  0 ≤ n → n + Z.of_nat (length ops) ≤ GoInt.maxInt →
  bounded n (partners tl) → exec ops tl = Some (outs, tl') →
  bounded (n + Z.of_nat (length ops)) (partners tl').
Proof.
  induction ops as [|o ops IH]; intros n tl outs tl' Hn Hlen Hb; simpl.
  { intros [= <- <-]. by rewrite Z.add_0_r. }
  destruct (step tl o) as [[out tl1]|] eqn:Hs; simpl; [|done].
  destruct (exec ops tl1) as [[outs' tl2]|] eqn:He; simpl; [|done].
  intros [= <- <-]. simpl length in Hlen.
  replace (n + Z.of_nat (S (length ops))) with (n + 1 + Z.of_nat (length ops))
    by lia.
  eapply IH; [lia|lia| |done]. eapply step_bounded; [lia|done..].
Qed.

Lemma run_bounded ops tl' :
  Z.of_nat (length ops) ≤ GoInt.maxInt → run ops newPRQ = Some tl' →
  bounded (Z.of_nat (length ops)) (partners tl').
Proof.
  unfold run. intros Hlen.
  destruct (exec ops newPRQ) as [[outs tl1]|] eqn:He; [|done].
  intros [= <-]. eapply (exec_bounded ops 0) in He; [done|lia|lia|].
  intros p P. simpl. by rewrite lookup_empty.
Qed.

(** The queued tasks, counted. *)
Lemma elem_of_scheduled tl l :
  l ∈ scheduled tl ↔ ∃ p P, partners tl !! p = Some P ∧ l ∈ taskQueue P.
Proof.
  unfold scheduled. rewrite list_elem_of_join. split.
  - intros (q & Hl & Hq). apply list_elem_of_fmap in Hq as ([p P] & -> & HP).
    apply elem_of_map_to_list in HP. eauto.
  - intros (p & P & HP & Hl). exists (taskQueue P). split; [done|].
    apply list_elem_of_fmap. exists (p, P). split; [done|].
    by apply elem_of_map_to_list.
Qed.

Lemma NoDup_join_queues (kl : list (string * activePartner)) :
  NoDup (kl.*1) →
  (∀ p P, (p, P) ∈ kl → NoDup (taskQueue P)) →
  (∀ p1 P1 p2 P2 l, (p1, P1) ∈ kl → (p2, P2) ∈ kl →
     l ∈ taskQueue P1 → l ∈ taskQueue P2 → p1 = p2) →
  NoDup (mjoin ((λ kv, taskQueue (snd kv)) <$> kl)).
Proof.
  induction kl as [|[p P] kl IH]; intros Hk Hq Hdis; simpl; [constructor|].
  simpl in Hk. apply NoDup_cons in Hk as [Hp Hk].
  apply NoDup_app. split_and!.
  - apply (Hq p). apply list_elem_of_here.
  - intros l Hl Hl'. apply list_elem_of_join in Hl' as (q & Hlq & Hq').
    apply list_elem_of_fmap in Hq' as ([p' P'] & -> & HP'). simpl in Hlq.
    assert (p = p') as <-.
    { apply (Hdis p P p' P' l); [apply list_elem_of_here| |done..].
      by apply list_elem_of_further. }
    apply Hp. apply list_elem_of_fmap. by exists (p, P').
  - apply IH; [done|..].
    + intros q Q HQ. apply (Hq q). by apply list_elem_of_further.
    + intros p1 P1 p2 P2 l H1 H2. apply Hdis; by apply list_elem_of_further.
Qed.

Lemma NoDup_scheduled tl : wf tl → NoDup (scheduled tl).
Proof.
  intros [[Hqueue Hnd Hmap] _ _ _]. apply NoDup_join_queues.
  - apply NoDup_fst_map_to_list.
  - intros p P HP%elem_of_map_to_list. eauto.
  - intros p1 P1 p2 P2 l H1%elem_of_map_to_list H2%elem_of_map_to_list Hl1 Hl2.
    destruct (Hqueue _ _ _ H1 Hl1) as (t1 & Ht1 & HT1 & _).
    destruct (Hqueue _ _ _ H2 Hl2) as (t2 & Ht2 & HT2 & _).
    congruence.
Qed.

Lemma elem_of_tasks_for tl p k l :
  l ∈ tasks_for tl p k ↔
  l ∈ scheduled tl ∧ ∃ t, heap tl !! l = Some t ∧ Target t = p ∧ Key (Entry t) = k.
Proof.
  unfold tasks_for. rewrite list_elem_of_filter. unfold is_task_for.
  split.
  - intros [Hf Hs]. split; [done|].
    destruct (heap tl !! l) as [t|]; [|done].
    apply bool_decide_eq_true in Hf. eauto.
  - intros [Hs (t & -> & HT & HK)]. split; [|done].
    by apply bool_decide_eq_true.
Qed.

Lemma tasks_for_in_taskMap tl p k l :
  wf tl → l ∈ tasks_for tl p k → taskMap tl !! taskKey p k = Some l.
Proof.
  intros Hwf [Hs (t & Ht & HT & HK)]%elem_of_tasks_for.
  apply elem_of_scheduled in Hs as (q & Q & HQ & Hl).
  destruct (wf_queue _ _ _ (wf_tasks _ Hwf) _ _ _ HQ Hl) as (t' & Ht' & _ & Hm).
  assert (t' = t) as -> by congruence.
  unfold task_Key in Hm. by rewrite HT, HK in Hm.
Qed.

Lemma length_le_1 {A} (l : list A) :
  NoDup l → (∀ x y, x ∈ l → y ∈ l → x = y) → (length l ≤ 1)%nat.
Proof.
  destruct l as [|x [|y l]]; simpl; [lia..|]. intros Hnd Heq.
  apply NoDup_cons in Hnd as [Hx _]. exfalso. apply Hx.
  rewrite (Heq x y); [apply list_elem_of_here|apply list_elem_of_here|].
  apply list_elem_of_further, list_elem_of_here.
Qed.

Lemma tasks_for_le_1 tl p k : wf tl → (length (tasks_for tl p k) ≤ 1)%nat.
Proof.
  intros Hwf. apply length_le_1.
  - unfold tasks_for. apply NoDup_filter. by apply NoDup_scheduled.
  - intros l1 l2 H1 H2.
    apply (tasks_for_in_taskMap _ _ _ _ Hwf) in H1, H2. congruence.
Qed.

(** The two early returns of [Push]. *)
Lemma Push_existing tl entry to now l P :
  partners tl !! to = Some P →
  taskMap tl !! taskKey to (Key entry) = Some l →
  Push tl entry to now =
    let h := alter (set_Priority (Priority entry)) l (heap tl) in
    {| pQueue := pQueue tl; taskMap := taskMap tl;
       partners :=
         <[to := set_taskQueue (pq.Update (taskCmp h) l (taskQueue P)) P]>
           (partners tl);
       heap := h; next := next tl |}.
Proof.
  intros HP Hm. unfold Push, Push_partner, Push_task. by rewrite HP, Hm.
Qed.

Lemma Push_active tl entry to now P :
  partners tl !! to = Some P → Key entry ∈ activeBlocks P →
  pQueue (Push tl entry to now) = pQueue tl
  ∧ taskMap (Push tl entry to now) = taskMap tl
  ∧ next (Push tl entry to now) = next tl
  ∧ (taskMap tl !! taskKey to (Key entry) = None → Push tl entry to now = tl)
  ∧ (∀ l, l ∈ scheduled (Push tl entry to now) ↔ l ∈ scheduled tl)
  ∧ ∃ P', partners (Push tl entry to now) = <[to := P']> (partners tl)
          ∧ requests P' = requests P ∧ taskQueue P' ≡ₚ taskQueue P.
Proof.
  intros HP Hact. unfold Push, Push_partner, Push_task. rewrite HP.
  destruct (taskMap tl !! taskKey to (Key entry)) as [l|] eqn:Hm; simpl.
  - split_and!; [done..| |].
    + intros l0. rewrite !elem_of_scheduled. simpl. split.
      * intros (q & Q & HQ & Hin). destruct (decide (to = q)) as [->|Hne].
        -- rewrite lookup_insert_eq in HQ. injection HQ as <-. simpl in Hin.
           rewrite pq_facts.Update_perm in Hin. eauto.
        -- rewrite lookup_insert_ne in HQ by done. eauto.
      * intros (q & Q & HQ & Hin). destruct (decide (to = q)) as [->|Hne].
        -- eexists q, _. rewrite lookup_insert_eq. split; [done|]. simpl.
           rewrite pq_facts.Update_perm. congruence.
        -- exists q, Q. by rewrite lookup_insert_ne.
    + eexists. split; [done|]. simpl. split; [done|].
      apply pq_facts.Update_perm.
  - rewrite decide_True by done. simpl.
    split_and!; [done..|by destruct tl|done|].
    exists P. by rewrite insert_id.
Qed.

(** What a [Pop] that yields a task has done. *)
Lemma Pop_yield tl l tl' :
  wf tl → Pop tl = Some (Some l, tl') →
  ∃ t P P' pQ,
    heap tl !! l = Some t ∧ trash t = false
    ∧ partners tl !! Target t = Some P ∧ l ∈ taskQueue P
    ∧ taskMap tl !! task_Key t = Some l
    ∧ pq.Pop (pQueue tl) = Some (Target t, pQ)
    ∧ partners tl' = <[Target t := P']> (partners tl)
    ∧ heap tl' = heap tl ∧ next tl' = next tl
    ∧ active P' = GoInt.add (active P) 1
    ∧ activeBlocks P' = {[Key (Entry t)]} ∪ activeBlocks P
    ∧ requests P' = GoInt.sub (requests P) 1.
Proof.
  intros Hwf. unfold Pop.
  destruct (pq.Pop (pQueue tl)) as [[p pQ]|] eqn:Hpop; [|done].
  destruct (partners tl !! p) as [partner|] eqn:Hp; simpl; [|done].
  destruct (drain _ _ _ partner) as [[[o tm] partner']|] eqn:Hd; simpl; [|done].
  intros [= -> <-]. simpl. apply drain_fields in Hd.
  destruct Hd as (t & Ht & Htr & Hin & Ha & Hb & Hr).
  destruct (wf_queue _ _ _ (wf_tasks _ Hwf) _ _ _ Hp Hin) as (t' & Ht' & HT & Hm).
  assert (t' = t) as -> by congruence. subst p.
  exists t, partner, partner', pQ. done.
Qed.

Lemma Pop_frame tl out tl' :
  Pop tl = Some (out, tl') →
  heap tl' = heap tl ∧ next tl' = next tl
  ∧ ∀ q Q, partners tl !! q = Some Q →
      ∃ Q', partners tl' !! q = Some Q' ∧ activeBlocks Q ⊆ activeBlocks Q'.
Proof.
  unfold Pop.
  destruct (pq.Pop (pQueue tl)) as [[p pQ]|] eqn:Hpop.
  2: { intros [= <- <-]. split_and!; [done..|]. intros q Q HQ. by exists Q. }
  destruct (partners tl !! p) as [partner|] eqn:Hp; simpl; [|done].
  destruct (drain _ _ _ partner) as [[[o tm] partner']|] eqn:Hd; simpl; [|done].
  intros [= <- <-]. simpl. split_and!; [done..|]. intros q Q HQ.
  destruct (decide (p = q)) as [->|Hne].
  - exists partner'. rewrite lookup_insert_eq. split; [done|].
    assert (Q = partner) as -> by congruence.
    apply drain_fields in Hd. destruct o as [l|].
    + destruct Hd as (t & _ & _ & _ & _ & -> & _). set_solver.
    + by destruct Hd as (_ & -> & _).
  - exists Q. by rewrite lookup_insert_ne.
Qed.

Lemma drain_taskMap n : ∀ h tm P out tm' P',
  drain n h tm P = Some (out, tm', P') →
  ∀ tk l, tm' !! tk = Some l → tm !! tk = Some l.
Proof.
  induction n as [|n IH]; intros h tm P out tm' P' Hd tk l0; simpl in Hd.
  { by injection Hd as <- <- <-. }
  destruct (pq.Pop (taskQueue P)) as [[l q']|] eqn:Hpop.
  2: { by injection Hd as <- <- <-. }
  destruct (h !! l) as [t|] eqn:Ht; simpl in Hd; [|done].
  destruct (trash t).
  - intros Hl. eapply IH in Hl; [|done].
    by apply lookup_delete_Some in Hl as [_ ?].
  - injection Hd as <- <- <-. intros Hl.
    by apply lookup_delete_Some in Hl as [_ ?].
Qed.

Lemma Pop_taskMap tl out tl' :
  Pop tl = Some (out, tl') →
  ∀ tk l, taskMap tl' !! tk = Some l → taskMap tl !! tk = Some l.
Proof.
  unfold Pop.
  destruct (pq.Pop (pQueue tl)) as [[p pQ]|] eqn:Hpop.
  2: { by intros [= <- <-]. }
  destruct (partners tl !! p) as [partner|] eqn:Hp; simpl; [|done].
  destruct (drain _ _ _ partner) as [[[o tm] partner']|] eqn:Hd; simpl; [|done].
  intros [= <- <-]. simpl. by eapply drain_taskMap.
Qed.

Lemma alter_same_task (f : peerRequestTask → peerRequestTask)
    (h : gmap nat peerRequestTask) l0 l t :
  (∀ x, same_task x (f x)) → h !! l = Some t →
  ∃ t', alter f l0 h !! l = Some t' ∧ same_task t t'.
Proof.
  intros Hf Ht. destruct (decide (l0 = l)) as [->|Hne].
  - exists (f t). by rewrite lookup_alter_eq, Ht.
  - exists t. rewrite lookup_alter_ne by done. done.
Qed.

Lemma step_heap_stable tl o out tl' l t :
  (l < next tl)%nat → heap tl !! l = Some t →
  step tl o = Some (out, tl') →
  (l < next tl')%nat ∧ ∃ t', heap tl' !! l = Some t' ∧ same_task t t'.
Proof.
  intros Hl Ht. destruct o as [entry to now| |k p|to k]; simpl.
  - intros [= <- <-].
    destruct (Push_cases tl entry to now) as (partner & pQ & ps & _ & Hcase).
    destruct Hcase as [(l0 & q' & _ & _ & ->)|[(_ & _ & ->)|(q' & pQ' & _ & _ & _ & _ & ->)]];
      simpl.
    + split; [done|]. by apply alter_same_task.
    + split; [done|]. by exists t.
    + split; [lia|]. exists t. rewrite lookup_insert_ne by lia. done.
  - intros Hp. apply Pop_frame in Hp as (-> & -> & _). split; [done|].
    by exists t.
  - unfold Remove. destruct (taskMap tl !! taskKey p k) as [l0|]; simpl.
    + destruct (partners tl !! p); simpl; [|done]. intros [= <- <-]. simpl.
      split; [done|]. by apply alter_same_task.
    + intros [= <- <-]. split; [done|]. by exists t.
  - unfold Done. destruct (partners tl !! to) as [P|]; simpl; [|done].
    destruct (TaskDone P k); simpl; [|done]. intros [= <- <-]. simpl.
    split; [done|]. by exists t.
Qed.

Lemma same_task_trans t1 t2 t3 :
  same_task t1 t2 → same_task t2 t3 → same_task t1 t3.
Proof.
  intros (? & ? & ?) (? & ? & ?). unfold same_task.
  split_and!; [congruence..|eauto].
Qed.

Lemma exec_heap_stable ops : ∀ tl outs tl' l t,
  (l < next tl)%nat → heap tl !! l = Some t →
  exec ops tl = Some (outs, tl') →
  (l < next tl')%nat ∧ ∃ t', heap tl' !! l = Some t' ∧ same_task t t'.
Proof.
  induction ops as [|o ops IH]; intros tl outs tl' l t Hl Ht; simpl.
  { intros [= <- <-]. split; [done|]. by exists t. }
  destruct (step tl o) as [[out tl1]|] eqn:Hs; simpl; [|done].
  destruct (exec ops tl1) as [[outs' tl2]|] eqn:He; simpl; [|done].
  intros [= <- <-].
  destruct (step_heap_stable _ _ _ _ _ _ Hl Ht Hs) as (Hl1 & t1 & Ht1 & Hs1).
  destruct (IH _ _ _ _ _ Hl1 Ht1 He) as (Hl2 & t2 & Ht2 & Hs2).
  split; [done|]. exists t2. split; [done|]. by eapply same_task_trans.
Qed.

(** A task yielded by [Pop] is not trashed. *)
Lemma step_yield_live tl o l tl' :
  step tl o = Some (Some l, tl') →
  ∃ t, heap tl !! l = Some t ∧ trash t = false.
Proof.
  destruct o as [entry to now| |k p|to k]; simpl; [done| |..].
  - unfold Pop.
    destruct (pq.Pop (pQueue tl)) as [[p pQ]|] eqn:Hpop; [|done].
    destruct (partners tl !! p) as [partner|] eqn:Hp; simpl; [|done].
    destruct (drain _ _ _ partner) as [[[o tm] partner']|] eqn:Hd; simpl; [|done].
    intros [= -> <-]. apply drain_fields in Hd.
    destruct Hd as (t & Ht & Htr & _). eauto.
  - destruct (Remove tl k p); simpl; done.
  - destruct (Done tl to k); simpl; done.
Qed.

Lemma exec_never_yields_trashed ops : ∀ tl outs tl' l t,
  (l < next tl)%nat → heap tl !! l = Some t → trash t = true →
  exec ops tl = Some (outs, tl') → l ∉ outs.
Proof.
  induction ops as [|o ops IH]; intros tl outs tl' l t Hl Ht Htr; simpl.
  { intros [= <- <-]. apply not_elem_of_nil. }
  destruct (step tl o) as [[out tl1]|] eqn:Hs; simpl; [|done].
  destruct (exec ops tl1) as [[outs' tl2]|] eqn:He; simpl; [|done].
  intros [= <- <-].
  destruct (step_heap_stable _ _ _ _ _ _ Hl Ht Hs) as (Hl1 & t1 & Ht1 & _ & _ & Htr1).
  specialize (IH _ _ _ _ _ Hl1 Ht1 (Htr1 Htr) He).
  rewrite not_elem_of_app. split; [|done].
  destruct out as [l'|]; simpl; [|apply not_elem_of_nil].
  intros ->%list_elem_of_singleton.
  apply step_yield_live in Hs as (t' & Ht' & Htr'). congruence.
Qed.

(** A key whose task is trashed yields nothing until it is pushed anew. *)
Lemma step_key_dead tl o out tl' tk :
  wf tl → key_dead tk tl → no_push tk [o] →
  step tl o = Some (out, tl') →
  key_dead tk tl'
  ∧ ∀ l, out = Some l → ∃ t, heap tl !! l = Some t ∧ task_Key t ≠ tk.
Proof.
  intros Hwf Hdead Hno%Forall_cons_1. destruct Hno as [Hno _].
  destruct o as [entry to now| |k p|to k]; simpl.
  - intros [= <- <-]. split; [|done].
    destruct (Push_cases tl entry to now) as (partner & pQ & ps & _ & Hcase).
    destruct Hcase as [(l0 & q' & _ & _ & ->)|[(_ & _ & ->)|(q' & pQ' & _ & _ & _ & _ & ->)]];
      intros l Hl; simpl in *.
    + destruct (Hdead l Hl) as (t & Ht & Htr).
      destruct (alter_same_task (set_Priority (Priority entry)) (heap tl) l0 l t)
        as (t' & Ht' & _ & _ & Htr'); [done|done|by eauto].
    + by apply Hdead.
    + rewrite lookup_insert_ne in Hl by done.
      destruct (Hdead l Hl) as (t & Ht & Htr).
      exists t. split; [|done]. rewrite lookup_insert_ne; [done|].
      intros <-. assert (next tl < next tl)%nat
        by (apply (wf_next _ Hwf); eauto). lia.
  - intros Hp. split.
    + intros l Hl. apply (Pop_taskMap _ _ _ Hp) in Hl.
      apply Pop_frame in Hp as (-> & _ & _). by apply Hdead.
    + intros l ->. apply Pop_yield in Hp as (t & P & P' & pQ & Ht & Htr & _ & _ & Hm & _);
        [|done].
      exists t. split; [done|]. intros Heq. rewrite Heq in Hm.
      destruct (Hdead l Hm) as (t' & Ht' & Htr'). congruence.
  - unfold Remove. destruct (taskMap tl !! taskKey p k) as [l0|]; simpl.
    + destruct (partners tl !! p); simpl; [|done]. intros [= <- <-].
      split; [|done]. intros l Hl. simpl in *.
      destruct (Hdead l Hl) as (t & Ht & Htr).
      destruct (alter_same_task set_trash (heap tl) l0 l t)
        as (t' & Ht' & _ & _ & Htr'); [done|done|by eauto].
    + intros [= <- <-]. done.
  - unfold Done. destruct (partners tl !! to) as [P|]; simpl; [|done].
    destruct (TaskDone P k); simpl; [|done]. intros [= <- <-]. done.
Qed.

Lemma exec_key_dead ops : ∀ tl outs tl' tk,
  wf tl → key_dead tk tl → no_push tk ops →
  exec ops tl = Some (outs, tl') →
  ∀ l, l ∈ outs → ∃ t, heap tl' !! l = Some t ∧ task_Key t ≠ tk.
Proof.
  induction ops as [|o ops IH]; intros tl outs tl' tk Hwf Hdead Hno; simpl.
  { intros [= <- <-] l Hl. by apply elem_of_nil in Hl. }
  destruct (step tl o) as [[out tl1]|] eqn:Hs; simpl; [|done].
  destruct (exec ops tl1) as [[outs' tl2]|] eqn:He; simpl; [|done].
  intros [= <- <-] l Hl.
  apply Forall_cons_1 in Hno as [Ho Hno].
  destruct (step_key_dead tl o out tl1 tk) as [Hdead1 Hout];
    [done|done|by apply Forall_singleton|done|].
  pose proof (step_wf _ _ _ _ Hwf Hs) as Hwf1.
  apply elem_of_app in Hl as [Hl|Hl]; [|by eapply IH].
  destruct out as [l'|]; simpl in Hl; [|by apply elem_of_nil in Hl].
  apply list_elem_of_singleton in Hl as ->.
  destruct (Hout l' eq_refl) as (t & Ht & Hk).
  assert (Hlt : (l' < next tl)%nat) by (apply (wf_next _ Hwf); eauto).
  destruct (step_heap_stable _ _ _ _ _ _ Hlt Ht Hs) as (Hl1 & t1 & Ht1 & HT1 & HK1 & _).
  destruct (exec_heap_stable _ _ _ _ _ _ Hl1 Ht1 He) as (_ & t2 & Ht2 & HT2 & HK2 & _).
  exists t2. split; [done|]. unfold task_Key in *. congruence.
Qed.

(** [Push] leaves the active sets alone. *)
Lemma Push_frame tl entry to now q Q :
  partners tl !! q = Some Q →
  ∃ Q', partners (Push tl entry to now) !! q = Some Q'
        ∧ activeBlocks Q' = activeBlocks Q ∧ active Q' = active Q.
Proof.
  intros HQ.
  destruct (Push_cases tl entry to now) as (partner & pQ & ps & Heq & Hcase).
  destruct (Push_partner_spec tl to)
    as (partner0 & pQ0 & ps0 & Heq0 & Hto & Hspec).
  rewrite Heq in Heq0. injection Heq0 as <- <- <-.
  assert (Hps : ps !! q = Some Q).
  { destruct Hspec as [(_ & _ & ->)|(Hnone & _ & _ & ->)]; [done|].
    rewrite lookup_insert_ne; [done|]. congruence. }
  destruct Hcase as [(l0 & q' & _ & _ & ->)|[(_ & _ & ->)|(q' & pQ' & _ & _ & _ & _ & ->)]];
    simpl; [|by exists Q|];
    (destruct (decide (to = q)) as [->|Hne];
     [rewrite lookup_insert_eq; eexists; split; [done|]; simpl;
      assert (partner = Q) as -> by congruence; done
     |rewrite lookup_insert_ne by done; by exists Q]).
Qed.

(** A key stays in a partner's active set until its [Done] closure fires. *)
Lemma step_keeps_active tl o out tl' p k P :
  o ≠ OpDone p k → partners tl !! p = Some P → k ∈ activeBlocks P →
  step tl o = Some (out, tl') →
  ∃ P', partners tl' !! p = Some P' ∧ k ∈ activeBlocks P'.
Proof.
  intros Ho HP Hk. destruct o as [entry to now| |k0 p0|to k0]; simpl.
  - intros [= <- <-].
    destruct (Push_frame tl entry to now p P HP) as (P' & HP' & Hact & _).
    exists P'. split; [done|]. by rewrite Hact.
  - intros Hp. apply Pop_frame in Hp as (_ & _ & Hp).
    destruct (Hp p P HP) as (P' & HP' & Hsub). exists P'. set_solver.
  - unfold Remove. destruct (taskMap tl !! taskKey p0 k0) as [l0|]; simpl.
    + destruct (partners tl !! p0) as [P0|] eqn:HP0; simpl; [|done].
      intros [= <- <-]. simpl.
      destruct (decide (p0 = p)) as [->|Hne].
      * rewrite lookup_insert_eq. eexists. split; [done|]. simpl. congruence.
      * rewrite lookup_insert_ne by done. by exists P.
    + intros [= <- <-]. by exists P.
  - unfold Done. destruct (partners tl !! to) as [P0|] eqn:HP0; simpl; [|done].
    destruct (TaskDone P0 k0) as [P0'|] eqn:Hd; simpl; [|done].
    intros [= <- <-]. simpl.
    destruct (decide (to = p)) as [->|Hne].
    + rewrite lookup_insert_eq. eexists. split; [done|].
      unfold TaskDone in Hd. destruct (_ <? 0); [done|]. injection Hd as <-.
      simpl. assert (P0 = P) as -> by congruence.
      assert (k0 ≠ k) by congruence. set_solver.
    + rewrite lookup_insert_ne by done. by exists P.
Qed.

Lemma exec_keeps_active ops : ∀ tl outs tl' p k P,
  no_done p k ops → partners tl !! p = Some P → k ∈ activeBlocks P →
  exec ops tl = Some (outs, tl') →
  ∃ P', partners tl' !! p = Some P' ∧ k ∈ activeBlocks P'.
Proof.
  induction ops as [|o ops IH]; intros tl outs tl' p k P Hno HP Hk; simpl.
  { intros [= <- <-]. by exists P. }
  destruct (step tl o) as [[out tl1]|] eqn:Hs; simpl; [|done].
  destruct (exec ops tl1) as [[outs' tl2]|] eqn:He; simpl; [|done].
  intros [= <- <-]. apply Forall_cons_1 in Hno as [Ho Hno].
  destruct (step_keeps_active _ _ _ _ _ _ _ Ho HP Hk Hs) as (P1 & HP1 & Hk1).
  by eapply IH.
Qed.

(** A key that is active for a partner has no task in its queue. *)
Lemma drain_yield_deleted n : ∀ h tm P l tm' P',
  drain n h tm P = Some (Some l, tm', P') →
  ∃ t, h !! l = Some t ∧ tm' !! task_Key t = None.
Proof.
  induction n as [|n IH]; intros h tm P l0 tm' P' Hd; simpl in Hd; [done|].
  destruct (pq.Pop (taskQueue P)) as [[l q']|] eqn:Hpop; [|done].
  destruct (h !! l) as [t|] eqn:Ht; simpl in Hd; [|done].
  destruct (trash t).
  - by eapply IH.
  - injection Hd as <- <- <-. exists t. by rewrite lookup_delete_eq.
Qed.

Lemma drain_queue_sub n : ∀ h tm P out tm' P' l,
  drain n h tm P = Some (out, tm', P') → l ∈ taskQueue P' → l ∈ taskQueue P.
Proof.
  induction n as [|n IH]; intros h tm P out tm' P' l0 Hd; simpl in Hd.
  { by injection Hd as <- <- <-. }
  destruct (pq.Pop (taskQueue P)) as [[l q']|] eqn:Hpop.
  2: { by injection Hd as <- <- <-. }
  apply pq_facts.Pop_perm in Hpop.
  destruct (h !! l) as [t|] eqn:Ht; simpl in Hd; [|done].
  destruct (trash t).
  - intros Hin. eapply IH in Hin; [|done]. simpl in Hin. rewrite Hpop.
    by apply list_elem_of_further.
  - injection Hd as <- <- <-. simpl. intros Hin. rewrite Hpop.
    by apply list_elem_of_further.
Qed.

Lemma alter_key_inv (f : peerRequestTask → peerRequestTask)
    (h : gmap nat peerRequestTask) l0 l t' :
  (∀ x, Key (Entry (f x)) = Key (Entry x)) → alter f l0 h !! l = Some t' →
  ∃ t, h !! l = Some t ∧ Key (Entry t') = Key (Entry t).
Proof.
  intros Hf. destruct (decide (l0 = l)) as [->|Hne].
  - rewrite lookup_alter_eq. destruct (h !! l) as [t|]; [|done].
    intros [= <-]. by exists t.
  - rewrite lookup_alter_ne by done. intros Ht. by exists t'.
Qed.

Lemma Push_active_not_queued tl entry to now :
  wf tl → active_not_queued tl → active_not_queued (Push tl entry to now).
Proof.
  intros Hwf Hanq.
  destruct (Push_cases tl entry to now) as (partner & pQ & ps & Heq & Hcase).
  destruct (Push_partner_wf _ _ _ _ _ Hwf Heq) as (Hto & _ & _ & _ & Hps).
  assert (Hfresh : ∀ q Q l, partners tl !! q = Some Q → l ∈ taskQueue Q →
            next tl ≠ l).
  { intros q Q l HQ Hin <-.
    destruct (wf_queue _ _ _ (wf_tasks _ Hwf) _ _ _ HQ Hin) as (t0 & Ht0 & _).
    assert (next tl < next tl)%nat by (apply (wf_next _ Hwf); eauto). lia. }
  destruct Hcase as [(l0 & q' & _ & Hq' & ->)|[(_ & _ & ->)|(q' & pQ' & _ & Hact & Hq' & _ & ->)]];
    intros q Q l t HQ Hin Ht; simpl in *.
  - apply alter_key_inv in Ht as (t0 & Ht0 & ->); [|done].
    destruct (decide (to = q)) as [->|Hne].
    + rewrite lookup_insert_eq in HQ. injection HQ as <-. simpl in *.
      rewrite Hq' in Hin. eapply Hanq; [by eapply Hps|done..].
    + rewrite lookup_insert_ne in HQ by done.
      eapply Hanq; [by eapply Hps|done..].
  - eapply Hanq; [by eapply Hps|done..].
  - destruct (decide (to = q)) as [->|Hne].
    + rewrite lookup_insert_eq in HQ. injection HQ as <-. simpl in *.
      rewrite Hq' in Hin. apply elem_of_cons in Hin as [->|Hin].
      * rewrite lookup_insert_eq in Ht. by injection Ht as <-.
      * assert (HP : partners tl !! q = Some partner) by (by eapply Hps).
        rewrite lookup_insert_ne in Ht by (by eapply Hfresh).
        by eapply Hanq.
    + rewrite lookup_insert_ne in HQ by done.
      assert (HP : partners tl !! q = Some Q) by (by eapply Hps).
      rewrite lookup_insert_ne in Ht by (by eapply Hfresh).
      by eapply Hanq.
Qed.

Lemma Pop_active_not_queued tl out tl' :
  wf tl → active_not_queued tl → Pop tl = Some (out, tl') →
  active_not_queued tl'.
Proof.
  intros Hwf Hanq Hpop. pose proof (Pop_wf _ _ _ Hwf Hpop) as Hwf'.
  revert Hpop. unfold Pop.
  destruct (pq.Pop (pQueue tl)) as [[p pQ]|] eqn:Hpq.
  2: { by intros [= <- <-]. }
  destruct (partners tl !! p) as [partner|] eqn:Hp; simpl; [|done].
  destruct (drain _ _ _ partner) as [[[o tm] partner']|] eqn:Hd; simpl; [|done].
  intros [= <- <-]. intros q Q l t HQ Hin Ht. simpl in *.
  destruct (decide (p = q)) as [->|Hne].
  2: { rewrite lookup_insert_ne in HQ by done. by eapply Hanq. }
  rewrite lookup_insert_eq in HQ. injection HQ as <-.
  pose proof (drain_queue_sub _ _ _ _ _ _ _ _ Hd Hin) as Hin0.
  pose proof (Hanq _ _ _ _ Hp Hin0 Ht) as Hnot.
  pose proof (drain_fields _ _ _ _ _ _ _ Hd) as Hf.
  destruct o as [l0|].
  - destruct Hf as (t0 & Ht0 & _ & Hl0 & _ & Hact & _). rewrite Hact.
    apply not_elem_of_union. split; [|done].
    intros Hk%elem_of_singleton.
    destruct (drain_yield_deleted _ _ _ _ _ _ _ Hd) as (t0' & Ht0' & Hdel).
    assert (t0' = t0) as -> by congruence.
    destruct (wf_queue _ _ _ (wf_tasks _ Hwf) _ _ _ Hp Hl0) as (? & ? & HT0 & _).
    destruct (wf_queue _ _ _ (wf_tasks _ Hwf) _ _ _ Hp Hin0) as (? & ? & HT & _).
    assert (Heq : task_Key t = task_Key t0).
    { unfold task_Key. rewrite Hk. f_equal. congruence. }
    destruct (wf_queue _ _ _ (wf_tasks _ Hwf') q partner' l) as (t' & Ht' & _ & Hm');
      [simpl; by rewrite lookup_insert_eq|done|].
    simpl in *. assert (t' = t) as -> by congruence.
    rewrite Heq in Hm'. congruence.
  - destruct Hf as (_ & -> & _). done.
Qed.

Lemma step_active_not_queued tl o out tl' :
  wf tl → active_not_queued tl → step tl o = Some (out, tl') →
  active_not_queued tl'.
Proof.
  intros Hwf Hanq. destruct o as [entry to now| |k p|to k]; simpl.
  - intros [= <- <-]. by apply Push_active_not_queued.
  - by apply Pop_active_not_queued.
  - unfold Remove. destruct (taskMap tl !! taskKey p k) as [l0|]; simpl.
    2: { by intros [= <- <-]. }
    destruct (partners tl !! p) as [P|] eqn:HP; simpl; [|done].
    intros [= <- <-]. intros q Q l t HQ Hin Ht. simpl in *.
    apply alter_key_inv in Ht as (t0 & Ht0 & ->); [|done].
    destruct (decide (p = q)) as [->|Hne].
    + rewrite lookup_insert_eq in HQ. injection HQ as <-. simpl in *.
      by eapply Hanq.
    + rewrite lookup_insert_ne in HQ by done. by eapply Hanq.
  - unfold Done. destruct (partners tl !! to) as [P|] eqn:HP; simpl; [|done].
    destruct (TaskDone P k) as [P'|] eqn:Hd; simpl; [|done].
    intros [= <- <-]. intros q Q l t HQ Hin Ht. simpl in *.
    destruct (decide (to = q)) as [->|Hne].
    + rewrite lookup_insert_eq in HQ. injection HQ as <-.
      unfold TaskDone in Hd. destruct (_ <? 0); [done|]. injection Hd as <-.
      simpl in *. apply not_elem_of_difference. left. by eapply Hanq.
    + rewrite lookup_insert_ne in HQ by done. by eapply Hanq.
Qed.

Lemma exec_active_not_queued ops : ∀ tl outs tl',
  wf tl → active_not_queued tl → exec ops tl = Some (outs, tl') →
  active_not_queued tl'.
Proof.
  induction ops as [|o ops IH]; intros tl outs tl' Hwf Hanq; simpl.
  { by intros [= <- <-]. }
  destruct (step tl o) as [[out tl1]|] eqn:Hs; simpl; [|done].
  destruct (exec ops tl1) as [[outs' tl2]|] eqn:He; simpl; [|done].
  intros [= <- <-]. eapply IH; [| |done].
  - by eapply step_wf.
  - by eapply step_active_not_queued.
Qed.

Lemma run_active_not_queued ops tl :
  run ops newPRQ = Some tl → active_not_queued tl.
Proof.
  unfold run. destruct (exec ops newPRQ) as [[outs tl1]|] eqn:He; [|done].
  intros [= <-]. eapply exec_active_not_queued; [apply newPRQ_wf| |done].
  intros p P l t HP. simpl in HP. by rewrite lookup_empty in HP.
Qed.

(** [partnerCompare] is a strict order on what it reads. *)
Lemma partnerCompare_irrefl P : partnerCompare P P = false.
Proof.
  unfold partnerCompare. destruct (decide (requests P = 0)); [done|].
  apply Z.ltb_irrefl.
Qed.

Lemma partnerCompare_trans P1 P2 P3 :
  partnerCompare P1 P2 = true → partnerCompare P2 P3 = true →
  partnerCompare P1 P3 = true.
Proof.
  unfold partnerCompare.
  destruct (decide (requests P1 = 0)); [done|].
  destruct (decide (requests P2 = 0)); [done|].
  destruct (decide (requests P3 = 0)); [done|].
  rewrite !Z.ltb_lt. lia.
Qed.

(** How [partnerCompare] ranks: a peer without pending requests outranks
    nobody and is outranked by every peer that has some; two peers with
    pending requests are ranked by the smaller active count. *)
Lemma partnerCompare_ranks :
  (∀ pa pb, requests pa = 0 → partnerCompare pa pb = false)
  ∧ (∀ pa pb, requests pa ≠ 0 → requests pb = 0 →
       partnerCompare pa pb = true)
  ∧ (∀ pa pb, requests pa ≠ 0 → requests pb ≠ 0 →
       partnerCompare pa pb = (active pa <? active pb)).
Proof.
  split_and!.
  - intros pa pb Ha. unfold partnerCompare. by rewrite decide_True.
  - intros pa pb Ha Hb. unfold partnerCompare.
    rewrite decide_False by done. by rewrite decide_True.
  - intros pa pb Ha Hb. unfold partnerCompare. by rewrite !decide_False.
Qed.

(** [Pop] yields nothing when no live task is queued. *)
Lemma Pop_none_when_all_trashed tl :
  wf tl →
  (∀ p P l, partners tl !! p = Some P → l ∈ taskQueue P →
     ∃ t, heap tl !! l = Some t ∧ trash t = true) →
  ∃ tl', Pop tl = Some (None, tl').
Proof.
  intros Hwf Hall. unfold Pop.
  destruct (pq.Pop (pQueue tl)) as [[p pQ]|] eqn:Hpop; [|eauto].
  apply pq_facts.Pop_perm in Hpop.
  destruct (proj1 (wf_pQueue _ Hwf p)) as [partner Hp].
  { rewrite Hpop. apply list_elem_of_here. }
  rewrite Hp. simpl.
  destruct (drain_all_trashed (pq.Len (taskQueue partner)) (heap tl)
              (taskMap tl) partner) as (tm' & P' & ->); [by eauto|].
  simpl. eauto.
Qed.

(** Sequences of calls on one partner. *)
Lemma partner_run_outstanding cs : ∀ P n,
  active P = Z.of_nat n →
  Z.of_nat n + Z.of_nat (length cs) ≤ GoInt.maxInt →
  match outstanding n cs with
  | Some m => ∃ P', partner_run cs P = Some P' ∧ active P' = Z.of_nat m
  | None => partner_run cs P = None
  end.
Proof.
  induction cs as [|[k|k] cs IH]; intros P n Ha Hlen; simpl.
  - by exists P.
  - apply IH; simpl in *.
    + unfold GoInt.add. rewrite wrap_id; [lia|].
      unfold GoInt.maxInt, GoInt.minInt in *. lia.
    + lia.
  - simpl in Hlen. unfold TaskDone, GoInt.sub.
    rewrite wrap_id by (unfold GoInt.maxInt, GoInt.minInt in *; lia).
    destruct n as [|m].
    + rewrite Ha. done.
    + destruct (active P - 1 <? 0) eqn:Hlt; [apply Z.ltb_lt in Hlt; lia|].
      simpl. apply IH; simpl; lia.
Qed.

End prq_facts.

(** ** The request queue: claims *)
Module prq_claims.

Import wantlist decision prq_facts.

(** C1: after every sequence of [Push], [Pop], [Remove] (and [Done]) calls
    on a new queue, at most one task is queued for any (peer, key), and
    none while the key is in the peer's active set; a [Push] for a (peer,
    key) that has a queued task only sets that task's priority in place
    (and has the task queue of the peer put it in its place), and a [Push]
    for a key in the peer's active set enqueues nothing. *)
Theorem at_most_one_task_per_peer_key (ops : list op) (tl : prq) :
  run ops newPRQ = Some tl →
  (∀ p k, (length (tasks_for tl p k) ≤ 1)%nat)
  ∧ (∀ p P k, partners tl !! p = Some P → k ∈ activeBlocks P →
       tasks_for tl p k = [])
  ∧ (∀ p l entry now, l ∈ tasks_for tl p (Key entry) →
       ∃ P, partners tl !! p = Some P
         ∧ Push tl entry p now =
             let h := alter (set_Priority (Priority entry)) l (heap tl) in
             {| pQueue := pQueue tl; taskMap := taskMap tl;
                partners :=
                  <[p := set_taskQueue
                           (pq.Update (taskCmp h) l (taskQueue P)) P]>
                    (partners tl);
                heap := h; next := next tl |})
  ∧ (∀ p P entry now, partners tl !! p = Some P →
       Key entry ∈ activeBlocks P →
       taskMap (Push tl entry p now) = taskMap tl
       ∧ next (Push tl entry p now) = next tl
       ∧ (∀ l, l ∈ scheduled (Push tl entry p now) ↔ l ∈ scheduled tl)
       ∧ (taskMap tl !! taskKey p (Key entry) = None →
          Push tl entry p now = tl)).
Proof.
  intros Hrun. pose proof (run_wf _ _ _ newPRQ_wf Hrun) as Hwf.
  split_and!.
  - intros p k. by apply tasks_for_le_1.
  - intros p P k HP Hk.
    destruct (tasks_for tl p k) as [|l ls] eqn:Hts; [done|]. exfalso.
    assert (Hl : l ∈ tasks_for tl p k) by (rewrite Hts; apply list_elem_of_here).
    apply elem_of_tasks_for in Hl as [Hs (t & Ht & HT & HK)].
    apply elem_of_scheduled in Hs as (q & Q & HQ & Hin).
    destruct (wf_queue _ _ _ (wf_tasks _ Hwf) _ _ _ HQ Hin) as (t' & Ht' & HT' & _).
    assert (q = p) as -> by congruence. assert (Q = P) as -> by congruence.
    apply (run_active_not_queued _ _ Hrun _ _ _ _ HP Hin Ht). by rewrite HK.
  - intros p l entry now Hl.
    pose proof (tasks_for_in_taskMap _ _ _ _ Hwf Hl) as Hm.
    apply elem_of_tasks_for in Hl as [Hs (t & Ht & HT & HK)].
    apply elem_of_scheduled in Hs as (q & Q & HQ & Hin).
    destruct (wf_queue _ _ _ (wf_tasks _ Hwf) _ _ _ HQ Hin) as (t' & Ht' & HT' & _).
    assert (q = p) as -> by congruence.
    exists Q. split; [done|]. by eapply Push_existing.
  - intros p P entry now HP Hact.
    destruct (Push_active tl entry p now P HP Hact)
      as (_ & Hm & Hn & Hsame & Hsched & _).
    done.
Qed.

Lemma at_most_one_task_per_peer_key_witness :
  run example_ops newPRQ = Some example_state
  ∧ ∀ p k, (length (tasks_for example_state p k) ≤ 1)%nat.
Proof.
  assert (H : run example_ops newPRQ = Some example_state)
    by (vm_compute; reflexivity).
  exact (conj H (proj1 (at_most_one_task_per_peer_key _ _ H))).
Defined.

(** C2 fails on the queue as it is driven here: [Remove] lowers the
    pending count of a peer and does not call [tl.pQueue.Update], as
    [Push] and the [Done] closure do after they change the rank of a peer.
    After the calls of [example_stale_ops] peer p has a live task and a
    pending count of 0, peer q has a pending count of 1, and p is still on
    top of the peer queue: [Pop] yields the task of p. *)
Theorem Pop_serves_peer_without_pending :
  ∃ tl tl' t P Q,
    run example_stale_ops newPRQ = Some tl
    ∧ Pop tl = Some (Some 1%nat, tl')
    ∧ (heap tl !! 1%nat = Some t ∧ Target t = "p" ∧ trash t = false)
    ∧ (partners tl !! "p" = Some P ∧ requests P = 0)
    ∧ (partners tl !! "q" = Some Q ∧ 0 < requests Q).
Proof.
  eexists _, _, _, _, _.
  split; [vm_compute; reflexivity|].
  split; [vm_compute; reflexivity|].
  split; [split; [vm_compute; reflexivity|split; reflexivity]|].
  split; [split; [vm_compute; reflexivity|reflexivity]|].
  split; [vm_compute; reflexivity|reflexivity].
Qed.

(** C3: in a state reached by a run (short of 2^63 calls), when [Pop]
    yields a task of peer p and key k then, right after, k is in p's active
    set and p's pending count is one less than before; k stays in the set
    through every further call other than the [Done] closure of (p, k),
    and that closure takes k out and lowers p's active count by one. *)
Theorem pop_starts_the_task (ops : list op) (tl tl' : prq) (l : nat) :
  run ops newPRQ = Some tl →
  Z.of_nat (length ops) < GoInt.maxInt →
  Pop tl = Some (Some l, tl') →
  ∃ t P P',
    heap tl !! l = Some t
    ∧ partners tl !! Target t = Some P
    ∧ partners tl' !! Target t = Some P'
    ∧ Key (Entry t) ∈ activeBlocks P'
    ∧ requests P' = requests P - 1
    ∧ (∀ ops2 tl2, no_done (Target t) (Key (Entry t)) ops2 →
         run ops2 tl' = Some tl2 →
         ∃ P2, partners tl2 !! Target t = Some P2
               ∧ Key (Entry t) ∈ activeBlocks P2)
    ∧ (∀ ops2 tl2 tl3, run ops2 tl' = Some tl2 →
         Z.of_nat (length ops + length ops2) < GoInt.maxInt →
         Done tl2 (Target t) (Key (Entry t)) = Some tl3 →
         ∃ P2 P3, partners tl2 !! Target t = Some P2
               ∧ partners tl3 !! Target t = Some P3
               ∧ activeBlocks P3 = activeBlocks P2 ∖ {[Key (Entry t)]}
               ∧ active P3 = active P2 - 1).
Proof.
  intros Hrun Hlen Hpop.
  pose proof (run_wf _ _ _ newPRQ_wf Hrun) as Hwf.
  assert (Hb : bounded (Z.of_nat (length ops)) (partners tl))
    by (apply run_bounded; [lia|done]).
  pose proof (Pop_bounded _ _ _ _ (conj (Zle_0_nat _) Hlen) Hb Hpop) as Hb'.
  apply Pop_yield in Hpop
    as (t & P & P' & pQ & Ht & _ & HP & _ & _ & _ & Hps & _ & _ & _ & Hact & Hreq);
    [|done].
  assert (HP' : partners tl' !! Target t = Some P')
    by (by rewrite Hps, lookup_insert_eq).
  exists t, P, P'. split_and!; [done..| | | |].
  - rewrite Hact. apply elem_of_union. left. by apply elem_of_singleton.
  - rewrite Hreq. unfold GoInt.sub. apply wrap_id.
    destruct (Hb _ _ HP) as [? _].
    unfold GoInt.minInt, GoInt.maxInt in *. lia.
  - intros ops2 tl2 Hno Hrun2. unfold run in Hrun2.
    destruct (exec ops2 tl') as [[outs tl2']|] eqn:He; [|done].
    injection Hrun2 as ->.
    eapply exec_keeps_active; [done|done| |done].
    rewrite Hact. apply elem_of_union. left. by apply elem_of_singleton.
  - intros ops2 tl2 tl3 Hrun2 Hlen2 Hdone. unfold run in Hrun2.
    destruct (exec ops2 tl') as [[outs tl2']|] eqn:He; [|done].
    injection Hrun2 as ->.
    eapply (exec_bounded ops2 (Z.of_nat (length ops) + 1)) in He;
      [|lia|lia|done].
    unfold Done in Hdone.
    destruct (partners tl2 !! Target t) as [P2|] eqn:HP2; simpl in Hdone; [|done].
    destruct (TaskDone P2 (Key (Entry t))) as [P3|] eqn:Htd; simpl in Hdone; [|done].
    injection Hdone as <-. simpl. exists P2, P3.
    rewrite lookup_insert_eq. destruct (He _ _ HP2) as [_ Ha].
    apply TaskDone_Some in Htd as (_ & ? & ? & _); [done|lia].
Qed.

Lemma pop_starts_the_task_witness :
  run (take 4 example_ops) newPRQ = Some example_before_pop
  ∧ Pop example_before_pop = Some (Some 0%nat, example_after_pop)
  ∧ ∃ t P', heap example_before_pop !! 0%nat = Some t
      ∧ partners example_after_pop !! Target t = Some P'
      ∧ Key (Entry t) ∈ activeBlocks P'.
Proof.
  assert (H : run (take 4 example_ops) newPRQ = Some example_before_pop)
    by (vm_compute; reflexivity).
  assert (Hlen : Z.of_nat (length (take 4 example_ops)) < GoInt.maxInt)
    by (vm_compute; reflexivity).
  assert (Hpop : Pop example_before_pop = Some (Some 0%nat, example_after_pop))
    by (vm_compute; reflexivity).
  split; [exact H|]. split; [exact Hpop|].
  destruct (pop_starts_the_task _ _ _ _ H Hlen Hpop)
    as (t & P & P' & Ht & _ & HP' & Hin & _).
  exists t, P'. done.
Defined.

(** C8: a [TaskDone] whose decrement leaves the active count negative
    panics, whatever the partner; and a sequence of [StartTask] and
    [TaskDone] calls on a new partner in which every [TaskDone] has a
    [StartTask] of its own before it never panics and leaves an active
    count that is the number of tasks still running, hence not negative
    (a sequence with a [TaskDone] too many panics). *)
Theorem TaskDone_traps_below_zero :
  (∀ P k, GoInt.sub (active P) 1 < 0 → TaskDone P k = None)
  ∧ (∀ P k, GoInt.minInt < active P ≤ 0 → TaskDone P k = None)
  ∧ (∀ cs m, outstanding 0 cs = Some m →
       Z.of_nat (length cs) ≤ GoInt.maxInt →
       ∃ P', partner_run cs newActivePartner = Some P'
             ∧ active P' = Z.of_nat m ∧ 0 ≤ active P')
  ∧ (∀ cs, outstanding 0 cs = None →
       Z.of_nat (length cs) ≤ GoInt.maxInt →
       partner_run cs newActivePartner = None).
Proof.
  split_and!.
  - intros P k Hneg. unfold TaskDone.
    apply Z.ltb_lt in Hneg. by rewrite Hneg.
  - intros P k Ha. unfold TaskDone, GoInt.sub.
    rewrite wrap_id by (unfold GoInt.minInt, GoInt.maxInt in *; lia).
    destruct (active P - 1 <? 0) eqn:Hlt; [done|].
    apply Z.ltb_ge in Hlt. lia.
  - intros cs m Hout Hlen.
    pose proof (partner_run_outstanding cs newActivePartner 0 eq_refl) as H.
    rewrite Hout in H. destruct H as (P' & Hrun & Ha); [simpl; lia|].
    exists P'. split_and!; [done..|lia].
  - intros cs Hout Hlen.
    pose proof (partner_run_outstanding cs newActivePartner 0 eq_refl) as H.
    rewrite Hout in H. apply H. simpl. lia.
Qed.

Lemma TaskDone_traps_below_zero_witness :
  TaskDone newActivePartner "k" = None
  ∧ ∃ P', partner_run [CallStartTask "a"; CallStartTask "b"; CallTaskDone "a"]
            newActivePartner = Some P'
          ∧ active P' = 1.
Proof.
  destruct TaskDone_traps_below_zero as (Htrap & _ & Hrun & _).
  split.
  - apply Htrap. vm_compute. reflexivity.
  - destruct (Hrun [CallStartTask "a"; CallStartTask "b"; CallTaskDone "a"] 1%nat)
      as (P' & HP' & Ha & _); [reflexivity|unfold GoInt.maxInt; simpl; lia|].
    exists P'. done.
Defined.

(** C9: in a state reached by a run, when the task filed for a (peer, key)
    is trashed and still queued, a [Push] for that peer and key changes
    nothing but the priority of that task (and its place in the task
    queue of the peer): the task stays trashed, no task is created, the
    pending count of the peer is as before.  No later [Pop] ever yields
    that task, and as long as no new [Push] is filed under the same key,
    no [Pop] yields any task of that peer and key. *)
Theorem repush_of_trashed_task_is_dropped
    (ops : list op) (tl : prq) (l : nat) (t : peerRequestTask)
    (entry : wantlist.Entry) (now : Z) :
  run ops newPRQ = Some tl →
  taskMap tl !! task_Key t = Some l → heap tl !! l = Some t →
  trash t = true → Key entry = Key (Entry t) →
  let tl1 := Push tl entry (Target t) now in
  let h := <[l := set_Priority (Priority entry) t]> (heap tl) in
  (∃ P, partners tl !! Target t = Some P
     ∧ tl1 = {| pQueue := pQueue tl; taskMap := taskMap tl;
                partners :=
                  <[Target t := set_taskQueue
                                  (pq.Update (taskCmp h) l (taskQueue P)) P]>
                    (partners tl);
                heap := h; next := next tl |})
  ∧ trash (set_Priority (Priority entry) t) = true
  ∧ (∀ ops2 outs tl2, exec ops2 tl1 = Some (outs, tl2) → l ∉ outs)
  ∧ (∀ ops2 outs tl2, no_push (task_Key t) ops2 →
       exec ops2 tl1 = Some (outs, tl2) →
       ∀ l' t', l' ∈ outs → heap tl2 !! l' = Some t' →
         ¬ (Target t' = Target t ∧ Key (Entry t') = Key (Entry t))).
Proof.
  intros Hrun Hm Ht Htr Hk tl1 h.
  pose proof (run_wf _ _ _ newPRQ_wf Hrun) as Hwf.
  destruct (wf_map _ _ _ (wf_tasks _ Hwf) _ _ Hm) as (t0 & P & Ht0 & _ & HP & _).
  assert (t0 = t) as -> by congruence.
  assert (Hh : alter (set_Priority (Priority entry)) l (heap tl) = h).
  { subst h. apply map_eq. intros i. destruct (decide (l = i)) as [->|Hne].
    - by rewrite lookup_alter_eq, lookup_insert_eq, Ht.
    - by rewrite lookup_alter_ne, lookup_insert_ne. }
  assert (Heq : tl1 = {| pQueue := pQueue tl; taskMap := taskMap tl;
           partners :=
             <[Target t := set_taskQueue
                             (pq.Update (taskCmp h) l (taskQueue P)) P]>
               (partners tl);
           heap := h; next := next tl |}).
  { subst tl1. erewrite Push_existing; [|done|].
    - simpl. by rewrite Hh.
    - unfold task_Key in Hm. by rewrite Hk. }
  assert (Hl : (l < next tl)%nat) by (apply (wf_next _ Hwf); eauto).
  split_and!; [by exists P|done| |].
  - intros ops2 outs tl2 He.
    eapply (exec_never_yields_trashed ops2 tl1); [| | |done].
    + by rewrite Heq.
    + rewrite Heq. simpl. apply lookup_insert_eq.
    + done.
  - intros ops2 outs tl2 Hno He l' t' Hl' Ht' [HT HK].
    destruct (exec_key_dead ops2 tl1 outs tl2 (task_Key t)) with (l := l')
      as (t'' & Ht'' & Hne); [by apply Push_wf| |done..|].
    + intros l0 Hl0. rewrite Heq in Hl0 |- *. simpl in *.
      assert (l0 = l) as -> by congruence.
      eexists. split; [apply lookup_insert_eq|done].
    + assert (t'' = t') as -> by congruence.
      apply Hne. unfold task_Key. by rewrite HT, HK.
Qed.

Lemma repush_of_trashed_task_is_dropped_witness :
  run (take 7 example_ops) newPRQ = Some example_trashed
  ∧ ∀ ops2 outs tl2,
      exec ops2 (Push example_trashed {| Key := "k2"; Priority := 8 |} "p" 6)
        = Some (outs, tl2) →
      1%nat ∉ outs.
Proof.
  assert (H : run (take 7 example_ops) newPRQ = Some example_trashed)
    by (vm_compute; reflexivity).
  split; [exact H|].
  refine (proj1 (proj2 (proj2
    (repush_of_trashed_task_is_dropped (take 7 example_ops) example_trashed
       1%nat
       {| Entry := {| Key := "k2"; Priority := 7 |}; Target := "p";
          trash := true; created := 3 |}
       {| Key := "k2"; Priority := 8 |} 6 H _ _ _ _))));
    vm_compute; reflexivity.
Defined.

End prq_claims.

(** ** The send queue *)
Module peermanager_facts.

Import blocks bsmsg peermanager.

(** The last block of [bs] with key [k], if any. *)
Lemma add_blocks_lookup (bs : list Block) : ∀ (m : gmap string Block) k,
  add_blocks bs m !! k =
    match last (filter (λ b, blocks.Key b = k) bs) with
    | Some b => Some b
    | None => m !! k
    end.
Proof.
  unfold add_blocks.
  induction bs as [|b bs IH]; intros m k; simpl; [done|].
  rewrite IH. rewrite filter_cons.
  destruct (decide (blocks.Key b = k)) as [<-|Hne].
  - destruct (filter _ bs) as [|b' f] eqn:Hf; simpl.
    + by rewrite lookup_insert_eq.
    + destruct (last (b' :: f)) eqn:Hl; [done|]. by apply last_None in Hl.
  - destruct (last (filter _ bs)); [done|]. by rewrite lookup_insert_ne.
Qed.

Section merge.
Context {M : Type} `{BitSwapMessage M}.

Lemma foldl_alter_merge (es : list Entry.t) : ∀ (h : gmap nat M) w,
  foldl (λ hh e, alter (λ wl, merge_entry wl e) w hh) h es
  = alter (λ wl, foldl merge_entry wl es) w h.
Proof.
  induction es as [|e es IH]; intros h w; simpl.
  - apply map_eq. intros i. destruct (decide (w = i)) as [->|Hne].
    + rewrite lookup_alter_eq. by destruct (h !! i).
    + by rewrite lookup_alter_ne.
  - rewrite IH. apply map_eq. intros i. destruct (decide (w = i)) as [->|Hne].
    + rewrite !lookup_alter_eq. by destruct (h !! i).
    + by rewrite !lookup_alter_ne.
Qed.

End merge.

End peermanager_facts.

(** ** The API functions *)
Module bitswap_facts.

Import blocks bitswap.

Lemma sub_no_wrap (i : Z) :
  0 ≤ i ≤ GoInt.maxInt → GoInt.sub kMaxPriority i = kMaxPriority - i.
Proof.
  intros Hi. unfold GoInt.sub. apply prq_facts.wrap_id.
  unfold GoInt.minInt, GoInt.maxInt, kMaxPriority in *. lia.
Qed.

Lemma priorities_lookup (keys : list string) : ∀ (i0 : Z) (n : nat) k,
  keys !! n = Some k →
  priorities i0 keys !! n = Some (k, GoInt.sub kMaxPriority (i0 + Z.of_nat n)).
Proof.
  induction keys as [|k0 keys IH]; intros i0 n k Hn; [done|].
  destruct n as [|n]; simpl in *.
  - injection Hn as ->. by rewrite Z.add_0_r.
  - rewrite (IH (i0 + 1) n k Hn). do 3 f_equal. lia.
Qed.

Lemma priorities_length (keys : list string) : ∀ i0,
  length (priorities i0 keys) = length keys.
Proof. induction keys as [|k keys IH]; intros i0; simpl; [done|]. by rewrite IH. Qed.

(** A closed engine answers every call with the closed error. *)
Lemma exec_HasBlock_closed o w ctx blk :
  closing w = true →
  exec (HasBlock ctx blk) o w = (Some closedError, w, [ev Closing w]).
Proof.
  intros Hc. unfold HasBlock, call, mbind, Prog_bind, mret, Prog_ret. simpl.
  by rewrite Hc.
Qed.

Lemma exec_GetBlocks_closed o w ctx ks :
  closing w = true →
  exec (GetBlocks ctx ks) o w = ((None, Some closedError), w, [ev Closing w]).
Proof.
  intros Hc. unfold GetBlocks, call, mbind, Prog_bind, mret, Prog_ret. simpl.
  by rewrite Hc.
Qed.

Lemma exec_GetBlock_closed o w parent k :
  closing w = true →
  let w1 := (handle (WithCancel parent) o w).2 in
  let w2 := (handle (CancelFunc (contexts w)) o w1).2 in
  exec (GetBlock parent k) o w
  = ((None, Some closedError), w2,
     [ev (WithCancel parent) w; ev Closing w1; ev (CancelFunc (contexts w)) w1]).
Proof.
  intros Hc. unfold GetBlock, GetBlocks, call, mbind, Prog_bind, mret, Prog_ret.
  simpl. by rewrite Hc.
Qed.

Lemma api_exec_closed c o w :
  closing w = true →
  closing (api_exec c o w).1.2 = true
  ∧ (c ≠ CallClose →
     (api_exec c o w).1.1 = Some closedError
     ∧ Forall (λ e, blocking e = false) (api_exec c o w).2).
Proof.
  intros Hc. destruct c as [parent k|ctx ks|ctx blk|]; unfold api_exec.
  - rewrite exec_GetBlock_closed by done. simpl. split; [done|].
    intros _. split; [done|]. repeat constructor.
  - rewrite exec_GetBlocks_closed by done. simpl. split; [done|].
    intros _. split; [done|]. repeat constructor.
  - rewrite exec_HasBlock_closed by done. simpl. split; [done|].
    intros _. split; [done|]. repeat constructor.
  - simpl. split; [done|]. by intros [].
Qed.

Lemma api_run_closed cs : ∀ w,
  closing w = true →
  Forall (λ r, r.1.1 ≠ CallClose →
            r.1.2 = Some closedError ∧ Forall (λ e, blocking e = false) r.2)
         (api_run cs w).1.
Proof.
  induction cs as [|[c o] cs IH]; intros w Hc; simpl; [constructor|].
  destruct (api_exec_closed c o w Hc) as [Hc1 Hr].
  destruct (api_exec c o w) as [[err w1] tr] eqn:He. simpl in *.
  specialize (IH w1 Hc1).
  destruct (api_run cs w1) as [rs w2]. simpl in *.
  constructor; [|done]. simpl. exact Hr.
Qed.

End bitswap_facts.

(** ** The send queue: claims *)
Module peermanager_claims.

Import blocks bsmsg peermanager peermanager_facts.

(** C5: [AddMessage] with a message object [m] first puts the blocks of [m]
    into the payload map of the queue under their keys, the last block of
    a key winning, and clears them from [m]; then, when the queue has no
    pending message or [m] is [Full], [m] becomes the pending message;
    otherwise the pending message stays and every wantlist entry of [m] is
    merged into it, a [Cancel] entry by [Cancel(key)] and any other by
    [AddEntry(key, priority)]. *)
Theorem AddMessage_adopts_or_merges {M : Type} `{BitSwapMessage M}
    (h : gmap nat M) (mq : msgQueue) (msg : nat) (m : M) (waiting : bool) :
  h !! msg = Some m →
  let m1 := ClearBlocks m in
  let h1 := <[msg := m1]> h in
  ∃ h' mq',
    AddMessage h mq msg waiting = Some (h', mq', waiting)
    ∧ p mq' = p mq
    ∧ blocks mq' = add_blocks (Blocks m) (blocks mq)
    ∧ (∀ k, blocks mq' !! k =
         match last (filter (λ b, blocks.Key b = k) (Blocks m)) with
         | Some b => Some b
         | None => blocks mq !! k
         end)
    ∧ (wlmsg mq = None ∨ Full m1 = true → wlmsg mq' = Some msg ∧ h' = h1)
    ∧ (∀ w, wlmsg mq = Some w → Full m1 = false →
         wlmsg mq' = Some w
         ∧ h' = alter (λ wl, foldl merge_entry wl (Wantlist m1)) w h1)
    ∧ (∀ wl e, merge_entry wl e =
         if Entry.Cancel e then Cancel wl (Entry.Key e)
         else AddEntry wl (Entry.Key e) (Entry.Priority e)).
Proof.
  intros Hm m1 h1. unfold AddMessage. rewrite Hm. simpl.
  destruct (wlmsg mq) as [w|] eqn:Hw.
  - destruct (Full (ClearBlocks m)) eqn:Hfull.
    + eexists _, _. split; [done|]. simpl.
      split_and!; [done|done|intros k; apply add_blocks_lookup| | |done].
      * by intros _.
      * intros w' _ Hf. subst m1. congruence.
    + eexists _, _. split; [done|]. simpl.
      split_and!; [done|done|intros k; apply add_blocks_lookup| | |done].
      * intros [?|Hf]; [done|]. subst m1. congruence.
      * intros w' [= <-] _. split; [done|]. apply foldl_alter_merge.
  - eexists _, _. split; [done|]. simpl.
    split_and!; [done|done|intros k; apply add_blocks_lookup| |done|done].
    by intros _.
Qed.

Lemma AddMessage_adopts_or_merges_witness :
  ∃ h' mq',
    AddMessage example_store example_queue 1%nat true = Some (h', mq', true)
    ∧ wlmsg mq' = Some 0%nat
    ∧ blocks mq' !! "x" = Some (mkBlock "x" "new")
    ∧ Wantlist <$> h' !! 0%nat
      = Some [Entry.mk "a" 0 true; Entry.mk "c" 1 false; Entry.mk "b" 5 false].
Proof.
  destruct (AddMessage_adopts_or_merges example_store example_queue 1%nat
              {| full := false;
                 wantlist := [Entry.mk "a" 0 true; Entry.mk "b" 5 false];
                 blks := [mkBlock "x" "new"; mkBlock "y" "two"] |} true eq_refl)
    as (h' & mq' & Hadd & _ & _ & Hblocks & _ & Hmerge & _).
  exists h', mq'. split; [exact Hadd|].
  destruct (Hmerge 0%nat eq_refl eq_refl) as [Hw Hh].
  split; [exact Hw|]. split; [rewrite Hblocks; reflexivity|].
  rewrite Hh. vm_compute. reflexivity.
Defined.

End peermanager_claims.

(** ** The API functions: claims *)
Module bitswap_claims.

Import blocks bitswap bitswap_facts.

(** C4, as the spec words it, fails: in a batch of [kMaxPriority + 2] keys
    the last key is added with priority -1, where saturation would give
    0. *)
Lemma batch_priorities_do_not_saturate :
  clientWorker_adds big_batch !! big_batch_last = Some ("k", -1)
  ∧ saturating_priority (Z.of_nat big_batch_last) = 0.
Proof.
  unfold clientWorker_adds, big_batch, big_batch_last.
  rewrite length_replicate.
  destruct (decide (Z.to_nat (kMaxPriority + 2) = 0%nat)) as [H0|_].
  { exfalso. unfold kMaxPriority in H0. lia. }
  split.
  - erewrite priorities_lookup.
    2: { apply lookup_replicate_2. unfold kMaxPriority. lia. }
    rewrite Z2Nat.id by (unfold kMaxPriority; lia).
    f_equal.
  - rewrite Z2Nat.id by (unfold kMaxPriority; lia). reflexivity.
Qed.

(** C4, amended: for a batch of keys (a slice, so at most [maxInt] long)
    the key at index i is added to the local wantlist with priority
    [kMaxPriority - i], and the message that [wantNewBlocks] broadcasts is
    built from the same (key, priority) pairs; the priority is not
    negative exactly when i is at most [kMaxPriority].  There is no
    saturation. *)
Theorem batch_priorities_count_down {M : Type} `{bsmsg.BitSwapMessage M}
    (keys : list string) (i : nat) (k : string) :
  Z.of_nat (length keys) ≤ GoInt.maxInt →
  keys !! i = Some k →
  clientWorker_adds keys !! i = Some (k, kMaxPriority - Z.of_nat i)
  ∧ length (clientWorker_adds keys) = length keys
  ∧ wantNewBlocks (M := M) keys
    = Some (foldl (λ message kp, bsmsg.AddEntry message kp.1 kp.2)
                  (bsmsg.SetFull bsmsg.New false) (clientWorker_adds keys))
  ∧ (0 ≤ kMaxPriority - Z.of_nat i ↔ Z.of_nat i ≤ kMaxPriority).
Proof.
  intros Hlen Hi.
  assert (Hlt : (i < length keys)%nat) by (by eapply lookup_lt_Some).
  unfold clientWorker_adds, wantNewBlocks.
  rewrite decide_False by lia. rewrite decide_False by lia.
  split_and!.
  - rewrite (priorities_lookup keys 0 i k Hi). rewrite sub_no_wrap; [done|lia].
  - apply priorities_length.
  - done.
  - lia.
Qed.

Lemma batch_priorities_count_down_witness :
  clientWorker_adds ["a"; "b"; "c"] !! 1%nat = Some ("b", kMaxPriority - 1).
Proof.
  refine (proj1 (batch_priorities_count_down (M := bsmsg.impl)
                   ["a"; "b"; "c"] 1%nat "b" _ _)).
  - unfold GoInt.maxInt. simpl. lia.
  - reflexivity.
Defined.

(** C6: a [HasBlock] call on an open engine whose block store accepts the
    block runs, in this order, [Put], the removal of the key from the
    local wantlist, [Publish], and the send on [newBlocks]; when [Publish]
    runs the block store already [Has] the key, the wantlist no longer
    holds it, and no subscription has been handed anything by this
    call. *)
Theorem HasBlock_stores_before_publishing
    (o : sched) (w : world) (ctx : nat) (blk : Block) :
  closing w = false → put_error o = None →
  let w1 := (handle (Put blk) o w).2 in
  let w2 := (handle (WantlistRemove (Key blk)) o w1).2 in
  let w3 := (handle (Publish blk) o w2).2 in
  (exec (HasBlock ctx blk) o w).2 =
    [ev Closing w; ev (Put blk) w; ev (WantlistRemove (Key blk)) w1;
     ev (Publish blk) w2; ev (SendNewBlocks ctx blk) w3]
  ∧ Has w1 (Key blk) = true
  ∧ Has w2 (Key blk) = true
  ∧ blockstore w2 !! Key blk = Some blk
  ∧ bitswap.wantlist w2 !! Key blk = None
  ∧ notifications w2 = notifications w
  ∧ notifications w3 = publish_to blk <$> notifications w.
Proof.
  intros Hc Hput w1 w2 w3. subst w1 w2 w3.
  unfold HasBlock, call, mbind, Prog_bind, mret, Prog_ret. simpl.
  repeat (first [rewrite Hc|rewrite Hput]; simpl).
  unfold Has. simpl. rewrite lookup_insert_eq, lookup_delete_eq.
  split_and!; try done;
    try (by destruct (newBlocks_ctx_done o));
    apply bool_decide_eq_true; eauto.
Qed.

Lemma HasBlock_stores_before_publishing_witness :
  let blk := mkBlock "k" "data" in
  let w2 := (handle (WantlistRemove "k") example_sched
               (handle (Put blk) example_sched example_world).2).2 in
  Has w2 "k" = true ∧ bitswap.wantlist w2 !! "k" = None
  ∧ notifications w2 = notifications example_world.
Proof.
  destruct (HasBlock_stores_before_publishing example_sched example_world 0
              (mkBlock "k" "data") eq_refl eq_refl)
    as (_ & _ & Hhas & _ & Hwl & Hn & _).
  exact (conj Hhas (conj Hwl Hn)).
Defined.

(** C7: once [Close] has run, every later call of [GetBlock], [GetBlocks]
    or [HasBlock] returns the error "bitswap is closed", having run no
    statement that can block. *)
Theorem calls_after_Close_return_closed
    (o : sched) (w : world) (cs : list (api * sched)) :
  let w0 := (exec Close o w).1.2 in
  closing w0 = true
  ∧ Forall (λ r, r.1.1 ≠ CallClose →
              r.1.2 = Some closedError
              ∧ Forall (λ e, blocking e = false) r.2)
           (api_run cs w0).1.
Proof.
  simpl. split; [done|]. by apply api_run_closed.
Qed.

(** C10: when a [HasBlock] call on an open engine gets the block into the
    block store and then finds the caller's context ended before
    [newBlocks] takes the block, it returns the error of the context, and
    yet the block is stored, its key is off the local wantlist and every
    subscription waiting for the key has been handed the block; [newBlocks]
    is as before, which is the only difference from the call that
    succeeds. *)
Theorem HasBlock_keeps_effects_on_cancel
    (o : sched) (w : world) (ctx : nat) (blk : Block) (e : error) :
  closing w = false → put_error o = None →
  newBlocks_ctx_done o = Some e →
  let w' :=
    {| closing := false;
       blockstore := <[Key blk := blk]> (blockstore w);
       bitswap.wantlist := delete (Key blk) (bitswap.wantlist w);
       notifications := publish_to blk <$> notifications w;
       batchRequests := batchRequests w; newBlocks := newBlocks w;
       contexts := contexts w; cancelled := cancelled w |} in
  (exec (HasBlock ctx blk) o w).1 = (Some e, w')
  ∧ (∀ s, s ∈ notifications w → Key blk ∈ waiting s →
       ∃ s', s' ∈ notifications w' ∧ blk ∈ delivered s')
  ∧ (exec (HasBlock ctx blk)
       {| put_error := None; batch_ctx_done := batch_ctx_done o;
          newBlocks_ctx_done := None; promise_result := promise_result o;
          ctx_err := ctx_err o |} w).1
    = (None,
       {| closing := false;
          blockstore := blockstore w'; bitswap.wantlist := bitswap.wantlist w';
          notifications := notifications w';
          batchRequests := batchRequests w';
          newBlocks := newBlocks w ++ [blk];
          contexts := contexts w'; cancelled := cancelled w' |}).
Proof.
  intros Hc Hput Hsel w'. subst w'.
  unfold HasBlock, call, mbind, Prog_bind, mret, Prog_ret. simpl.
  repeat (first [rewrite Hc|rewrite Hput|rewrite Hsel]; simpl).
  split_and!; [done| |done].
  intros s Hs Hk. exists (publish_to blk s). split.
  - apply list_elem_of_fmap. by exists s.
  - unfold publish_to. rewrite decide_True by done. simpl.
    apply elem_of_app. right. apply list_elem_of_here.
Qed.

Lemma HasBlock_keeps_effects_on_cancel_witness :
  let blk := mkBlock "k" "data" in
  ∃ w', (exec (HasBlock 0 blk) example_sched_cancelled example_world).1
        = (Some Canceled, w')
      ∧ blockstore w' !! "k" = Some blk
      ∧ bitswap.wantlist w' !! "k" = None
      ∧ newBlocks w' = [].
Proof.
  intros blk.
  destruct (HasBlock_keeps_effects_on_cancel example_sched_cancelled
              example_world 0 blk Canceled eq_refl eq_refl eq_refl)
    as (Hexec & _ & _).
  eexists. split; [exact Hexec|]. vm_compute. done.
Defined.

End bitswap_claims.

(** ** The request queue: what the counters count, what is handed out *)
Module prq_accounting_facts.

Import wantlist decision prq_facts prq_accounting.

Lemma live_tasks_cons h l q :
  live_tasks h (l :: q) =
    if live h l then S (live_tasks h q) else live_tasks h q.
Proof.
  unfold live_tasks. rewrite filter_cons.
  destruct (live h l); case_decide; done.
Qed.

Lemma live_tasks_ext h h' q :
  (∀ x, x ∈ q → live h' x = live h x) → live_tasks h' q = live_tasks h q.
Proof.
  induction q as [|x q IH]; intros Hext; [done|].
  rewrite !live_tasks_cons, Hext by apply list_elem_of_here.
  rewrite IH; [done|]. intros y Hy. apply Hext. by apply list_elem_of_further.
Qed.

Lemma live_tasks_perm h q q' : q ≡ₚ q' → live_tasks h q = live_tasks h q'.
Proof. unfold live_tasks. by intros ->. Qed.

Lemma live_alter_ne (f : peerRequestTask → peerRequestTask) h l x :
  x ≠ l → live (alter f l h) x = live h x.
Proof. intros Hne. unfold live. by rewrite lookup_alter_ne. Qed.

Lemma live_alter_keep (f : peerRequestTask → peerRequestTask) h l x :
  (∀ t, trash (f t) = trash t) → live (alter f l h) x = live h x.
Proof.
  intros Hf. destruct (decide (x = l)) as [->|Hne]; [|by apply live_alter_ne].
  unfold live. rewrite lookup_alter_eq. destruct (h !! l); simpl; [|done].
  by rewrite Hf.
Qed.

Lemma live_insert_ne h l t x : x ≠ l → live (<[l := t]> h) x = live h x.
Proof. intros Hne. unfold live. by rewrite lookup_insert_ne. Qed.

Lemma live_tasks_trash h l q :
  NoDup q → l ∈ q → live h l = true →
  S (live_tasks (alter set_trash l h) q) = live_tasks h q.
Proof.
  induction q as [|x q IH]; intros Hnd Hin Hl; [by apply elem_of_nil in Hin|].
  apply NoDup_cons in Hnd as [Hx Hnd]. rewrite !live_tasks_cons.
  destruct (decide (x = l)) as [->|Hne].
  - rewrite Hl. unfold live at 1. rewrite lookup_alter_eq.
    unfold live in Hl. destruct (h !! l); simpl; [|done]. f_equal.
    apply live_tasks_ext. intros y Hy. apply live_alter_ne. by intros ->.
  - apply elem_of_cons in Hin as [->|Hin]; [done|].
    rewrite live_alter_ne by done. destruct (live h x); rewrite <- IH; done.
Qed.

Lemma drain_live n : ∀ h tm P out tm' P',
  drain n h tm P = Some (out, tm', P') →
  live_tasks h (taskQueue P) =
    ((if out is Some _ then 1 else 0) + live_tasks h (taskQueue P'))%nat.
Proof.
  induction n as [|n IH]; intros h tm P out tm' P' Hd; simpl in Hd.
  { by injection Hd as <- <- <-. }
  destruct (pq.Pop (taskQueue P)) as [[l q']|] eqn:Hpop.
  2: { by injection Hd as <- <- <-. }
  unfold pq.Pop in Hpop. destruct (taskQueue P) as [|l0 q0] eqn:Hq; [done|].
  injection Hpop as -> ->.
  destruct (h !! l) as [t|] eqn:Ht; simpl in Hd; [|done].
  rewrite live_tasks_cons. unfold live at 1. rewrite Ht.
  destruct (trash t) eqn:Htr; simpl.
  - by apply IH in Hd.
  - by injection Hd as <- <- <-.
Qed.

Lemma counts_new_partner h (ps : gmap string activePartner) p :
  counts h ps → counts h (<[p := newActivePartner]> ps).
Proof.
  intros Hc q Q. destruct (decide (p = q)) as [->|Hne].
  - rewrite lookup_insert_eq. by intros [= <-].
  - rewrite lookup_insert_ne by done. apply Hc.
Qed.

Lemma Push_counts n tl entry to now :
  0 ≤ n < GoInt.maxInt → wf tl → bounded n (partners tl) →
  counts (heap tl) (partners tl) →
  counts (heap (Push tl entry to now)) (partners (Push tl entry to now)).
Proof.
  intros Hn Hwf Hb Hc.
  destruct (Push_cases tl entry to now) as (partner & pQ & ps & Heq & Hcase).
  destruct (Push_partner_wf _ _ _ _ _ Hwf Heq) as (Hto & Hcore & _ & _ & Hps).
  destruct (Push_partner_spec tl to)
    as (partner0 & pQ0 & ps0 & Heq0 & _ & Hspec).
  rewrite Heq in Heq0. injection Heq0 as <- <- <-.
  assert (Hcps : counts (heap tl) ps ∧ in_bounds n partner).
  { destruct Hspec as [(Hp & _ & ->)|(Hp & -> & _ & ->)].
    - split; [done|by eapply Hb].
    - split; [by apply counts_new_partner|].
      unfold in_bounds. simpl. lia. }
  destruct Hcps as [Hcps [Hr _]].
  assert (Hfresh : ∀ q Q l, ps !! q = Some Q → l ∈ taskQueue Q → l ≠ next tl).
  { intros q Q l HQ Hin ->.
    destruct (wf_queue _ _ _ Hcore _ _ _ HQ Hin) as (t0 & Ht0 & _).
    assert (next tl < next tl)%nat by (apply (wf_next _ Hwf); eauto). lia. }
  destruct Hcase as [(l & q' & _ & Hq' & ->)|[(_ & _ & ->)|(q' & pQ' & _ & _ & Hq' & _ & ->)]];
    simpl; [|done|].
  - intros q Q. destruct (decide (to = q)) as [->|Hne].
    + rewrite lookup_insert_eq. intros [= <-]. simpl.
      rewrite (live_tasks_perm _ _ _ Hq').
      rewrite (live_tasks_ext (heap tl)); [exact (Hcps _ _ Hto)|].
      intros x _. by apply live_alter_keep.
    + rewrite lookup_insert_ne by done. intros HQ.
      rewrite (live_tasks_ext (heap tl)); [exact (Hcps _ _ HQ)|].
      intros x _. by apply live_alter_keep.
  - intros q Q. destruct (decide (to = q)) as [->|Hne].
    + rewrite lookup_insert_eq. intros [= <-]. simpl.
      rewrite (live_tasks_perm _ _ _ Hq'), live_tasks_cons.
      unfold live at 1. rewrite lookup_insert_eq. simpl.
      rewrite (live_tasks_ext (heap tl)).
      2: { intros x Hx. apply live_insert_ne. by eapply Hfresh. }
      rewrite (Hcps _ _ Hto) in *. unfold GoInt.add.
      rewrite wrap_id; unfold GoInt.minInt, GoInt.maxInt in *; lia.
    + rewrite lookup_insert_ne by done. intros HQ.
      rewrite (live_tasks_ext (heap tl)); [exact (Hcps _ _ HQ)|].
      intros x Hx. apply live_insert_ne. by eapply Hfresh.
Qed.

Lemma Pop_counts n tl out tl' :
  0 ≤ n < GoInt.maxInt → bounded n (partners tl) →
  counts (heap tl) (partners tl) → Pop tl = Some (out, tl') →
  counts (heap tl') (partners tl').
Proof.
  intros Hn Hb Hc. unfold Pop.
  destruct (pq.Pop (pQueue tl)) as [[p pQ]|] eqn:Hpop.
  2: { by intros [= <- <-]. }
  destruct (partners tl !! p) as [partner|] eqn:Hp; simpl; [|done].
  destruct (drain _ _ _ partner) as [[[o tm] partner']|] eqn:Hd; simpl; [|done].
  intros [= <- <-]. simpl. intros q Q.
  destruct (decide (p = q)) as [->|Hne].
  2: { rewrite lookup_insert_ne by done. apply Hc. }
  rewrite lookup_insert_eq. intros [= <-].
  pose proof (drain_live _ _ _ _ _ _ _ Hd) as Hlive.
  pose proof (drain_fields _ _ _ _ _ _ _ Hd) as Hf.
  pose proof (Hc _ _ Hp) as Hreq. destruct (Hb _ _ Hp) as [Hr _].
  destruct o as [l|].
  - destruct Hf as (t & _ & _ & _ & _ & _ & ->). unfold GoInt.sub.
    rewrite wrap_id; unfold GoInt.minInt, GoInt.maxInt in *; lia.
  - destruct Hf as (_ & _ & ->). simpl in Hlive. lia.
Qed.

Lemma Remove_counts n tl k p tl' :
  0 ≤ n < GoInt.maxInt → wf tl → bounded n (partners tl) →
  counts (heap tl) (partners tl) →
  cancels_live_task tl (OpRemove k p) = true →
  Remove tl k p = Some tl' → counts (heap tl') (partners tl').
Proof.
  intros Hn Hwf Hb Hc. unfold Remove, cancels_live_task.
  destruct (taskMap tl !! taskKey p k) as [l|] eqn:Hl.
  2: { by intros _ [= <-]. }
  destruct (heap tl !! l) as [t|] eqn:Ht; [|done].
  intros [Htr HT]%andb_true_iff. apply negb_true_iff in Htr.
  apply bool_decide_eq_true in HT.
  destruct (partners tl !! p) as [partner|] eqn:Hp; simpl; [|done].
  intros [= <-]. simpl.
  destruct (wf_map _ _ _ (wf_tasks _ Hwf) _ _ Hl) as (t' & P & Ht' & _ & HP & Hin).
  assert (t' = t) as -> by congruence. rewrite HT, Hp in HP.
  injection HP as <-.
  assert (Hlive : live (heap tl) l = true) by (unfold live; by rewrite Ht, Htr).
  intros q Q. destruct (decide (p = q)) as [->|Hne].
  - rewrite lookup_insert_eq. intros [= <-]. simpl.
    pose proof (live_tasks_trash (heap tl) l (taskQueue partner)
                  (wf_nodup _ _ _ (wf_tasks _ Hwf) _ _ Hp) Hin Hlive) as Hcnt.
    pose proof (Hc _ _ Hp) as Hreq. destruct (Hb _ _ Hp) as [Hr _].
    unfold GoInt.sub.
    rewrite wrap_id; unfold GoInt.minInt, GoInt.maxInt in *; lia.
  - rewrite lookup_insert_ne by done. intros HQ.
    rewrite (live_tasks_ext (heap tl)); [exact (Hc _ _ HQ)|].
    intros x Hx. apply live_alter_ne. intros ->.
    destruct (wf_queue _ _ _ (wf_tasks _ Hwf) _ _ _ HQ Hx) as (t2 & Ht2 & HT2 & _).
    congruence.
Qed.

Lemma Done_counts n tl to k tl' :
  0 ≤ n < GoInt.maxInt → bounded n (partners tl) →
  counts (heap tl) (partners tl) → Done tl to k = Some tl' →
  counts (heap tl') (partners tl').
Proof.
  intros Hn Hb Hc. unfold Done.
  destruct (partners tl !! to) as [partner|] eqn:Hp; simpl; [|done].
  destruct (TaskDone partner k) as [partner'|] eqn:Hd; simpl; [|done].
  intros [= <-]. simpl. intros q Q.
  destruct (decide (to = q)) as [->|Hne].
  2: { rewrite lookup_insert_ne by done. apply Hc. }
  rewrite lookup_insert_eq. intros [= <-].
  destruct (Hb _ _ Hp) as [_ Ha].
  apply TaskDone_Some in Hd as (_ & _ & _ & -> & ->); [|lia].
  exact (Hc _ _ Hp).
Qed.

Lemma step_counts n tl o out tl' :
  0 ≤ n < GoInt.maxInt → wf tl → bounded n (partners tl) →
  counts (heap tl) (partners tl) → cancels_live_task tl o = true →
  step tl o = Some (out, tl') → counts (heap tl') (partners tl').
Proof.
  intros Hn Hwf Hb Hc Hlive. destruct o as [entry to now| |k p|to k]; simpl.
  - intros [= <- <-]. by eapply Push_counts.
  - by eapply Pop_counts.
  - destruct (Remove tl k p) eqn:Hr; simpl; [|done]. intros [= <- <-].
    by eapply Remove_counts.
  - destruct (Done tl to k) eqn:Hr; simpl; [|done]. intros [= <- <-].
    by eapply Done_counts.
Qed.

Lemma exec_counts ops : ∀ n tl outs tl',
  0 ≤ n → n + Z.of_nat (length ops) ≤ GoInt.maxInt →
  wf tl → bounded n (partners tl) → counts (heap tl) (partners tl) →
  removes_once ops tl = true → exec ops tl = Some (outs, tl') →
  counts (heap tl') (partners tl').
Proof.
  induction ops as [|o ops IH]; intros n tl outs tl' Hn Hlen Hwf Hb Hc; simpl.
  { by intros _ [= <- <-]. }
  destruct (step tl o) as [[out tl1]|] eqn:Hs; simpl; [|done].
  intros [Hlive Hrest]%andb_true_iff.
  destruct (exec ops tl1) as [[outs' tl2]|] eqn:He; simpl; [|done].
  intros [= <- <-]. simpl length in Hlen.
  eapply (IH (n + 1)); [lia|lia| | | |done|done].
  - by eapply step_wf.
  - eapply step_bounded; [|done..]. lia.
  - eapply step_counts; [|done..]. lia.
Qed.

(** What the calls do to the set of queued task pointers. *)
Lemma scheduled_lt_next tl l : wf tl → l ∈ scheduled tl → (l < next tl)%nat.
Proof.
  intros Hwf (p & P & HP & Hin)%elem_of_scheduled.
  destruct (wf_queue _ _ _ (wf_tasks _ Hwf) _ _ _ HP Hin) as (t & Ht & _).
  apply (wf_next _ Hwf). eauto.
Qed.

Lemma Push_scheduled tl entry to now l :
  l ∈ scheduled (Push tl entry to now) → l ∈ scheduled tl ∨ l = next tl.
Proof.
  destruct (Push_cases tl entry to now) as (partner & pQ & ps & Heq & Hcase).
  destruct (Push_partner_spec tl to)
    as (partner0 & pQ0 & ps0 & Heq0 & Hto & Hspec).
  rewrite Heq in Heq0. injection Heq0 as <- <- <-.
  assert (Hps : ∀ q Q x, ps !! q = Some Q → x ∈ taskQueue Q → x ∈ scheduled tl).
  { intros q Q x HQ Hx. apply elem_of_scheduled.
    destruct Hspec as [(_ & _ & ->)|(_ & _ & _ & ->)]; [by eauto|].
    destruct (decide (to = q)) as [->|Hne].
    - rewrite lookup_insert_eq in HQ. injection HQ as <-.
      by apply elem_of_nil in Hx.
    - rewrite lookup_insert_ne in HQ by done. eauto. }
  rewrite elem_of_scheduled.
  destruct Hcase as [(l0 & q' & _ & Hq' & ->)|[(_ & _ & ->)|(q' & pQ' & _ & _ & Hq' & _ & ->)]];
    simpl; intros (q & Q & HQ & Hin).
  - left. destruct (decide (to = q)) as [->|Hne].
    + rewrite lookup_insert_eq in HQ. injection HQ as <-. simpl in Hin.
      rewrite Hq' in Hin. by eapply Hps.
    + rewrite lookup_insert_ne in HQ by done. by eapply Hps.
  - left. by eapply Hps.
  - destruct (decide (to = q)) as [->|Hne].
    + rewrite lookup_insert_eq in HQ. injection HQ as <-. simpl in Hin.
      rewrite Hq' in Hin. apply elem_of_cons in Hin as [->|Hin]; [by right|].
      left. by eapply Hps.
    + rewrite lookup_insert_ne in HQ by done. left. by eapply Hps.
Qed.

Lemma Push_next tl entry to now : (next tl ≤ next (Push tl entry to now))%nat.
Proof.
  destruct (Push_cases tl entry to now) as (partner & pQ & ps & Heq & Hcase).
  destruct Hcase as [(l0 & q' & _ & _ & ->)|[(_ & _ & ->)|(q' & pQ' & _ & _ & _ & _ & ->)]];
    simpl; lia.
Qed.

Lemma step_scheduled tl o out tl' l :
  step tl o = Some (out, tl') →
  (next tl ≤ next tl')%nat
  ∧ (l ∈ scheduled tl' → l ∈ scheduled tl ∨ l = next tl).
Proof.
  destruct o as [entry to now| |k p|to k]; simpl.
  - intros [= <- <-]. split; [apply Push_next|apply Push_scheduled].
  - unfold Pop. destruct (pq.Pop (pQueue tl)) as [[p pQ]|] eqn:Hpq.
    2: { intros [= <- <-]. split; [done|by left]. }
    destruct (partners tl !! p) as [partner|] eqn:Hp; simpl; [|done].
    destruct (drain _ _ _ partner) as [[[o tm] partner']|] eqn:Hd; simpl; [|done].
    intros [= <- <-]. simpl. split; [done|]. rewrite !elem_of_scheduled. simpl.
    intros (q & Q & HQ & Hin). left. destruct (decide (p = q)) as [->|Hne].
    + rewrite lookup_insert_eq in HQ. injection HQ as <-.
      exists q, partner. split; [done|]. by eapply drain_queue_sub.
    + rewrite lookup_insert_ne in HQ by done. eauto.
  - unfold Remove. destruct (taskMap tl !! taskKey p k) as [l0|]; simpl.
    2: { intros [= <- <-]. split; [done|by left]. }
    destruct (partners tl !! p) as [P|] eqn:HP; simpl; [|done].
    intros [= <- <-]. simpl. split; [done|]. rewrite !elem_of_scheduled. simpl.
    intros (q & Q & HQ & Hin). left. destruct (decide (p = q)) as [->|Hne].
    + rewrite lookup_insert_eq in HQ. injection HQ as <-. eauto.
    + rewrite lookup_insert_ne in HQ by done. eauto.
  - unfold Done. destruct (partners tl !! to) as [P|] eqn:HP; simpl; [|done].
    destruct (TaskDone P k) as [P'|] eqn:Hd; simpl; [|done].
    intros [= <- <-]. simpl. split; [done|]. rewrite !elem_of_scheduled. simpl.
    intros (q & Q & HQ & Hin). left. destruct (decide (to = q)) as [->|Hne].
    + rewrite lookup_insert_eq in HQ. injection HQ as <-.
      unfold TaskDone in Hd. destruct (_ <? 0); [done|]. injection Hd as <-.
      eauto.
    + rewrite lookup_insert_ne in HQ by done. eauto.
Qed.

Lemma step_yield_unscheduled tl o l tl' :
  wf tl → step tl o = Some (Some l, tl') →
  l ∈ scheduled tl ∧ l ∉ scheduled tl'.
Proof.
  intros Hwf Hs. pose proof (step_wf _ _ _ _ Hwf Hs) as Hwf'.
  destruct o as [entry to now| |k p|to k]; simpl in Hs.
  - done.
  - destruct (Pop_yield _ _ _ Hwf Hs)
      as (t & P & P' & pQ & Ht & _ & HP & Hin & _ & _ & _ & Hh & _).
    split; [apply elem_of_scheduled; eauto|].
    revert Hs. unfold Pop.
    destruct (pq.Pop (pQueue tl)) as [[p pQ']|] eqn:Hpq; [|done].
    destruct (partners tl !! p) as [partner|] eqn:Hp; simpl; [|done].
    destruct (drain _ _ _ partner) as [[[o tm] partner']|] eqn:Hd; simpl; [|done].
    intros [= -> Htl]. 
    destruct (drain_yield_deleted _ _ _ _ _ _ _ Hd) as (t0 & Ht0 & Hdel).
    assert (t0 = t) as -> by congruence.
    intros (q & Q & HQ & Hin')%elem_of_scheduled.
    destruct (wf_queue _ _ _ (wf_tasks _ Hwf') _ _ _ HQ Hin') as (t' & Ht' & _ & Hm).
    rewrite Hh in Ht'. assert (t' = t) as -> by congruence.
    subst tl'. simpl in Hm. congruence.
  - destruct (Remove tl k p); simpl in Hs; [|done]. by injection Hs.
  - destruct (Done tl to k); simpl in Hs; [|done]. by injection Hs.
Qed.

Lemma exec_yields_NoDup ops : ∀ tl outs tl',
  wf tl → exec ops tl = Some (outs, tl') →
  NoDup outs ∧ ∀ l, l ∈ outs → l ∈ scheduled tl ∨ (next tl ≤ l)%nat.
Proof.
  induction ops as [|o ops IH]; intros tl outs tl' Hwf; simpl.
  { intros [= <- <-]. split; [constructor|]. by intros l ?%elem_of_nil. }
  destruct (step tl o) as [[out tl1]|] eqn:Hs; simpl; [|done].
  destruct (exec ops tl1) as [[outs' tl2]|] eqn:He; simpl; [|done].
  intros [= <- <-].
  pose proof (step_wf _ _ _ _ Hwf Hs) as Hwf1.
  destruct (IH _ _ _ Hwf1 He) as [Hnd Hin].
  assert (Hold : ∀ l, l ∈ outs' → l ∈ scheduled tl ∨ (next tl ≤ l)%nat).
  { intros l Hl. destruct (step_scheduled _ _ _ _ l Hs) as [Hn Hsch].
    destruct (Hin l Hl) as [H1|H1]; [|right; lia].
    destruct (Hsch H1) as [?| ->]; [by left|right; lia]. }
  destruct out as [l0|]; simpl; [|done].
  destruct (step_yield_unscheduled _ _ _ _ Hwf Hs) as [Hl0 Hl0'].
  pose proof (scheduled_lt_next _ _ Hwf Hl0) as Hlt.
  destruct (step_scheduled _ _ _ _ l0 Hs) as [Hn _].
  split.
  - apply NoDup_cons. split; [|done]. intros Hl.
    destruct (Hin l0 Hl) as [?|?]; [done|lia].
  - intros l [->|Hl]%elem_of_cons; [by left|by apply Hold].
Qed.

End prq_accounting_facts.

(** ** The request queue: further properties *)
Module prq_properties.

Import wantlist decision prq_facts prq_accounting prq_accounting_facts.

(** X1: After any sequence of fewer than 2^63 calls on a new queue in which
    no [Remove] hits a task that is already marked as trash (or, through a
    colliding task key, the task of another peer), the [requests] counter
    of every partner is exactly the number of tasks in its queue that are
    not trashed. *)
Theorem requests_counts_live_tasks (ops : list op) (tl : prq)
    (p : string) (P : activePartner) :
  Z.of_nat (length ops) ≤ GoInt.maxInt →
  removes_once ops newPRQ = true →
  run ops newPRQ = Some tl →
  partners tl !! p = Some P →
  requests P = Z.of_nat (live_tasks (heap tl) (taskQueue P)).
Proof.
  intros Hlen Honce. unfold run.
  destruct (exec ops newPRQ) as [[outs tl1]|] eqn:He; [|done].
  intros [= <-]. revert p P.
  eapply (exec_counts ops 0); [lia|lia|apply newPRQ_wf| | |done|done].
  - intros p P. simpl. by rewrite lookup_empty.
  - intros p P. simpl. by rewrite lookup_empty.
Qed.

Lemma requests_counts_live_tasks_witness :
  ∃ P, partners example_trashed !! "p" = Some P
       ∧ requests P = Z.of_nat (live_tasks (heap example_trashed) (taskQueue P))
       ∧ requests P = 0 ∧ taskQueue P = [1%nat].
Proof.
  eexists. split; [vm_compute; reflexivity|].
  split; [|split; reflexivity].
  apply (requests_counts_live_tasks (take 7 example_ops) example_trashed "p").
  - unfold GoInt.maxInt. simpl. lia.
  - vm_compute. reflexivity.
  - vm_compute. reflexivity.
  - vm_compute. reflexivity.
Defined.

(** X4: In every state the calls produce, the tasks in one partner's queue all
    have that partner's peer as target, so [V1] ranks any two of them by
    their priorities alone: the higher priority first, and the time of
    creation is never consulted. *)
Theorem task_queues_rank_by_priority (ops : list op) (tl : prq)
    (p : string) (P : activePartner) (a b : nat) :
  run ops newPRQ = Some tl → partners tl !! p = Some P →
  a ∈ taskQueue P → b ∈ taskQueue P →
  ∃ ta tb, heap tl !! a = Some ta ∧ heap tl !! b = Some tb
    ∧ Target ta = p ∧ Target tb = p
    ∧ taskCmp (heap tl) a b = (Priority (Entry tb) <? Priority (Entry ta)).
Proof.
  intros Hrun HP Ha Hb.
  pose proof (run_wf _ _ _ newPRQ_wf Hrun) as Hwf.
  destruct (wf_queue _ _ _ (wf_tasks _ Hwf) _ _ _ HP Ha) as (ta & Hta & HTa & _).
  destruct (wf_queue _ _ _ (wf_tasks _ Hwf) _ _ _ HP Hb) as (tb & Htb & HTb & _).
  exists ta, tb. split_and!; [done..|].
  unfold taskCmp, V1. rewrite Hta, Htb. rewrite decide_True; congruence.
Qed.

Lemma task_queues_rank_by_priority_witness :
  taskCmp (heap example_before_pop) 0%nat 1%nat = true
  ∧ taskCmp (heap example_before_pop) 1%nat 0%nat = false.
Proof.
  destruct (task_queues_rank_by_priority (take 4 example_ops)
              example_before_pop "p"
              {| active := 0; activeBlocks := ∅; requests := 2;
                 taskQueue := [0%nat; 1%nat] |} 0%nat 1%nat)
    as (ta & tb & Hta & Htb & _ & _ & Hcmp);
    [vm_compute; reflexivity|vm_compute; reflexivity
    |apply list_elem_of_here
    |apply list_elem_of_further, list_elem_of_here|].
  destruct (task_queues_rank_by_priority (take 4 example_ops)
              example_before_pop "p"
              {| active := 0; activeBlocks := ∅; requests := 2;
                 taskQueue := [0%nat; 1%nat] |} 1%nat 0%nat)
    as (ta' & tb' & Hta' & Htb' & _ & _ & Hcmp');
    [vm_compute; reflexivity|vm_compute; reflexivity
    |apply list_elem_of_further, list_elem_of_here
    |apply list_elem_of_here|].
  rewrite Hcmp, Hcmp'.
  assert (ta = tb') as -> by congruence.
  assert (tb = ta') as -> by congruence.
  revert Hta Htb. vm_compute. intros [= <-] [= <-]. done.
Defined.

(** X5: [partnerCompare] is a strict order on partners: no partner ranks
    before itself, two partners never rank before each other, and the
    ranking is transitive. *)
Theorem partnerCompare_strict_order :
  (∀ P, partnerCompare P P = false)
  ∧ (∀ P Q, partnerCompare P Q = true → partnerCompare Q P = false)
  ∧ (∀ P Q R, partnerCompare P Q = true → partnerCompare Q R = true →
       partnerCompare P R = true).
Proof.
  split_and!.
  - apply partnerCompare_irrefl.
  - intros P Q. unfold partnerCompare.
    destruct (decide (requests P = 0)); [done|].
    destruct (decide (requests Q = 0)); [done|].
    intros H%Z.ltb_lt. apply Z.ltb_ge. lia.
  - apply partnerCompare_trans.
Qed.

(** X3: When [Pop] has handed out a task and the task's [Done] is then called,
    the call does not panic and the partner's [active] counter and set of
    active keys are again what they were before the [Pop]; only [requests]
    has gone down by one.  (For queues that have seen fewer than 2^63 - 1
    calls.) *)
Theorem Done_after_Pop_restores_active (ops : list op) (tl tl1 : prq)
    (l : nat) (t : peerRequestTask) :
  Z.of_nat (length ops) < GoInt.maxInt →
  run ops newPRQ = Some tl →
  Pop tl = Some (Some l, tl1) → heap tl !! l = Some t →
  ∃ tl2 P P2,
    partners tl !! Target t = Some P
    ∧ Done tl1 (Target t) (Key (Entry t)) = Some tl2
    ∧ partners tl2 !! Target t = Some P2
    ∧ active P2 = active P ∧ activeBlocks P2 = activeBlocks P
    ∧ requests P2 = requests P - 1
    ∧ taskMap tl2 = taskMap tl1 ∧ heap tl2 = heap tl.
Proof.
  intros Hlen Hrun Hpop Ht.
  pose proof (run_wf _ _ _ newPRQ_wf Hrun) as Hwf.
  pose proof (run_active_not_queued _ _ Hrun) as Hanq.
  assert (Hb : bounded (Z.of_nat (length ops)) (partners tl)).
  { apply run_bounded; [lia|done]. }
  destruct (Pop_yield _ _ _ Hwf Hpop)
    as (t' & P & P' & pQ & Ht' & _ & HP & Hin & _ & _ & Hps & Hh & _ & Ha & Hab & Hr).
  assert (t' = t) as -> by congruence.
  destruct (Hb _ _ HP) as [HrP HaP]. unfold GoInt.maxInt in *.
  assert (Ha' : active P' = active P + 1).
  { rewrite Ha. unfold GoInt.add.
    rewrite wrap_id; unfold GoInt.minInt, GoInt.maxInt; lia. }
  unfold Done. rewrite Hps, lookup_insert_eq. simpl.
  destruct (TaskDone P' (Key (Entry t))) as [P2|] eqn:Hd.
  2: { exfalso. revert Hd. unfold TaskDone, GoInt.sub. rewrite Ha'.
       rewrite wrap_id by (unfold GoInt.minInt, GoInt.maxInt; lia).
       destruct (_ <? 0) eqn:Hlt; [|done]. apply Z.ltb_lt in Hlt. lia. }
  apply TaskDone_Some in Hd as (_ & Ha2 & Hab2 & Hr2 & _);
    [|unfold GoInt.maxInt; lia].
  simpl. eexists _, P, P2. split; [done|]. split; [done|]. simpl.
  rewrite lookup_insert_eq. split_and!; [done|lia| | |done|done].
  - rewrite Hab2, Hab.
    pose proof (Hanq _ _ _ _ HP Hin Ht) as Hnot.
    apply set_eq. intros x.
    rewrite elem_of_difference, elem_of_union, elem_of_singleton.
    split; [by intros [[->|?] ?]|].
    intros Hx. split; [by right|]. by intros ->.
  - rewrite Hr2, Hr. unfold GoInt.sub.
    rewrite wrap_id; unfold GoInt.minInt, GoInt.maxInt; lia.
Qed.

Lemma Done_after_Pop_restores_active_witness :
  ∃ tl2 P P2,
    partners example_before_pop !! "p" = Some P
    ∧ Done example_after_pop "p" "k1" = Some tl2
    ∧ partners tl2 !! "p" = Some P2
    ∧ active P2 = active P ∧ activeBlocks P2 = activeBlocks P.
Proof.
  destruct (Done_after_Pop_restores_active (take 4 example_ops)
              example_before_pop example_after_pop 0%nat
              {| Entry := {| Key := "k1"; Priority := 9 |}; Target := "p";
                 trash := false; created := 1 |})
    as (tl2 & P & P2 & HP & Hd & HP2 & Ha & Hab & _);
    [unfold GoInt.maxInt; simpl; lia|vm_compute; reflexivity
    |vm_compute; reflexivity|vm_compute; reflexivity|].
  exists tl2, P, P2. done.
Defined.

(** X2: No task is handed out twice: the task pointers that the [Pop]s of any
    sequence of calls on a new queue yield are pairwise different. *)
Theorem tasks_are_handed_out_once (ops : list op) (outs : list nat) (tl : prq) :
  exec ops newPRQ = Some (outs, tl) → NoDup outs.
Proof.
  intros He. by destruct (exec_yields_NoDup ops _ _ _ newPRQ_wf He).
Qed.

Lemma tasks_are_handed_out_once_witness :
  ∃ outs tl,
    exec (example_ops ++ [OpPop; OpPop; OpPop; OpPop]) newPRQ = Some (outs, tl)
    ∧ outs = [0%nat; 2%nat] ∧ NoDup outs.
Proof.
  destruct (exec (example_ops ++ [OpPop; OpPop; OpPop; OpPop]) newPRQ)
    as [[outs tl]|] eqn:He; [|vm_compute in He; discriminate He].
  exists outs, tl. split; [reflexivity|]. split.
  - revert He. vm_compute. by intros [= <- _].
  - exact (tasks_are_handed_out_once _ _ _ He).
Defined.

End prq_properties.

(** ** The peer manager *)
Module PeerManager_facts.

Import bsmsg peermanager peermanager_facts PeerManager.

Section facts.
Context {M : Type} `{BitSwapMessage M}.

Lemma AddMessage_Some (h : gmap nat M) mq msg m w :
  h !! msg = Some m →
  let h1 := <[msg := ClearBlocks m]> h in
  ∃ h' mq',
    AddMessage h mq msg w = Some (h', mq', w)
    ∧ peermanager.p mq' = peermanager.p mq
    ∧ blocks mq' = add_blocks (Blocks m) (blocks mq)
    ∧ is_Some (wlmsg mq')
    ∧ (wlmsg mq = None → wlmsg mq' = Some msg ∧ h' = h1)
    ∧ (∀ w0, wlmsg mq = Some w0 →
         (wlmsg mq' = Some msg ∧ h' = h1)
         ∨ (wlmsg mq' = Some w0 ∧ Full (ClearBlocks m) = false
            ∧ h' = alter (λ wl, foldl merge_entry wl (Wantlist (ClearBlocks m)))
                         w0 h1)).
Proof.
  intros Hm h1. unfold AddMessage. rewrite Hm. simpl.
  destruct (wlmsg mq) as [w0|] eqn:Hw.
  - destruct (Full (ClearBlocks m)) eqn:Hfull.
    + eexists _, _. split; [done|]. simpl.
      split_and!; [done|done|eauto|done|]. intros ? [= <-]. by left.
    + eexists _, _. split; [done|]. simpl.
      split_and!; [done|done|eauto|done|]. intros ? [= <-]. right.
      split; [done|]. split; [done|]. apply foldl_alter_merge.
  - eexists _, _. split; [done|]. simpl.
    split_and!; [done|done|eauto|done|done].
Qed.

Lemma AddMessage_keeps_msg (h : gmap nat M) mq msg w h' mq' b :
  is_Some (h !! msg) → AddMessage h mq msg w = Some (h', mq', b) →
  is_Some (h' !! msg).
Proof.
  intros [m Hm] Hadd.
  destruct (AddMessage_Some h mq msg m w Hm) as (h2 & mq2 & Heq & _ & _ & _ & Hnone & Hsome).
  rewrite Heq in Hadd. injection Hadd as <- <- <-.
  destruct (wlmsg mq) as [w0|] eqn:Hw.
  - destruct (Hsome w0 eq_refl) as [[_ ->]|(_ & _ & ->)].
    + rewrite lookup_insert_eq. eauto.
    + destruct (decide (w0 = msg)) as [->|Hne].
      * rewrite lookup_alter_eq, lookup_insert_eq. simpl. eauto.
      * rewrite lookup_alter_ne, lookup_insert_eq by done. eauto.
  - destruct (Hnone eq_refl) as [_ ->]. rewrite lookup_insert_eq. eauto.
Qed.

Lemma add_to_Some (s : state M) q mq msg m :
  peers s !! q = Some mq → store s !! msg = Some m →
  ∃ h' mq',
    add_to s q msg = Some {| store := h'; peers := <[q := mq']> (peers s) |}
    ∧ AddMessage (store s) mq msg false = Some (h', mq', false).
Proof.
  intros Hq Hm. unfold add_to. rewrite Hq. simpl.
  destruct (AddMessage_Some (store s) mq msg m false Hm)
    as (h' & mq' & Heq & _).
  rewrite Heq. simpl. by exists h', mq'.
Qed.

Lemma startPeerHandler_lookup (ps : gmap string msgQueue) p q :
  startPeerHandler ps p !! q =
    if decide (p = q)
    then Some (default {| peermanager.p := p; wlmsg := None; blocks := ∅ |}
                       (ps !! p))
    else ps !! q.
Proof.
  unfold startPeerHandler. destruct (decide (p = q)) as [<-|Hne].
  - destruct (ps !! p) eqn:Hp; simpl; [done|]. by rewrite lookup_insert_eq.
  - destruct (ps !! p) eqn:Hp; [done|]. by rewrite lookup_insert_ne.
Qed.

Lemma stopPeerHandler_lookup (ps : gmap string msgQueue) p q :
  stopPeerHandler ps p !! q = if decide (p = q) then None else ps !! q.
Proof.
  unfold stopPeerHandler. destruct (decide (p = q)) as [<-|Hne].
  - destruct (ps !! p) eqn:Hp; [|done]. by rewrite lookup_delete_eq.
  - destruct (ps !! p) eqn:Hp; [|done]. by rewrite lookup_delete_ne.
Qed.

Lemma add_to_dom (s s1 : state M) q msg p :
  add_to s q msg = Some s1 →
  is_Some (peers s1 !! p) ↔ is_Some (peers s !! p).
Proof.
  unfold add_to. destruct (peers s !! q) as [mq|] eqn:Hq; simpl; [|done].
  destruct (AddMessage _ _ _ _) as [[[h mq'] b]|]; simpl; [|done].
  intros [= <-]. simpl. destruct (decide (q = p)) as [<-|Hne].
  - rewrite lookup_insert_eq, Hq. split; eauto.
  - by rewrite lookup_insert_ne.
Qed.

Lemma broadcast_dom msg (l : list (string * msgQueue)) : ∀ (s s' : state M) p,
  foldl (λ acc kv, s' ← acc; add_to s' kv.1 msg) (Some s) l = Some s' →
  is_Some (peers s' !! p) ↔ is_Some (peers s !! p).
Proof.
  induction l as [|[q0 x] l IH]; intros s s' p; simpl.
  { by intros [= <-]. }
  destruct (add_to s q0 msg) as [s1|] eqn:Hadd.
  - intros Hfold. rewrite (IH _ _ _ Hfold). by eapply add_to_dom.
  - intros Hfold. exfalso. clear -Hfold.
    induction l as [|kv l IHl]; simpl in Hfold; [done|]. by apply IHl.
Qed.

(** The loop of a broadcast, for any list of peers to visit. *)
Lemma broadcast_loop msg (l : list (string * msgQueue)) : ∀ s : state M,
  NoDup l.*1 →
  is_Some (store s !! msg) →
  (∀ q, q ∈ l.*1 → is_Some (peers s !! q)) →
  ∃ s',
    foldl (λ acc kv, s' ← acc; add_to s' kv.1 msg) (Some s) l = Some s'
    ∧ is_Some (store s' !! msg)
    ∧ (∀ q, q ∉ l.*1 → peers s' !! q = peers s !! q)
    ∧ (∀ q mq, q ∈ l.*1 → peers s !! q = Some mq →
         ∃ mq', peers s' !! q = Some mq'
           ∧ peermanager.p mq' = peermanager.p mq
           ∧ is_Some (wlmsg mq')
           ∧ (wlmsg mq = None → wlmsg mq' = Some msg)).
Proof.
  induction l as [|[q0 x] l IH]; intros s Hnd Hmsg Hin.
  { exists s. simpl. split_and!; [done..|]. by intros q mq ?%elem_of_nil. }
  rewrite fmap_cons in Hnd. apply NoDup_cons in Hnd as [Hq0l Hnd].
  destruct (Hin q0) as [mq0 Hq0]; [rewrite fmap_cons; apply list_elem_of_here|].
  destruct Hmsg as [m Hm].
  destruct (add_to_Some s q0 mq0 msg m Hq0 Hm) as (h1 & mq1 & Hadd & HAM).
  pose proof (AddMessage_keeps_msg _ _ _ _ _ _ _ (ltac:(eauto)) HAM) as Hmsg1.
  destruct (AddMessage_Some (store s) mq0 msg m false Hm)
    as (h2 & mq2 & Heq & Hp & _ & Hsome & Hnone & _).
  rewrite Heq in HAM. injection HAM as <- <-.
  set (s1 := {| store := h2; peers := <[q0 := mq2]> (peers s) |}) in *.
  destruct (IH s1) as (s' & Hfold & Hmsg' & Hout & Hvis); [done|done| |].
  { intros q Hq. simpl. destruct (decide (q0 = q)) as [<-|Hne].
    - rewrite lookup_insert_eq. eauto.
    - rewrite lookup_insert_ne by done. apply Hin. rewrite fmap_cons.
      by apply list_elem_of_further. }
  exists s'. split.
  { simpl. rewrite Hadd. exact Hfold. }
  split; [done|]. split.
  { intros q Hq. rewrite fmap_cons in Hq. apply not_elem_of_cons in Hq as [Hne Hq].
    rewrite (Hout q Hq). simpl. by rewrite lookup_insert_ne. }
  intros q mq Hq Hmq. rewrite fmap_cons in Hq.
  apply elem_of_cons in Hq as [->|Hq].
  - simpl in *. assert (mq = mq0) as -> by congruence.
    exists mq2. rewrite (Hout q0 Hq0l). simpl. rewrite lookup_insert_eq.
    split_and!; [done|done|done|]. intros Hw. by destruct (Hnone Hw).
  - assert (q0 ≠ q) by (by intros ->).
    destruct (Hvis q mq Hq) as (mq' & Hmq' & Hrest);
      [simpl; by rewrite lookup_insert_ne|].
    by exists mq'.
Qed.

(** The same loop, for the blocks: once the message object carries no
    blocks, no queue gains a block. *)
Lemma broadcast_loop_blocks msg (l : list (string * msgQueue)) :
  (∀ m : M, Blocks (ClearBlocks m) = []) →
  ∀ s : state M,
  NoDup l.*1 →
  (∃ m, store s !! msg = Some m ∧ Blocks m = []) →
  (∀ q, q ∈ l.*1 → ∃ mq, peers s !! q = Some mq ∧ wlmsg mq ≠ Some msg) →
  ∃ s',
    foldl (λ acc kv, s' ← acc; add_to s' kv.1 msg) (Some s) l = Some s'
    ∧ (∀ q, q ∉ l.*1 → peers s' !! q = peers s !! q)
    ∧ (∀ q mq, q ∈ l.*1 → peers s !! q = Some mq →
         ∃ mq', peers s' !! q = Some mq' ∧ blocks mq' = blocks mq).
Proof.
  intros Hlaw.
  induction l as [|[q0 x] l IH]; intros s Hnd Hmsg Hin.
  { exists s. simpl. split_and!; [done..|]. by intros q mq ?%elem_of_nil. }
  rewrite fmap_cons in Hnd. apply NoDup_cons in Hnd as [Hq0l Hnd].
  destruct (Hin q0) as (mq0 & Hq0 & Hw0);
    [rewrite fmap_cons; apply list_elem_of_here|].
  destruct Hmsg as (m & Hm & Hb).
  destruct (add_to_Some s q0 mq0 msg m Hq0 Hm) as (h1 & mq1 & Hadd & HAM).
  destruct (AddMessage_Some (store s) mq0 msg m false Hm)
    as (h2 & mq2 & Heq & Hp & Hblocks & _ & Hnone & Hsome).
  rewrite Heq in HAM. injection HAM as <- <-.
  rewrite Hb in Hblocks. simpl in Hblocks.
  set (s1 := {| store := h2; peers := <[q0 := mq2]> (peers s) |}) in *.
  assert (Hm1 : store s1 !! msg = Some (ClearBlocks m)).
  { simpl. destruct (wlmsg mq0) as [w0|] eqn:Hw.
    - destruct (Hsome w0 eq_refl) as [[_ ->]|(_ & _ & ->)].
      + by rewrite lookup_insert_eq.
      + rewrite lookup_alter_ne by congruence. by rewrite lookup_insert_eq.
    - destruct (Hnone eq_refl) as [_ ->]. by rewrite lookup_insert_eq. }
  destruct (IH s1) as (s' & Hfold & Hout & Hvis); [done|by eauto| |].
  { intros q Hq. simpl. assert (q0 ≠ q) by (by intros ->).
    rewrite lookup_insert_ne by done. apply Hin. rewrite fmap_cons.
    by apply list_elem_of_further. }
  exists s'. split.
  { simpl. rewrite Hadd. exact Hfold. }
  split.
  { intros q Hq. rewrite fmap_cons in Hq. apply not_elem_of_cons in Hq as [Hne Hq].
    rewrite (Hout q Hq). simpl. by rewrite lookup_insert_ne. }
  intros q mq Hq Hmq. rewrite fmap_cons in Hq.
  apply elem_of_cons in Hq as [->|Hq].
  - simpl in *. assert (mq = mq0) as -> by congruence.
    exists mq2. rewrite (Hout q0 Hq0l). simpl. by rewrite lookup_insert_eq.
  - assert (q0 ≠ q) by (by intros ->).
    destruct (Hvis q mq Hq) as (mq' & Hmq' & Hrest);
      [simpl; by rewrite lookup_insert_ne|].
    by exists mq'.
Qed.

Lemma Run_round_dom range (s s1 : state M) r p :
  Run_round range s r = Some s1 →
  is_Some (peers s1 !! p)
  ↔ has_queue [r] p (bool_decide (is_Some (peers s !! p))) = true.
Proof.
  destruct r as [to msg|q|q|who blk|]; simpl.
  - destruct (decide (to = "")) as [->|Hto].
    + intros Hfold. rewrite (broadcast_dom _ _ _ _ _ Hfold).
      rewrite decide_False by (by intros [? ?]).
      by rewrite bool_decide_eq_true.
    + intros Hadd. rewrite (add_to_dom _ _ _ _ _ Hadd). simpl.
      destruct (decide (to = p ∧ to ≠ "")) as [[<- _]|Hne].
      * split; [done|]. intros _.
        destruct (peers s !! to) eqn:Hp; [by rewrite Hp|].
        rewrite startPeerHandler_lookup, decide_True by done. eauto.
      * assert (to ≠ p) by (intros ->; by apply Hne).
        rewrite bool_decide_eq_true.
        destruct (peers s !! to) eqn:Hp; [done|].
        by rewrite startPeerHandler_lookup, decide_False.
  - intros [= <-]. simpl. rewrite startPeerHandler_lookup.
    destruct (decide (q = p)) as [<-|Hne].
    + split; [done|eauto].
    + by rewrite bool_decide_eq_true.
  - intros [= <-]. simpl. rewrite stopPeerHandler_lookup.
    destruct (decide (q = p)) as [<-|Hne].
    + split; [by intros [? ?]|done].
    + by rewrite bool_decide_eq_true.
  - destruct (peers s !! who) as [mq|] eqn:Hw.
    + intros [= <-]. simpl. rewrite bool_decide_eq_true.
      destruct (decide (who = p)) as [<-|Hne].
      * rewrite lookup_insert_eq, Hw. split; eauto.
      * by rewrite lookup_insert_ne.
    + intros [= <-]. by rewrite bool_decide_eq_true.
  - intros [= <-]. by rewrite bool_decide_eq_true.
Qed.

Lemma has_queue_cons r rs p b :
  has_queue (r :: rs) p b =
    match r with
    | RunCtxDone => b
    | _ => has_queue rs p (has_queue [r] p b)
    end.
Proof. by destruct r. Qed.

Lemma Run_dom range rs : ∀ (s s' : state M) p,
  Run range rs s = Some s' →
  is_Some (peers s' !! p)
  ↔ has_queue rs p (bool_decide (is_Some (peers s !! p))) = true.
Proof.
  induction rs as [|r rs IH]; intros s s' p.
  { simpl. intros [= <-]. by rewrite bool_decide_eq_true. }
  rewrite has_queue_cons.
  destruct r as [to msg|q|q|who blk|] eqn:Er; cbn [Run];
    [..|intros [= <-]; by rewrite bool_decide_eq_true].
  all: destruct (Run_round range s _) as [s1|] eqn:Hround; simpl; [|done].
  all: intros Hrest; rewrite (IH _ _ _ Hrest).
  all: pose proof (Run_round_dom _ _ _ _ p Hround) as Hd.
  all: match goal with
       | |- has_queue _ _ ?b1 = true ↔ has_queue _ _ ?b2 = true =>
           assert (Hb : b1 = b2); [|by rewrite Hb]
       end.
  all: simpl in Hd |- *.
  all: match goal with
       | |- _ = ?b => destruct b eqn:E
       end.
  all: first [ apply bool_decide_eq_true; by apply Hd
             | apply bool_decide_eq_false; intros Hs; apply Hd in Hs;
               congruence ].
Qed.

End facts.

End PeerManager_facts.

Module PeerManager_properties.

Import bsmsg peermanager peermanager_facts PeerManager PeerManager_facts.

Section properties.
Context {M : Type} `{BitSwapMessage M}.
Variable range : gmap string msgQueue → list (string * msgQueue).
Variable range_blocks : gmap string blocks.Block → list (string * blocks.Block).


(** X7: In a broadcast the queues are handed one and the same message object,
    and [AddMessage] clears the blocks of that object after the first
    queue has taken them: the blocks of a broadcast message go to the one
    queue that the loop over [pm.peers] visits first, and to no other.
    (For a message object that no queue has pending, and a [ClearBlocks]
    that leaves a message without blocks.) *)
Theorem Broadcast_gives_blocks_to_one_queue
    (s : state M) (msg : nat) (m : M) (q1 : string) (x : msgQueue)
    (rest : list (string * msgQueue)) :
  (∀ ps, range ps ≡ₚ map_to_list ps) →
  (∀ m0 : M, Blocks (ClearBlocks m0) = []) →
  store s !! msg = Some m →
  (∀ q mq, peers s !! q = Some mq → wlmsg mq ≠ Some msg) →
  range (peers s) = (q1, x) :: rest →
  ∃ s' mq1 mq1',
    Run_round range s (Broadcast msg) = Some s'
    ∧ peers s !! q1 = Some mq1 ∧ peers s' !! q1 = Some mq1'
    ∧ blocks mq1' = add_blocks (Blocks m) (blocks mq1)
    ∧ (∀ q mq, q ≠ q1 → peers s !! q = Some mq →
         ∃ mq', peers s' !! q = Some mq' ∧ blocks mq' = blocks mq).
Proof.
  intros Hrange Hlaw Hm Hpend Hr. unfold Broadcast. simpl. rewrite Hr.
  assert (Hnd : NoDup ((q1, x) :: rest).*1).
  { rewrite <- Hr, Hrange. apply NoDup_fst_map_to_list. }
  assert (Hin : ∀ q, q ∈ ((q1, x) :: rest).*1 ↔ is_Some (peers s !! q)).
  { intros q. rewrite <- Hr, Hrange. rewrite list_elem_of_fmap. split.
    - intros ([q' mq] & -> & Hel). apply elem_of_map_to_list in Hel. eauto.
    - intros [mq Hq]. exists (q, mq). split; [done|].
      by apply elem_of_map_to_list. }
  rewrite fmap_cons in Hnd. apply NoDup_cons in Hnd as [Hq1 Hnd].
  destruct (proj1 (Hin q1)) as [mq1 Hmq1];
    [rewrite fmap_cons; apply list_elem_of_here|].
  destruct (add_to_Some s q1 mq1 msg m Hmq1 Hm) as (h1 & mq1' & Hadd & HAM).
  destruct (AddMessage_Some (store s) mq1 msg m false Hm)
    as (h2 & mq2 & Heq & _ & Hblocks & _ & Hnone & Hsome).
  rewrite Heq in HAM. injection HAM as <- <-.
  set (s1 := {| store := h2; peers := <[q1 := mq2]> (peers s) |}) in *.
  assert (Hm1 : store s1 !! msg = Some (ClearBlocks m)).
  { simpl. pose proof (Hpend _ _ Hmq1) as Hw1.
    destruct (wlmsg mq1) as [w0|] eqn:Hw.
    - destruct (Hsome w0 eq_refl) as [[_ ->]|(_ & _ & ->)].
      + by rewrite lookup_insert_eq.
      + rewrite lookup_alter_ne by congruence. by rewrite lookup_insert_eq.
    - destruct (Hnone eq_refl) as [_ ->]. by rewrite lookup_insert_eq. }
  destruct (broadcast_loop_blocks msg rest Hlaw s1 Hnd) as (s' & Hfold & Hout & Hvis).
  { eauto. }
  { intros q Hq. assert (q1 ≠ q) by (by intros ->).
    destruct (proj1 (Hin q)) as [mq Hmq];
      [rewrite fmap_cons; by apply list_elem_of_further|].
    exists mq. simpl. rewrite lookup_insert_ne by done. split; [done|].
    by eapply Hpend. }
  exists s', mq1, mq2. split.
  { simpl. rewrite Hadd. exact Hfold. }
  split; [done|]. split.
  { rewrite (Hout q1 Hq1). simpl. by rewrite lookup_insert_eq. }
  split; [done|].
  intros q mq Hne Hmq.
  assert (Hq : q ∈ rest.*1).
  { assert (Hel : q ∈ ((q1, x) :: rest).*1) by (apply Hin; eauto).
    rewrite fmap_cons in Hel. by apply elem_of_cons in Hel as [?|?]. }
  apply (Hvis q mq Hq). simpl. by rewrite lookup_insert_ne.
Qed.

(** X8: After a broadcast, the queues that had nothing pending all point to
    the broadcast message object itself.  What is later merged into the
    pending message of one of them is therefore merged into the pending
    message of the others as well: the wantlist entries of a message sent
    to peer [a] alone end up in the object that the queue of peer [b]
    will send. *)
Theorem Broadcast_shares_one_message_object
    (s s1 : state M) (msg msg2 : nat) (m2 : M) (a b : string)
    (qa qb : msgQueue) :
  (∀ ps, range ps ≡ₚ map_to_list ps) →
  a ≠ "" → a ≠ b → msg2 ≠ msg →
  peers s !! a = Some qa → wlmsg qa = None →
  peers s !! b = Some qb → wlmsg qb = None →
  is_Some (store s !! msg) →
  Run_round range s (Broadcast msg) = Some s1 →
  store s1 !! msg2 = Some m2 → Full (ClearBlocks m2) = false →
  ∃ s2 mb qa1 qb1 qb2,
    peers s1 !! a = Some qa1 ∧ wlmsg qa1 = Some msg
    ∧ peers s1 !! b = Some qb1 ∧ wlmsg qb1 = Some msg
    ∧ store s1 !! msg = Some mb
    ∧ Run_round range s1 (Send a msg2) = Some s2
    ∧ peers s2 !! b = Some qb2 ∧ wlmsg qb2 = Some msg
    ∧ store s2 !! msg
      = Some (foldl merge_entry mb (Wantlist (ClearBlocks m2))).
Proof.
  intros Hrange Ha Hab Hmsg2 Hqa Hwa Hqb Hwb Hmsg Hbc Hm2 Hfull.
  assert (Hnd : NoDup (range (peers s)).*1).
  { rewrite Hrange. apply NoDup_fst_map_to_list. }
  assert (Hin : ∀ q, q ∈ (range (peers s)).*1 ↔ is_Some (peers s !! q)).
  { intros q. rewrite Hrange. rewrite list_elem_of_fmap. split.
    - intros ([q' mq] & -> & Hel). apply elem_of_map_to_list in Hel. eauto.
    - intros [mq Hq]. exists (q, mq). split; [done|].
      by apply elem_of_map_to_list. }
  destruct (broadcast_loop msg (range (peers s)) s Hnd Hmsg)
    as (s1' & Hfold & [mb Hmb] & _ & Hvis).
  { intros q Hq. by apply Hin. }
  unfold Broadcast in Hbc. simpl in Hbc. rewrite Hfold in Hbc.
  injection Hbc as ->.
  destruct (Hvis a qa) as (qa1 & Hqa1 & _ & _ & Hwa1); [apply Hin; eauto|done|].
  destruct (Hvis b qb) as (qb1 & Hqb1 & _ & _ & Hwb1); [apply Hin; eauto|done|].
  specialize (Hwa1 Hwa). specialize (Hwb1 Hwb).
  unfold Send. simpl. rewrite decide_False by done. rewrite Hqa1.
  destruct (add_to_Some {| store := store s1; peers := peers s1 |} a qa1 msg2 m2
              Hqa1 Hm2) as (h' & mq' & Hadd & HAM).
  destruct (AddMessage_Some (store s1) qa1 msg2 m2 false Hm2)
    as (h2 & mq2 & Heq & _ & _ & _ & _ & Hsome).
  simpl in HAM. rewrite Heq in HAM. injection HAM as <- <-.
  destruct (Hsome msg Hwa1) as [[Hw _]|(Hw & _ & Hh)].
  { unfold AddMessage in Heq. rewrite Hm2, Hwa1 in Heq. simpl in Heq.
    rewrite Hfull in Heq. injection Heq as _ <-. simpl in Hw. congruence. }
  eexists _, mb, qa1, qb1, qb1. split_and!; [done..|exact Hadd| | |].
  - simpl. by rewrite lookup_insert_ne.
  - done.
  - simpl. rewrite Hh. rewrite lookup_alter_eq, lookup_insert_ne by done.
    by rewrite Hmb.
Qed.

(** X9: A [CancelBlock] that [Run] handles before the worker of the peer wakes
    up keeps the block from being sent: the next round of the worker sends
    the pending wantlist message (unless it is empty) and one message for
    each block that is still in the payload map, and none of these blocks
    is filed under the cancelled key.  The pending wantlist message and
    the queues of other peers are as before. *)
Theorem CancelBlock_keeps_block_from_worker
    (s : state M) (p k : string) (mq : msgQueue) (w : nat) (wlm : M) :
  (∀ bs, range_blocks bs ≡ₚ map_to_list bs) →
  peers s !! p = Some mq → wlmsg mq = Some w → store s !! w = Some wlm →
  ∃ s' mq' mq'',
    Run_round range s (CancelBlock p k) = Some s'
    ∧ store s' = store s
    ∧ peers s' !! p = Some mq'
    ∧ (∀ q, q ≠ p → peers s' !! q = peers s !! q)
    ∧ runQueue_round range_blocks (store s') mq'
      = Some (mq'',
              (if Empty wlm then [] else [wlm])
              ++ ((λ kv, AddBlock New kv.2)
                    <$> range_blocks (delete k (blocks mq))))
    ∧ (∀ kv, kv ∈ range_blocks (delete k (blocks mq)) →
         kv.1 ≠ k ∧ blocks mq !! kv.1 = Some kv.2).
Proof.
  intros Hrb Hp Hw Hwlm. unfold CancelBlock. simpl. rewrite Hp.
  eexists _, _, _. split; [done|]. simpl. rewrite lookup_insert_eq.
  split_and!; [done|done| | |].
  - intros q Hq. by rewrite lookup_insert_ne.
  - unfold runQueue_round. simpl. rewrite Hw. simpl. rewrite Hwlm. done.
  - intros [k' b] Hkv. rewrite Hrb in Hkv. apply elem_of_map_to_list in Hkv.
    simpl. apply lookup_delete_Some in Hkv as [Hne Hb]. split; [congruence|done].
Qed.

(** X10: A round of the worker after an [AddMessage] does not panic; it sends
    the pending wantlist message, unless that is empty, and then every
    pending block in a message of its own, and leaves the queue without a
    pending message and without blocks.  A further round that starts
    before another [AddMessage] dereferences the [nil] pending message. *)
Theorem runQueue_sends_and_clears
    (h : gmap nat M) (mq : msgQueue) (msg : nat) (m : M) :
  (∀ bs, range_blocks bs ≡ₚ map_to_list bs) →
  h !! msg = Some m →
  (∀ w, wlmsg mq = Some w → is_Some (h !! w)) →
  ∃ h' mq' mq'' w wlm sent,
    AddMessage h mq msg true = Some (h', mq', true)
    ∧ wlmsg mq' = Some w ∧ h' !! w = Some wlm
    ∧ runQueue_round range_blocks h' mq' = Some (mq'', sent)
    ∧ sent = (if Empty wlm then [] else [wlm])
             ++ ((λ kv, AddBlock New kv.2)
                   <$> range_blocks (add_blocks (Blocks m) (blocks mq)))
    ∧ length sent = ((if Empty wlm then 0 else 1)
                     + size (add_blocks (Blocks m) (blocks mq)))%nat
    ∧ mq'' = {| peermanager.p := peermanager.p mq; wlmsg := None; blocks := ∅ |}
    ∧ runQueue_round range_blocks h' mq'' = None.
Proof.
  intros Hrb Hm Hvalid.
  destruct (AddMessage_Some h mq msg m true Hm)
    as (h' & mq' & Heq & Hp & Hb & [w Hw] & Hnone & Hsome).
  assert (Hwlm : is_Some (h' !! w)).
  { destruct (wlmsg mq) as [w0|] eqn:Hw0.
    - destruct (Hvalid w0 eq_refl) as [m0 Hm0].
      destruct (Hsome w0 eq_refl) as [[Hw' ->]|(Hw' & _ & ->)].
      + assert (w = msg) as -> by congruence. rewrite lookup_insert_eq. eauto.
      + assert (w = w0) as -> by congruence. rewrite lookup_alter_eq.
        destruct (decide (msg = w0)) as [->|Hne].
        * rewrite lookup_insert_eq. simpl. eauto.
        * rewrite lookup_insert_ne, Hm0 by done. simpl. eauto.
    - destruct (Hnone eq_refl) as [Hw' ->].
      assert (w = msg) as -> by congruence. rewrite lookup_insert_eq. eauto. }
  destruct Hwlm as [wlm Hwlm].
  eexists h', mq', _, w, wlm, _. split; [done|]. split; [done|]. split; [done|].
  split.
  { unfold runQueue_round. rewrite Hw. simpl. rewrite Hwlm. simpl. done. }
  rewrite Hb, Hp. split_and!; [done| |done|done].
  rewrite length_app, length_fmap, Hrb, length_map_to_list.
  by destruct (Empty wlm).
Qed.

(** X11: After any rounds of [Run] the manager has a queue for exactly the
    peers whose last connection event was not a disconnect: a queue is
    made by [Connected] and by the first [Send] to the peer, removed only
    by [Disconnected], and neither [Broadcast] nor [CancelBlock] makes or
    removes one. *)
Theorem queues_follow_connections
    (rs : list received) (s s' : state M) (p : string) :
  Run range rs s = Some s' →
  is_Some (peers s' !! p)
  ↔ has_queue rs p (bool_decide (is_Some (peers s !! p))) = true.
Proof. apply Run_dom. Qed.

End properties.


Lemma Broadcast_gives_blocks_to_one_queue_witness :
  ∃ s' qa qb,
    Run_round map_to_list example_manager (Broadcast 0%nat) = Some s'
    ∧ peers s' !! "A" = Some qa ∧ peers s' !! "B" = Some qb
    ∧ blocks qa = {[ "x" := blocks.mkBlock "x" "data" ]}
    ∧ blocks qb = ∅.
Proof.
  destruct (Broadcast_gives_blocks_to_one_queue map_to_list example_manager
              0%nat
              {| full := false; wantlist := [Entry.mk "a" 3 false];
                 blks := [blocks.mkBlock "x" "data"] |}
              "A" {| peermanager.p := "A"; wlmsg := None; blocks := ∅ |}
              [("B", {| peermanager.p := "B"; wlmsg := None; blocks := ∅ |})])
    as (s' & qa & qa' & Hr & Hqa & Hqa' & Hb & Hrest).
  - done.
  - done.
  - reflexivity.
  - intros q mq Hq Hw.
    assert (Hnone : wlmsg mq = None); [|congruence].
    destruct (decide (q = "A")) as [->|HA]; [by injection Hq as <-|].
    destruct (decide (q = "B")) as [->|HB]; [by injection Hq as <-|].
    unfold example_manager in Hq. simpl in Hq.
    by rewrite lookup_insert_ne, lookup_singleton_ne in Hq.
  - vm_compute. reflexivity.
  - destruct (Hrest "B" {| peermanager.p := "B"; wlmsg := None; blocks := ∅ |})
      as (qb & Hqb & Hbb); [done|reflexivity|].
    exists s', qa', qb. split; [exact Hr|]. split; [exact Hqa'|].
    split; [exact Hqb|]. split; [|exact Hbb].
    rewrite Hb. injection Hqa as <-. reflexivity.
Defined.

Lemma Broadcast_shares_one_message_object_witness :
  ∃ s2 qb2,
    Run_round map_to_list example_manager_broadcast (Send "A" 1%nat) = Some s2
    ∧ peers s2 !! "B" = Some qb2 ∧ wlmsg qb2 = Some 0%nat
    ∧ Wantlist <$> store s2 !! 0%nat
      = Some [Entry.mk "a" 3 false; Entry.mk "b" 5 false].
Proof.
  destruct (Broadcast_shares_one_message_object map_to_list example_manager
              example_manager_broadcast 0%nat 1%nat
              {| full := false; wantlist := [Entry.mk "b" 5 false]; blks := [] |}
              "A" "B"
              {| peermanager.p := "A"; wlmsg := None; blocks := ∅ |}
              {| peermanager.p := "B"; wlmsg := None; blocks := ∅ |})
    as (s2 & mb & qa1 & qb1 & qb2 & _ & _ & _ & _ & Hmb & Hr & Hqb & Hw & Hst);
    [done|done|done|done|reflexivity|reflexivity|reflexivity|reflexivity
    |by eexists|vm_compute; reflexivity|vm_compute; reflexivity|reflexivity|].
  exists s2, qb2. split; [exact Hr|]. split; [exact Hqb|]. split; [exact Hw|].
  rewrite Hst. revert Hmb. vm_compute. by intros [= <-].
Defined.

Lemma CancelBlock_keeps_block_from_worker_witness :
  ∃ s' mq' mq'',
    Run_round map_to_list example_manager_sent (CancelBlock "A" "x") = Some s'
    ∧ peers s' !! "A" = Some mq'
    ∧ runQueue_round map_to_list (store s') mq'
      = Some (mq'', [{| full := false; wantlist := [Entry.mk "a" 3 false];
                        blks := [] |}]).
Proof.
  destruct (CancelBlock_keeps_block_from_worker map_to_list map_to_list
              example_manager_sent "A" "x"
              {| peermanager.p := "A"; wlmsg := Some 0%nat;
                 blocks := {[ "x" := blocks.mkBlock "x" "data" ]} |}
              0%nat
              {| full := false; wantlist := [Entry.mk "a" 3 false]; blks := [] |})
    as (s' & mq' & mq'' & Hr & _ & Hq & _ & Hround & _);
    [done|vm_compute; reflexivity|reflexivity|vm_compute; reflexivity|].
  exists s', mq', mq''. split; [exact Hr|]. split; [exact Hq|].
  rewrite Hround. vm_compute. reflexivity.
Defined.

Lemma runQueue_sends_and_clears_witness :
  ∃ h' mq' mq'' sent,
    AddMessage (store example_manager)
      {| peermanager.p := "A"; wlmsg := None; blocks := ∅ |} 0%nat true
    = Some (h', mq', true)
    ∧ runQueue_round map_to_list h' mq' = Some (mq'', sent)
    ∧ length sent = 2%nat
    ∧ runQueue_round map_to_list h' mq'' = None.
Proof.
  destruct (runQueue_sends_and_clears map_to_list (store example_manager)
              {| peermanager.p := "A"; wlmsg := None; blocks := ∅ |} 0%nat
              {| full := false; wantlist := [Entry.mk "a" 3 false];
                 blks := [blocks.mkBlock "x" "data"] |})
    as (h' & mq' & mq'' & w & wlm & sent & Hadd & Hw & Hwlm & Hr & _ & Hlen & _ & Hnil);
    [done|reflexivity|done|].
  exists h', mq', mq'', sent. split; [exact Hadd|]. split; [exact Hr|].
  split; [|exact Hnil].
  rewrite Hlen. revert Hadd Hw Hwlm. vm_compute.
  intros [= <- <-] [= <-] [= <-]. reflexivity.
Defined.

Lemma queues_follow_connections_witness :
  ∃ s',
    Run map_to_list
      [Connected "C"; Disconnected "A"; Send "D" 0%nat; Broadcast 1%nat;
       RunCtxDone; Connected "E"] example_manager = Some s'
    ∧ is_Some (peers s' !! "D") ∧ peers s' !! "A" = None
    ∧ peers s' !! "E" = None.
Proof.
  destruct (Run map_to_list
              [Connected "C"; Disconnected "A"; Send "D" 0%nat; Broadcast 1%nat;
               RunCtxDone; Connected "E"] example_manager) as [s'|] eqn:Hrun;
    [|vm_compute in Hrun; discriminate Hrun].
  exists s'. split; [reflexivity|].
  pose proof (λ p, queues_follow_connections map_to_list _ _ _ p Hrun) as Hq.
  split_and!.
  - apply (Hq "D"). vm_compute. reflexivity.
  - apply eq_None_not_Some. intros Hs. apply (Hq "A") in Hs.
    vm_compute in Hs. discriminate Hs.
  - apply eq_None_not_Some. intros Hs. apply (Hq "E") in Hs.
    vm_compute in Hs. discriminate Hs.
Defined.

End PeerManager_properties.

(** ** The inbound path *)
Module receive_facts.

Import blocks bsmsg bitswap receive.

Lemma exec_HasBlock_ok o wd ctx blk :
  closing wd = false → put_error o = None → newBlocks_ctx_done o = None →
  (exec (HasBlock ctx blk) o wd).1
  = (None,
     {| closing := false;
        blockstore := <[Key blk := blk]> (blockstore wd);
        bitswap.wantlist := delete (Key blk) (bitswap.wantlist wd);
        notifications := publish_to blk <$> notifications wd;
        batchRequests := batchRequests wd;
        newBlocks := newBlocks wd ++ [blk];
        contexts := contexts wd; cancelled := cancelled wd |}).
Proof.
  intros Hc Hput Hsel.
  unfold HasBlock, call, mbind, Prog_bind, mret, Prog_ret. simpl.
  by repeat (first [rewrite Hc|rewrite Hput|rewrite Hsel]; simpl).
Qed.

Lemma exec_HasBlock_error o wd ctx blk e :
  closing wd = false →
  put_error o = Some e
  ∨ (put_error o = None ∧ newBlocks_ctx_done o = Some e) →
  ∃ wd', (exec (HasBlock ctx blk) o wd).1 = (Some e, wd')
    ∧ newBlocks wd' = newBlocks wd
    ∧ (∀ k, is_Some (blockstore wd !! k) → is_Some (blockstore wd' !! k)).
Proof.
  intros Hc [Hput|[Hput Hsel]];
    unfold HasBlock, call, mbind, Prog_bind, mret, Prog_ret; simpl;
    repeat (first [rewrite Hc|rewrite Hput|rewrite Hsel]; simpl).
  - eexists. split; [done|]. done.
  - eexists. split; [done|]. simpl. split; [done|]. intros k Hk.
    destruct (decide (Key blk = k)) as [<-|Hne].
    + rewrite lookup_insert_eq. eauto.
    + by rewrite lookup_insert_ne.
Qed.

Section facts.
Context {M : Type} `{BitSwapMessage M}.

Lemma receive_blocks_app env ctx (l1 l2 : list Block) : ∀ i (st : receiver M) keys,
  receive_blocks env ctx (l1 ++ l2) i st keys =
    match receive_blocks env ctx l1 i st keys with
    | (Some e, st', keys') => (Some e, st', keys')
    | (None, st', keys') =>
        receive_blocks env ctx l2 (i + length l1)%nat st' keys'
    end.
Proof.
  induction l1 as [|b l1 IH]; intros i st keys.
  { simpl. by rewrite Nat.add_0_r. }
  simpl. destruct (exec _ _ _) as [[err w2] tr]. destruct err as [e|]; [done|].
  rewrite IH. by rewrite Nat.add_succ_r.
Qed.

Lemma receive_blocks_split env ctx (blks : list Block) i b (st : receiver M) keys :
  blks !! i = Some b →
  receive_blocks env ctx blks 0 st keys =
    match receive_blocks env ctx (take i blks) 0 st keys with
    | (Some e, st', keys') => (Some e, st', keys')
    | (None, st', keys') =>
        receive_blocks env ctx (b :: drop (S i) blks) i st' keys'
    end.
Proof.
  intros Hi.
  trans (receive_blocks env ctx (take i blks ++ b :: drop (S i) blks) 0 st keys).
  { by rewrite take_drop_middle. }
  rewrite receive_blocks_app, length_take.
  apply lookup_lt_Some in Hi. by rewrite Nat.min_l by lia.
Qed.

Lemma receive_blocks_ok env ctx (blks : list Block) : ∀ i (st : receiver M) keys,
  closing (w st) = false →
  (∀ j, (j < length blks)%nat →
     put_error (api (env (i + j)%nat)) = None
     ∧ newBlocks_ctx_done (api (env (i + j)%nat)) = None) →
  GoInt.minInt ≤ blocksRecvd st →
  blocksRecvd st + Z.of_nat (length blks) ≤ GoInt.maxInt →
  ∃ st',
    receive_blocks env ctx blks i st keys
    = (None, st', keys ++ (Key <$> blks))
    ∧ closing (w st') = false
    ∧ blocksRecvd st' = blocksRecvd st + Z.of_nat (length blks)
    ∧ newBlocks (w st') = newBlocks (w st) ++ blks
    ∧ blockstore (w st')
      = foldl (λ m b, <[Key b := b]> m) (blockstore (w st)) blks
    ∧ bitswap.wantlist (w st')
      = foldl (λ m b, delete (Key b) m) (bitswap.wantlist (w st)) blks
    ∧ batchRequests (w st') = batchRequests (w st)
    ∧ engine_MessageReceived st' = engine_MessageReceived st
    ∧ pm_CancelBlock st' = pm_CancelBlock st
    ∧ pm_Broadcast st' = pm_Broadcast st.
Proof.
  induction blks as [|b blks IH]; intros i st keys Hc Hgood Hlo Hhi.
  { exists st. simpl. rewrite !app_nil_r, Z.add_0_r.
    split_and!; done. }
  simpl length in *.
  destruct (Hgood 0%nat ltac:(lia)) as [Hput Hsel]. rewrite Nat.add_0_r in Hput, Hsel.
  cbn [receive_blocks handle].
  pose proof (exec_HasBlock_ok (api (env i))
                {| closing := closing (w st); blockstore := blockstore (w st);
                   bitswap.wantlist := bitswap.wantlist (w st);
                   notifications := notifications (w st);
                   batchRequests := batchRequests (w st);
                   newBlocks := newBlocks (w st);
                   contexts := S (contexts (w st));
                   cancelled := cancelled (w st) |}
                (contexts (w st)) b Hc Hput Hsel) as Hexec.
  destruct (exec _ _ _) as [[err w2] tr]. simpl in Hexec.
  injection Hexec as -> ->.
  edestruct (IH (S i)) as (st' & Hrun & Hc' & Hcnt & Hnb & Hbs & Hwl & Hbr & He & Hpc & Hpb);
    [| |  | |rewrite Hrun].
  - done.
  - intros j Hj. replace (S i + j)%nat with (i + S j)%nat by lia.
    apply Hgood. lia.
  - simpl. unfold GoInt.add. rewrite prq_facts.wrap_id; unfold GoInt.minInt, GoInt.maxInt in *; lia.
  - simpl. unfold GoInt.add. rewrite prq_facts.wrap_id; unfold GoInt.minInt, GoInt.maxInt in *; lia.
  - exists st'. split; [by rewrite fmap_cons, <- app_assoc|].
    simpl in *. split; [done|]. split.
    { rewrite Hcnt. unfold GoInt.add.
      rewrite prq_facts.wrap_id; unfold GoInt.minInt, GoInt.maxInt in *; lia. }
    split; [by rewrite Hnb, <- app_assoc|].
    split_and!; done.
Qed.

Lemma stored_blocks (blks : list Block) : ∀ (m : gmap string Block) k,
  is_Some (m !! k) ∨ k ∈ Key <$> blks →
  is_Some (foldl (λ m b, <[Key b := b]> m) m blks !! k).
Proof.
  induction blks as [|b blks IH]; intros m k; cbn [foldl].
  { intros [?|?%elem_of_nil]; done. }
  intros Hk. apply IH. destruct (decide (Key b = k)) as [<-|Hne].
  - left. rewrite lookup_insert_eq. eauto.
  - rewrite lookup_insert_ne by done. destruct Hk as [?|Hk]; [by left|].
    right. rewrite fmap_cons in Hk. by apply elem_of_cons in Hk as [?|?].
Qed.

Lemma unwanted_blocks (blks : list Block) : ∀ (m : gmap string Z) k,
  m !! k = None ∨ k ∈ Key <$> blks →
  foldl (λ m b, delete (Key b) m) m blks !! k = None.
Proof.
  induction blks as [|b blks IH]; intros m k; cbn [foldl].
  { intros [?|?%elem_of_nil]; done. }
  intros Hk. apply IH. destruct (decide (Key b = k)) as [<-|Hne].
  - left. by rewrite lookup_delete_eq.
  - rewrite lookup_delete_ne by done. destruct Hk as [?|Hk]; [by left|].
    right. rewrite fmap_cons in Hk. by apply elem_of_cons in Hk as [?|?].
Qed.

End facts.

End receive_facts.

Module receive_properties.

Import blocks bsmsg bitswap receive receive_facts.

Section properties.
Context {M : Type} `{BitSwapMessage M}.

(** X12: On an open engine, when neither the block store nor the context gets
    in the way, [ReceiveMessage] returns no error and has taken in every
    block of the message, in order: each is stored, its key is off the
    local wantlist, and it was sent on [newBlocks]; [blocksRecvd] has
    grown by the number of blocks.  The message was handed to the decision
    engine first, every [Cancel] entry of its wantlist was forwarded to
    the peer manager as a [CancelBlock] for the sender, and at the end one
    message cancelling the keys of all the blocks was broadcast, unless
    the message had no block. *)
Theorem ReceiveMessage_takes_in_every_block
    (env : nat → surroundings) (ctx : nat) (p : string) (incoming : M)
    (st : receiver M) :
  closing (w st) = false →
  (∀ j, (j < length (Blocks incoming))%nat →
     put_error (api (env j)) = None ∧ newBlocks_ctx_done (api (env j)) = None) →
  GoInt.minInt ≤ blocksRecvd st →
  blocksRecvd st + Z.of_nat (length (Blocks incoming)) ≤ GoInt.maxInt →
  ∃ st',
    ReceiveMessage env ctx p incoming st = (None, st')
    ∧ blocksRecvd st' = blocksRecvd st + Z.of_nat (length (Blocks incoming))
    ∧ (∀ b, b ∈ Blocks incoming →
         Has (w st') (Key b) = true ∧ bitswap.wantlist (w st') !! Key b = None)
    ∧ newBlocks (w st') = newBlocks (w st) ++ Blocks incoming
    ∧ engine_MessageReceived st' = engine_MessageReceived st ++ [(p, incoming)]
    ∧ pm_CancelBlock st'
      = pm_CancelBlock st
        ++ ((λ e, (p, Entry.Key e))
              <$> filter (λ e, Entry.Cancel e = true) (Wantlist incoming))
    ∧ pm_Broadcast st'
      = pm_Broadcast st
        ++ match Blocks incoming with
           | [] => []
           | _ => [foldl (λ message k, Cancel message k) (SetFull New false)
                         (Key <$> Blocks incoming)]
           end.
Proof.
  intros Hc Hgood Hlo Hhi. unfold ReceiveMessage.
  match goal with
  | |- context [receive_blocks _ _ _ _ ?s ?k] =>
      destruct (receive_blocks_ok env ctx (Blocks incoming) 0 s k) as
        (st' & Hrun & Hc' & Hcnt & Hnb & Hbs & Hwl & Hbr & He & Hpc & Hpb);
        [| | | |rewrite Hrun]
  end.
  - exact Hc.
  - intros j Hj. simpl. by apply Hgood.
  - exact Hlo.
  - exact Hhi.
  - simpl in *. eexists. split; [done|]. simpl.
    split; [done|]. split.
    { intros b Hb. split.
      - unfold Has. apply bool_decide_eq_true. rewrite Hbs.
        apply stored_blocks. right. apply list_elem_of_fmap. eauto.
      - rewrite Hwl. apply unwanted_blocks. right.
        apply list_elem_of_fmap. eauto. }
    split; [done|]. split; [done|]. split; [done|].
    rewrite Hpb. f_equal. unfold cancelBlocks.
    destruct (Blocks incoming) as [|b0 bs]; [done|].
    case_decide as Hd; [|done]. rewrite length_fmap in Hd. simpl in Hd. lia.
Qed.

(** X13: [ReceiveMessage] stops at the first block whose [HasBlock] fails and
    returns its error, wrapped: the blocks before it have been taken in
    (stored and sent on [newBlocks]) and counted, the failing block is
    counted as well, the blocks after it are not looked at, and no cancel
    message is broadcast, not even for the blocks that were taken in. *)
Theorem ReceiveMessage_stops_at_first_error
    (env : nat → surroundings) (ctx : nat) (p : string) (incoming : M)
    (st : receiver M) (i : nat) (b : Block) (e : error) :
  closing (w st) = false →
  Blocks incoming !! i = Some b →
  (∀ j, (j < i)%nat →
     put_error (api (env j)) = None ∧ newBlocks_ctx_done (api (env j)) = None) →
  put_error (api (env i)) = Some e
  ∨ (put_error (api (env i)) = None
     ∧ newBlocks_ctx_done (api (env i)) = Some e) →
  GoInt.minInt ≤ blocksRecvd st →
  blocksRecvd st + Z.of_nat (length (Blocks incoming)) ≤ GoInt.maxInt →
  ∃ st',
    ReceiveMessage env ctx p incoming st
    = (Some (errorString
               (String.app "ReceiveMessage HasBlock error: " (Error e))), st')
    ∧ blocksRecvd st' = blocksRecvd st + Z.of_nat i + 1
    ∧ (∀ b', b' ∈ take i (Blocks incoming) → Has (w st') (Key b') = true)
    ∧ newBlocks (w st') = newBlocks (w st) ++ take i (Blocks incoming)
    ∧ engine_MessageReceived st' = engine_MessageReceived st ++ [(p, incoming)]
    ∧ pm_Broadcast st' = pm_Broadcast st.
Proof.
  intros Hc Hi Hgood Hfail Hlo Hhi. unfold ReceiveMessage.
  pose proof (lookup_lt_Some _ _ _ Hi) as Hlt.
  rewrite (receive_blocks_split _ _ _ _ _ _ _ Hi).
  assert (Hlen : length (take i (Blocks incoming)) = i)
    by (rewrite length_take; lia).
  match goal with
  | |- context [receive_blocks _ _ _ _ ?s ?k] =>
      destruct (receive_blocks_ok env ctx (take i (Blocks incoming)) 0 s k) as
        (st1 & Hrun & Hc1 & Hcnt & Hnb & Hbs & Hwl & Hbr & He & Hpc & Hpb);
        [| | | |rewrite Hrun]
  end.
  - exact Hc.
  - intros j Hj. simpl. apply Hgood. lia.
  - exact Hlo.
  - simpl. rewrite Hlen. lia.
  - rewrite Hlen in *. cbn [receive_blocks handle].
    simpl in Hcnt, Hnb, Hbs, He, Hpb.
    destruct (exec_HasBlock_error (api (env i))
                {| closing := closing (w st1); blockstore := blockstore (w st1);
                   bitswap.wantlist := bitswap.wantlist (w st1);
                   notifications := notifications (w st1);
                   batchRequests := batchRequests (w st1);
                   newBlocks := newBlocks (w st1);
                   contexts := S (contexts (w st1));
                   cancelled := cancelled (w st1) |}
                (contexts (w st1)) b e Hc1 Hfail) as (wd' & Hexec & Hnb' & Hkeep).
    destruct (exec _ _ _) as [[err w2] tr]. simpl in Hexec.
    injection Hexec as -> ->. eexists. split; [done|]. simpl.
    split.
    { rewrite Hcnt. unfold GoInt.add.
      rewrite prq_facts.wrap_id; unfold GoInt.minInt, GoInt.maxInt in *; lia. }
    split.
    { intros b' Hb'. unfold Has. apply bool_decide_eq_true. apply Hkeep.
      simpl. rewrite Hbs. apply stored_blocks. right.
      apply list_elem_of_fmap. eauto. }
    split; [by rewrite Hnb'|]. split; [done|]. done.
Qed.

End properties.

Lemma ReceiveMessage_takes_in_every_block_witness :
  ∃ st', ReceiveMessage (λ _, calm) 0 "peer" example_incoming example_receiver
         = (None, st')
    ∧ blocksRecvd st' = 2
    ∧ pm_CancelBlock st' = [("peer", "z")]
    ∧ Wantlist <$> pm_Broadcast st'
      = [[Entry.mk "k" 0 true; Entry.mk "j" 0 true]].
Proof.
  destruct (ReceiveMessage_takes_in_every_block (λ _, calm) 0 "peer"
              example_incoming example_receiver)
    as (st' & Hr & Hcnt & _ & _ & _ & Hpc & Hpb).
  - reflexivity.
  - intros j _. split; reflexivity.
  - vm_compute. discriminate.
  - vm_compute. discriminate.
  - exists st'. split; [exact Hr|]. split; [exact Hcnt|].
    split; [exact Hpc|]. rewrite Hpb. reflexivity.
Defined.

Lemma ReceiveMessage_stops_at_first_error_witness :
  let env i :=
    if decide (i = 1%nat)
    then {| has_fails := false;
            api := {| put_error := Some (errorString "disk full");
                      batch_ctx_done := None; newBlocks_ctx_done := None;
                      promise_result := PromiseClosed; ctx_err := None |} |}
    else calm in
  ∃ st', ReceiveMessage env 0 "peer" example_incoming example_receiver
         = (Some (errorString "ReceiveMessage HasBlock error: disk full"), st')
    ∧ blocksRecvd st' = 2
    ∧ newBlocks (w st') = [mkBlock "k" "data"]
    ∧ pm_Broadcast st' = [].
Proof.
  intros env.
  destruct (ReceiveMessage_stops_at_first_error env 0 "peer"
              example_incoming example_receiver 1%nat (mkBlock "j" "more")
              (errorString "disk full"))
    as (st' & Hr & Hcnt & _ & Hnb & _ & Hpb).
  - reflexivity.
  - reflexivity.
  - intros j Hj. assert (j = 0%nat) as -> by lia. split; reflexivity.
  - left. reflexivity.
  - vm_compute. discriminate.
  - vm_compute. discriminate.
  - exists st'. split; [exact Hr|]. split; [exact Hcnt|].
    split; [exact Hnb|exact Hpb].
Defined.

End receive_properties.

(** ** The API functions: further paths *)
Module bitswap_paths.

Import blocks bitswap bitswap_facts.

Ltac run_api :=
  unfold GetBlock, GetBlocks, HasBlock, call, mbind, Prog_bind, mret, Prog_ret;
  simpl.

(** X14: When the block store refuses the block, [HasBlock] returns the error
    of [Put] and has done nothing else: the state is as before, and the
    only statements run are the check of [Closing()] and the [Put]. *)
Theorem HasBlock_returns_Put_error
    (o : sched) (w : world) (ctx : nat) (blk : Block) (e : error) :
  closing w = false → put_error o = Some e →
  exec (HasBlock ctx blk) o w = (Some e, w, [ev Closing w; ev (Put blk) w]).
Proof.
  intros Hc Hput. run_api.
  by repeat (first [rewrite Hc|rewrite Hput]; simpl).
Qed.

Lemma HasBlock_returns_Put_error_witness :
  let o := {| put_error := Some (errorString "disk full");
              batch_ctx_done := None; newBlocks_ctx_done := None;
              promise_result := PromiseClosed; ctx_err := None |} in
  (exec (HasBlock 0 (mkBlock "k" "data")) o example_world).1
  = (Some (errorString "disk full"), example_world).
Proof.
  intros o.
  exact (f_equal fst (HasBlock_returns_Put_error o example_world 0
                        (mkBlock "k" "data") (errorString "disk full")
                        eq_refl eq_refl)).
Defined.

(** X15: [GetBlocks] on an open engine subscribes before it offers the request:
    the subscription for exactly the given keys is registered whatever
    happens next.  When [batchRequests] takes the request, the call returns
    that subscription as the promise and the request, with the same keys
    and context, is the last in the channel; when the context ends first,
    the call returns [ctx.Err()] and no promise, and nothing was sent.  The
    block store and the local wantlist are not touched by the call. *)
Theorem GetBlocks_subscribes_then_offers
    (o : sched) (w : world) (ctx : nat) (ks : list string) :
  closing w = false →
  ∃ w', (exec (GetBlocks ctx ks) o w).1.2 = w'
    ∧ notifications w' =
        notifications w ++ [{| sub_ctx := ctx; waiting := ks; delivered := [] |}]
    ∧ blockstore w' = blockstore w ∧ bitswap.wantlist w' = bitswap.wantlist w
    ∧ match batch_ctx_done o with
      | None =>
          (exec (GetBlocks ctx ks) o w).1.1
          = (Some (length (notifications w)), None)
          ∧ batchRequests w' = batchRequests w ++ [{| keys := ks; ctx := ctx |}]
      | Some e =>
          (exec (GetBlocks ctx ks) o w).1.1 = (None, Some e)
          ∧ batchRequests w' = batchRequests w
      end.
Proof.
  intros Hc. eexists. split; [reflexivity|].
  run_api. rewrite Hc. simpl.
  destruct (batch_ctx_done o) as [e|]; simpl; done.
Qed.

Lemma GetBlocks_subscribes_then_offers_witness :
  (exec (GetBlocks 0 ["a"; "b"]) example_sched example_world).1.1
  = (Some 1%nat, None).
Proof.
  destruct (GetBlocks_subscribes_then_offers example_sched example_world 0
              ["a"; "b"] eq_refl) as (w' & _ & _ & _ & _ & Hr).
  exact (proj1 Hr).
Defined.

(** X16: Every path through [GetBlock] ends with the deferred [cancelFunc()]:
    the context derived from [parent] is cancelled when the call returns,
    whatever the outcome, and it is this derived context, not [parent],
    that the request offered to [batchRequests] carries. *)
Theorem GetBlock_cancels_derived_context
    (o : sched) (w : world) (parent : nat) (k : string) :
  let ctx := contexts w in
  let r := exec (GetBlock parent k) o w in
  ctx ∈ cancelled r.1.2
  ∧ (∃ w0, last r.2 = Some (ev (CancelFunc ctx) w0))
  ∧ (∀ req, req ∈ batchRequests r.1.2 →
       req ∈ batchRequests w ∨ req = {| keys := [k]; ctx := ctx |}).
Proof.
  intros ctx r. subst ctx r. run_api.
  destruct (closing w) eqn:Hc; simpl.
  { split_and!; [set_solver|eauto|by left]. }
  destruct (batch_ctx_done o) as [e|]; simpl.
  { split_and!; [set_solver|eauto|by left]. }
  destruct (promise_result o) as [b| |e]; simpl;
    [| destruct (ctx_err o) as [e|]; simpl |];
    (split_and!;
     [set_solver|eauto
     |intros req Hreq; apply elem_of_app in Hreq as [?|Hreq];
      [by left|right; by apply list_elem_of_singleton in Hreq]]).
Qed.

(** X17: [GetBlock] returns either a block and no error, or no block and an
    error.  It returns a block only when the engine is open, the request
    was taken and the promise delivered that block; a promise closed
    without a context error gives "promise channel was closed". *)
Theorem GetBlock_block_or_error
    (o : sched) (w : world) (parent : nat) (k : string) :
  let r := (exec (GetBlock parent k) o w).1.1 in
  (∃ b, r = (Some b, None) ∧ closing w = false ∧ batch_ctx_done o = None
        ∧ promise_result o = GotBlock b)
  ∨ (∃ e, r = (None, Some e)
        ∧ (closing w = false → batch_ctx_done o = None →
           promise_result o = PromiseClosed → ctx_err o = None →
           e = errorString "promise channel was closed")).
Proof.
  intros r. subst r. run_api.
  destruct (closing w) eqn:Hc; simpl.
  { right. eexists. split; [done|]. done. }
  destruct (batch_ctx_done o) as [e|] eqn:Hb; simpl.
  { right. eexists. split; [done|]. done. }
  destruct (promise_result o) as [b| |e] eqn:Hp; simpl.
  - left. by exists b.
  - destruct (ctx_err o) as [e|] eqn:He; simpl; right; eexists; (split; [done|]);
      done.
  - right. eexists. split; [done|]. done.
Qed.

End bitswap_paths.

(** ** The worker loops *)
Module workers_facts.

Import blocks workers.

Lemma provideCollector_held cs : ∀ s s' sent,
  (keysOut s = false → toProvide s = []) →
  provideCollector cs s = Some (s', sent) →
  sent ++ held s' = held s ++ taken cs
  ∧ (keysOut s' = false → toProvide s' = []).
Proof.
  induction cs as [|c cs IH]; intros s s' sent Hs; simpl.
  { intros [= <- <-]. by rewrite (right_id_L [] (++)). }
  destruct c as [[blk|]| |]; simpl.
  - destruct (keysOut s) eqn:Hk; simpl.
    + destruct (provideCollector cs _) as [[s2 outs]|] eqn:Hrun; simpl; [|done].
      intros [= <- <-]. apply IH in Hrun as [Hrun Hinv]; [|done].
      split; [|done]. rewrite Hrun. unfold held; simpl. rewrite Hk.
      simpl. by rewrite <- app_assoc.
    + destruct (provideCollector cs _) as [[s2 outs]|] eqn:Hrun; simpl; [|done].
      intros [= <- <-]. apply IH in Hrun as [Hrun Hinv]; [|done].
      split; [|done]. rewrite Hrun. unfold held; simpl. rewrite Hk.
      by rewrite (Hs eq_refl).
  - intros [= <- <-]. unfold held. split; [|done].
    destruct (keysOut s); simpl; by rewrite ?(right_id_L [] (++)).
  - destruct (keysOut s) eqn:Hk; simpl; [|done].
    destruct (toProvide s) as [|k rest] eqn:Htp; simpl.
    + destruct (provideCollector cs _) as [[s2 outs]|] eqn:Hrun; simpl; [|done].
      intros [= <- <-]. apply IH in Hrun as [Hrun Hinv]; [|done].
      split; [|done]. simpl. rewrite Hrun. unfold held; simpl.
      by rewrite Hk, Htp.
    + destruct (provideCollector cs _) as [[s2 outs]|] eqn:Hrun; simpl; [|done].
      intros [= <- <-]. apply IH in Hrun as [Hrun Hinv]; [|done].
      split; [|done]. simpl. rewrite Hrun. unfold held; simpl.
      by rewrite Hk, Htp.
  - intros [= <- <-]. unfold held. split; [|done].
    destruct (keysOut s); simpl; by rewrite ?(right_id_L [] (++)).
Qed.

End workers_facts.

Module workers_properties.

Import blocks workers workers_facts.

(** X18: [provideCollector] forwards keys in the order in which their blocks
    arrived, without losing or repeating one: at any point of the loop,
    the keys sent on [provideKeys] followed by the keys still held (the
    one on offer and the backlog) are exactly the keys of the blocks taken
    from [newBlocks].  When no key is on offer the backlog is empty. *)
Theorem provideCollector_forwards_in_order
    (cs : list collector_case) (s : collector) (sent : list string) :
  provideCollector cs collector_start = Some (s, sent) →
  sent ++ held s = taken cs
  ∧ sent `prefix_of` taken cs
  ∧ (keysOut s = false → toProvide s = []).
Proof.
  intros Hrun.
  destruct (provideCollector_held cs collector_start s sent) as [Heq Hinv];
    [done|done|].
  simpl in Heq. split_and!; [done| |done].
  rewrite <- Heq. by apply prefix_app_r.
Qed.

Lemma provideCollector_forwards_in_order_witness :
  let cs := [RecvNewBlock (Some (mkBlock "a" "1"));
             RecvNewBlock (Some (mkBlock "b" "2"));
             SendNextKey;
             RecvNewBlock (Some (mkBlock "c" "3"));
             SendNextKey] in
  ∃ s, provideCollector cs collector_start = Some (s, ["a"; "b"])
       ∧ ["a"; "b"] ++ held s = ["a"; "b"; "c"].
Proof.
  intros cs. eexists. split; [vm_compute; reflexivity|].
  refine (proj1 (provideCollector_forwards_in_order cs _ ["a"; "b"] _)).
  vm_compute. reflexivity.
Defined.

(** X19: Whatever IPFS_BITSWAP_TASK_WORKERS holds and whatever [strconv.Atoi]
    makes of it, [TaskWorkerCount] is positive after [init] (a value that
    is empty, does not parse or is not positive leaves the default 8), so
    [startWorkers] starts at least one task worker, next to exactly one
    client worker, one rebroadcast worker, one provide collector and four
    provide workers. *)
Theorem startWorkers_starts_every_worker {Err : Type}
    (twc : string) (Atoi : string → Z + Err) :
  let n := init twc Atoi in
  0 < n
  ∧ (n = 8 ∨ (twc ≠ "" ∧ Atoi twc = inl n))
  ∧ length (filter (λ w, w = taskWorker) (startWorkers n)) = Z.to_nat n
  ∧ length (filter (λ w, w = clientWorker) (startWorkers n)) = 1%nat
  ∧ length (filter (λ w, w = rebroadcastWorker) (startWorkers n)) = 1%nat
  ∧ length (filter (λ w, w = provideCollectorWorker) (startWorkers n)) = 1%nat
  ∧ length (filter (λ w, w = provideWorker) (startWorkers n)) = 4%nat.
Proof.
  intros n. subst n.
  assert (Hrep : ∀ (w w' : worker) m,
            length (filter (λ x, x = w) (replicate m w'))
            = if decide (w' = w) then m else 0%nat).
  { intros w w' m. induction m as [|m IH]; simpl.
    - by destruct (decide (w' = w)).
    - rewrite filter_cons. destruct (decide (w' = w)); simpl; by rewrite IH. }
  assert (Hpos : 0 < init twc Atoi
                 ∧ (init twc Atoi = 8 ∨ (twc ≠ "" ∧ Atoi twc = inl (init twc Atoi)))).
  { unfold init. destruct (decide (twc = "")); [split; [lia|by left]|].
    destruct (Atoi twc) as [m|err] eqn:Ha; [|split; [lia|by left]].
    destruct (0 <? m) eqn:Hm; [|split; [lia|by left]].
    apply Z.ltb_lt in Hm. split; [done|]. right. done. }
  destruct Hpos as [Hpos Hval]. split; [done|]. split; [done|].
  unfold startWorkers.
  rewrite !filter_app, !length_app, !Hrep. simpl.
  split_and!; [lia|done|done|done|reflexivity].
Qed.

End workers_properties.

(** ** Providers and the fan-out of the wantlist *)
Module bsnet_facts.

Import bsnet.

Lemma FindProvidersAsync_elems
    (self : string) (connectedPeers providers : list string) (forwarded : nat) :
  (self ∉ FindProvidersAsync self connectedPeers providers forwarded)
  ∧ (∀ id, id ∈ connectedPeers → id ≠ self →
       id ∈ FindProvidersAsync self connectedPeers providers forwarded).
Proof.
  unfold FindProvidersAsync. split.
  - rewrite elem_of_app, !list_elem_of_filter. by intros [[? _]|[? _]].
  - intros id Hid Hne. apply elem_of_app. left. by apply list_elem_of_filter.
Qed.

Section fan_out.
Context {PeerSet : Type}.
Variable pset_New : PeerSet.
Variable TryAdd : PeerSet → string → bool * PeerSet.
Variable contents : PeerSet → gset string.
Hypothesis TryAdd_spec : ∀ s p,
  (TryAdd s p).1 = bool_decide (p ∉ contents s)
  ∧ contents (TryAdd s p).2 = {[p]} ∪ contents s.

Lemma send_loop_spec (peers : list string) : ∀ s,
  NoDup (send_loop TryAdd s peers)
  ∧ (∀ p, p ∈ send_loop TryAdd s peers ↔ p ∈ peers ∧ p ∉ contents s)
  ∧ send_loop TryAdd s peers `sublist_of` peers.
Proof.
  induction peers as [|p0 rest IH]; intros s; simpl.
  { split_and!; [constructor| |done]. intros p. split; [by intros ?%elem_of_nil|].
    by intros [?%elem_of_nil _]. }
  destruct (TryAdd_spec s p0) as [Hadded Hcontents].
  destruct (TryAdd s p0) as [added s'] eqn:Htry. simpl in *.
  destruct (IH s') as (Hnd & Hmem & Hsub).
  assert (Hin' : ∀ p, p ∉ contents s' ↔ p ≠ p0 ∧ p ∉ contents s).
  { intros p. rewrite Hcontents, not_elem_of_union, not_elem_of_singleton. done. }
  destruct added.
  - symmetry in Hadded. apply bool_decide_eq_true in Hadded.
    split_and!.
    + apply NoDup_cons. split; [|done]. rewrite Hmem, Hin'.
      by intros (_ & ? & _).
    + intros p. rewrite !elem_of_cons, Hmem, Hin'. split.
      * intros [->|(? & ? & ?)]; [by split; [left|]|by split; [right|]].
      * intros [[->|?] ?]; [by left|].
        destruct (decide (p = p0)) as [->|?]; [by left|by right].
    + by apply sublist_skip.
  - symmetry in Hadded. apply bool_decide_eq_false in Hadded.
    apply dec_stable in Hadded.
    split_and!.
    + done.
    + intros p. rewrite elem_of_cons, Hmem, Hin'. split.
      * intros (? & ? & ?). by split; [right|].
      * intros [[->|?] ?]; [done|]. split; [done|]. split; [|done].
        by intros ->.
    + by apply sublist_cons.
Qed.

Lemma send_loop_snoc (peers : list string) (p : string) : ∀ s,
  send_loop TryAdd s (peers ++ [p])
  = send_loop TryAdd s peers
    ++ (if decide (p ∈ peers ∨ p ∈ contents s) then [] else [p]).
Proof.
  induction peers as [|p0 rest IH]; intros s; simpl.
  - destruct (TryAdd_spec s p) as [Hadded _].
    destruct (TryAdd s p) as [added s'] eqn:Htry. simpl in Hadded. subst added.
    destruct (decide (p ∈ contents s)) as [Hin|Hin].
    + rewrite bool_decide_eq_false_2 by (by intros ?).
      rewrite decide_True by (by right). done.
    + rewrite bool_decide_eq_true_2 by done.
      rewrite decide_False; [done|]. by intros [?%elem_of_nil|?].
  - destruct (TryAdd_spec s p0) as [_ Hcontents].
    destruct (TryAdd s p0) as [added s'] eqn:Htry. simpl in Hcontents.
    rewrite IH.
    assert (Hiff : (p ∈ rest ∨ p ∈ contents s')
                   ↔ (p ∈ p0 :: rest ∨ p ∈ contents s)).
    { rewrite Hcontents, elem_of_union, elem_of_singleton, elem_of_cons. tauto. }
    rewrite (decide_ext _ _ _ _ Hiff). by destruct added.
Qed.

End fan_out.

End bsnet_facts.

Module bsnet_properties.

Import bsnet bsnet_facts.

(** X21: [FindProvidersAsync] never yields the node's own id; it yields every
    connected peer other than the node itself, before any provider found
    by the routing system; and the channel it makes has room for all the
    connected peers it puts in, so these sends do not block. *)
Theorem FindProvidersAsync_skips_self
    (self : string) (connectedPeers providers : list string) (forwarded : nat) :
  let out := FindProvidersAsync self connectedPeers providers forwarded in
  (self ∉ out)
  ∧ (∀ id, id ∈ connectedPeers → id ≠ self → id ∈ out)
  ∧ (∀ id, id ∈ out → id ∈ connectedPeers ∨ id ∈ providers)
  ∧ take (length (filter (λ id, id ≠ self) connectedPeers)) out
    = filter (λ id, id ≠ self) connectedPeers
  ∧ (length (filter (λ id, id ≠ self) connectedPeers)
     ≤ out_capacity connectedPeers)%nat.
Proof.
  intros out. subst out.
  destruct (FindProvidersAsync_elems self connectedPeers providers forwarded)
    as [Hself Hconn].
  split_and!; [done|done| | |].
  - unfold FindProvidersAsync. intros id.
    rewrite elem_of_app, !list_elem_of_filter.
    intros [[_ ?]|[_ Hid]]; [by left|]. right.
    eapply elem_of_subseteq; [|exact Hid]. apply subseteq_take.
  - unfold FindProvidersAsync. by rewrite take_app_length.
  - apply length_filter.
Qed.

Section fan_out.
Context {PeerSet : Type}.
Variable pset_New : PeerSet.
Variable TryAdd : PeerSet → string → bool * PeerSet.

(** X20: [sendWantlistMsgToPeers] starts at most one send for a peer, however
    often the channel delivers its id, and one for every peer that the
    channel delivers: the send for a peer is started when its id is
    received for the first time, and none when it is received again.  When
    the context ends first, the sends started are a prefix of these.  Fed
    from [FindProvidersAsync], as [clientWorker] does, it sends the
    wantlist once to every connected peer and never to the node itself.
    (For a peer set that starts empty and whose [TryAdd] adds the id and
    reports whether it was new.) *)
Theorem wantlist_is_sent_once_per_peer
    (contents : PeerSet → gset string) (peers : list string) :
  contents pset_New = ∅ →
  (∀ s p, (TryAdd s p).1 = bool_decide (p ∉ contents s)
          ∧ contents (TryAdd s p).2 = {[p]} ∪ contents s) →
  let started := sendWantlistMsgToPeers pset_New TryAdd peers None in
  NoDup started
  ∧ (∀ p, p ∈ started ↔ p ∈ peers)
  ∧ started `sublist_of` peers
  ∧ (∀ n, NoDup (sendWantlistMsgToPeers pset_New TryAdd peers (Some n))
          ∧ sendWantlistMsgToPeers pset_New TryAdd peers (Some n)
            `prefix_of` started)
  ∧ (∀ i p, peers !! i = Some p →
       sendWantlistMsgToPeers pset_New TryAdd peers (Some (S i))
       = sendWantlistMsgToPeers pset_New TryAdd peers (Some i)
         ++ (if decide (p ∈ take i peers) then [] else [p]))
  ∧ (∀ self connectedPeers providers forwarded,
       peers = FindProvidersAsync self connectedPeers providers forwarded →
       (self ∉ started)
       ∧ ∀ id, id ∈ connectedPeers → id ≠ self → id ∈ started).
Proof.
  intros Hnew Hspec started. subst started. unfold sendWantlistMsgToPeers.
  destruct (send_loop_spec TryAdd contents Hspec peers pset_New)
    as (Hnd & Hmem & Hsub).
  assert (Hiff : ∀ p, p ∈ send_loop TryAdd pset_New peers ↔ p ∈ peers).
  { intros p. rewrite Hmem, Hnew. split; [by intros [? _]|].
    intros ?. split; [done|]. apply not_elem_of_empty. }
  assert (Hstep : ∀ i p, peers !! i = Some p →
            send_loop TryAdd pset_New (take (S i) peers)
            = send_loop TryAdd pset_New (take i peers)
              ++ (if decide (p ∈ take i peers) then [] else [p])).
  { intros i p Hi. rewrite (take_S_r _ _ _ Hi).
    rewrite (send_loop_snoc TryAdd contents Hspec).
    apply (f_equal (app _)), decide_ext. rewrite Hnew, elem_of_empty. tauto. }
  assert (Hpre : ∀ n, send_loop TryAdd pset_New (take n peers)
                      `prefix_of` send_loop TryAdd pset_New peers).
  { intros n. destruct (decide (length peers ≤ n)%nat) as [Hle|Hgt].
    - by rewrite take_ge by done.
    - rewrite <- (take_drop n peers) at 2.
      generalize (drop n peers). intros l.
      induction l as [|x l IHl] using rev_ind.
      + by rewrite app_nil_r.
      + etrans; [exact IHl|]. rewrite app_assoc.
        rewrite (send_loop_snoc TryAdd contents Hspec). by apply prefix_app_r. }
  split_and!; [done|done|done| |done|].
  - intros n.
    destruct (send_loop_spec TryAdd contents Hspec (take n peers) pset_New)
      as (Hnd' & _ & _).
    split; [done|apply Hpre].
  - intros self connectedPeers providers forwarded ->.
    destruct (FindProvidersAsync_elems self connectedPeers providers forwarded)
      as [Hself Hconn].
    split.
    + by rewrite Hiff.
    + intros id Hid Hne. apply Hiff. by apply Hconn.
Qed.

End fan_out.

Lemma wantlist_is_sent_once_per_peer_witness :
  sendWantlistMsgToPeers (∅ : gset string) gset_TryAdd
    (FindProvidersAsync "me" ["a"; "me"; "b"] ["b"; "c"; "me"; "a"] 4) None
  = ["a"; "b"; "c"]
  ∧ NoDup (sendWantlistMsgToPeers (∅ : gset string) gset_TryAdd
             (FindProvidersAsync "me" ["a"; "me"; "b"] ["b"; "c"; "me"; "a"] 4)
             None).
Proof.
  split; [vm_compute; reflexivity|].
  refine (proj1 (wantlist_is_sent_once_per_peer (∅ : gset string) gset_TryAdd
                   id _ eq_refl _)).
  intros s p. unfold gset_TryAdd. simpl. destruct (decide (p ∈ s)) as [Hin|Hin]; simpl.
  - split; [by rewrite bool_decide_eq_false_2 by (by intros ?)|].
    apply set_eq. intros x. rewrite elem_of_union, elem_of_singleton.
    split; [by right|]. by intros [->|?].
  - split; [by rewrite bool_decide_eq_true_2|done].
Defined.

End bsnet_properties.

(** ** The virtual network *)
Module testnet_properties.

Import bitswap testnet.

(** X28: [SendMessage] to a peer that the network does not have ([HasPeer] is
    false: no [Adapter] was made for it) returns the error "Cannot locate
    peer on network" and starts no delivery.  To a peer with an adapter it
    returns no error and starts one delivery, to the client that the
    latest [Adapter] call for that id made: an earlier client of the same
    id no longer gets messages. *)
Theorem SendMessage_goes_to_latest_adapter
    (n : network) (from to : string) (message : option nat) :
  (HasPeer n to = false →
   SendMessage n from to message
   = (Some (errorString "Cannot locate peer on network"), n))
  ∧ HasPeer (Adapter n to).2 to = true
  ∧ (∀ nc, clients n !! to = Some nc →
     ∃ n', SendMessage n from to message = (None, n')
       ∧ spawned n' = spawned n ++ [{| receiver := nc; from := from;
                                       message := message |}])
  ∧ (let '(nc1, n1) := Adapter n to in
     let '(nc2, n2) := Adapter n1 to in
     nc1 ≠ nc2
     ∧ (SendMessage n2 from to message).2
       = {| clients := clients n2; heap := heap n2; next := next n2;
            spawned := spawned n ++ [{| receiver := nc2; from := from;
                                        message := message |}] |}).
Proof.
  split_and!.
  - intros Hto. apply bool_decide_eq_false in Hto. unfold SendMessage.
    destruct (clients n !! to) eqn:E; [|done]. exfalso. apply Hto. eauto.
  - apply bool_decide_eq_true. simpl. rewrite lookup_insert_eq. eauto.
  - intros nc Hto. unfold SendMessage. rewrite Hto. by eexists.
  - simpl. split; [lia|]. unfold SendMessage. simpl.
    by rewrite lookup_insert_eq.
Qed.

(** X29: The error of [deliver] is lost: [SendMessage] with an empty sender id
    or a [nil] message, to a peer that has an adapter, returns no error,
    yet the delivery it starts ends with "Invalid input" and the receiver
    is not called.  A delivery with a sender and a message calls
    [ReceiveMessage] on the delegate that [SetDelegate] gave the client,
    and panics when [SetDelegate] was never called on the client. *)
Theorem SendMessage_hides_invalid_input
    (n : network) (from to : string) (message : option nat) (nc : nat) :
  clients n !! to = Some nc →
  ∃ n' d,
    SendMessage n from to message = (None, n')
    ∧ last (spawned n') = Some d ∧ heap n' = heap n
    ∧ (from = "" ∨ message = None →
       deliver n' d = DeliverError (errorString "Invalid input"))
    ∧ (∀ m c, from ≠ "" → message = Some m → heap n !! nc = Some c →
       deliver n' d = match Receiver c with
                      | Some r => ReceiveMessage r from m
                      | None => DeliverPanic
                      end)
    ∧ (∀ m r, from ≠ "" → message = Some m → is_Some (heap n !! nc) →
       deliver (SetDelegate n' nc r) d = ReceiveMessage r from m).
Proof.
  intros Hto. unfold SendMessage. rewrite Hto. eexists _, _.
  split; [done|]. simpl. rewrite last_snoc. split; [done|]. split; [done|].
  split_and!.
  - intros [->| ->]; unfold deliver; simpl; [|done].
    by destruct message.
  - intros m c Hf -> Hc. unfold deliver. simpl.
    rewrite decide_False by done. rewrite Hc. by destruct c as [? [?|]].
  - intros m r Hf -> [c Hc]. unfold deliver. simpl.
    rewrite decide_False by done. by rewrite lookup_alter_eq, Hc.
Qed.

Lemma SendMessage_hides_invalid_input_witness :
  let n := (Adapter VirtualNetwork "p").2 in
  ∃ n' d, SendMessage n "" "p" (Some 7%nat) = (None, n')
    ∧ last (spawned n') = Some d
    ∧ deliver n' d = DeliverError (errorString "Invalid input").
Proof.
  intros n.
  destruct (SendMessage_hides_invalid_input n "" "p" (Some 7%nat) 0%nat eq_refl)
    as (n' & d & Hs & Hl & _ & Herr & _ & _).
  exists n', d. split; [exact Hs|]. split; [exact Hl|]. apply Herr. by left.
Defined.

End testnet_properties.

(** ** The indirect pins *)
Module pin_facts.

Import pin.

Lemma wrap_wrap_add a b : GoInt.wrap (GoInt.wrap a + b) = GoInt.wrap (a + b).
Proof.
  unfold GoInt.wrap.
  replace ((a + 2 ^ 63) mod 2 ^ 64 - 2 ^ 63 + b + 2 ^ 63)
    with ((a + 2 ^ 63) mod 2 ^ 64 + b) by lia.
  rewrite Zplus_mod_idemp_l. do 2 f_equal. lia.
Qed.

Lemma count_Increment i k k' :
  count (Increment i k') k =
    if decide (k' = k) then GoInt.wrap (count i k + 1) else count i k.
Proof.
  unfold count, Increment. simpl. destruct (decide (k' = k)) as [->|Hne].
  - by rewrite lookup_insert_eq.
  - by rewrite lookup_insert_ne.
Qed.

Lemma count_Decrement i k k' :
  count (Decrement i k') k =
    if decide (k' = k) then GoInt.wrap (count i k - 1) else count i k.
Proof.
  unfold Decrement. simpl.
  set (v := GoInt.sub (count i k') 1).
  assert (Hv : count {| refCounts := <[k' := v]> (refCounts i) |} k' = v).
  { unfold count. simpl. by rewrite lookup_insert_eq. }
  rewrite Hv. destruct (decide (v = 0)) as [H0|H0]; unfold count; simpl.
  - destruct (decide (k' = k)) as [->|Hne].
    + rewrite lookup_delete_eq. simpl. symmetry. exact H0.
    + by rewrite lookup_delete_ne, lookup_insert_ne.
  - destruct (decide (k' = k)) as [->|Hne].
    + by rewrite lookup_insert_eq.
    + by rewrite lookup_insert_ne.
Qed.

Lemma count_step i c k b :
  count i k = GoInt.wrap b → count (step i c) k = GoInt.wrap (b + delta k c).
Proof.
  intros Hb. destruct c as [k'|k']; simpl.
  - rewrite count_Increment. destruct (decide (k' = k)) as [->|Hne].
    + by rewrite Hb, wrap_wrap_add.
    + by rewrite Z.add_0_r.
  - rewrite count_Decrement. destruct (decide (k' = k)) as [->|Hne].
    + rewrite Hb. by rewrite <- (wrap_wrap_add b (-1)).
    + by rewrite Z.add_0_r.
Qed.

Lemma count_run cs : ∀ i k b,
  count i k = GoInt.wrap b →
  count (run cs i) k = GoInt.wrap (b + balance cs k).
Proof.
  induction cs as [|c cs IH]; intros i k b Hb; simpl.
  - by rewrite Z.add_0_r.
  - rewrite (IH (step i c) k (b + delta k c)) by (by apply count_step).
    f_equal. lia.
Qed.

Lemma balance_bound cs k :
  - Z.of_nat (length cs) ≤ balance cs k ≤ Z.of_nat (length cs).
Proof.
  induction cs as [|c cs IH]; simpl; [lia|].
  destruct c as [k'|k']; simpl; destruct (decide (k' = k)); lia.
Qed.

Lemma count_run_new cs k :
  count (run cs newIndirectPin) k = GoInt.wrap (balance cs k).
Proof.
  rewrite (count_run cs newIndirectPin k 0); [done|].
  unfold count. simpl. by rewrite lookup_empty.
Qed.

Lemma count_run_exact cs k :
  Z.of_nat (length cs) ≤ GoInt.maxInt →
  count (run cs newIndirectPin) k = balance cs k.
Proof.
  intros Hlen. rewrite count_run_new. apply prq_facts.wrap_id.
  pose proof (balance_bound cs k). unfold GoInt.minInt, GoInt.maxInt in *. lia.
Qed.

Lemma lookup_Increment i k k' :
  refCounts (Increment i k') !! k =
    if decide (k' = k) then Some (GoInt.wrap (count i k + 1))
    else refCounts i !! k.
Proof.
  unfold Increment. simpl. destruct (decide (k' = k)) as [->|Hne].
  - by rewrite lookup_insert_eq.
  - by rewrite lookup_insert_ne.
Qed.

Lemma lookup_Decrement i k k' :
  refCounts (Decrement i k') !! k =
    if decide (k' = k)
    then (if decide (GoInt.wrap (count i k - 1) = 0) then None
          else Some (GoInt.wrap (count i k - 1)))
    else refCounts i !! k.
Proof.
  unfold Decrement. simpl.
  set (v := GoInt.sub (count i k') 1).
  assert (Hv : count {| refCounts := <[k' := v]> (refCounts i) |} k' = v).
  { unfold count. simpl. by rewrite lookup_insert_eq. }
  rewrite Hv. destruct (decide (k' = k)) as [->|Hne].
  - fold (GoInt.sub (count i k) 1). fold v.
    destruct (decide (v = 0)); simpl.
    + by rewrite lookup_delete_eq.
    + by rewrite lookup_insert_eq.
  - destruct (decide (v = 0)); simpl.
    + by rewrite lookup_delete_ne, lookup_insert_ne.
    + by rewrite lookup_insert_ne.
Qed.

Lemma decrements_held_positive cs : ∀ i n,
  0 ≤ n → n + Z.of_nat (length cs) ≤ GoInt.maxInt →
  (∀ k v, refCounts i !! k = Some v → 0 < v ≤ n) →
  decrements_held cs i = true →
  ∀ k v, refCounts (run cs i) !! k = Some v → 0 < v.
Proof.
  induction cs as [|c cs IH]; intros i n Hn Hlen Hpos; simpl.
  { intros _ k v Hk. by destruct (Hpos k v Hk). }
  intros [Hc Hrest]%andb_true_iff. simpl length in Hlen.
  apply (IH (step i c) (n + 1)); [lia|lia| |done].
  intros k v. unfold GoInt.maxInt in *. destruct c as [k'|k']; cbn [step].
  - rewrite lookup_Increment. destruct (decide (k' = k)) as [->|Hne].
    + intros [= <-]. unfold count.
      destruct (refCounts i !! k) as [v0|] eqn:Hk; simpl.
      * destruct (Hpos k v0 Hk).
        rewrite prq_facts.wrap_id; unfold GoInt.minInt, GoInt.maxInt; lia.
      * rewrite prq_facts.wrap_id; unfold GoInt.minInt, GoInt.maxInt; lia.
    + intros Hk. destruct (Hpos k v Hk). lia.
  - apply bool_decide_eq_true in Hc as [v0 Hk0].
    rewrite lookup_Decrement. destruct (decide (k' = k)) as [->|Hne].
    + unfold count. rewrite Hk0. simpl. destruct (Hpos k v0 Hk0).
      rewrite prq_facts.wrap_id by (unfold GoInt.minInt, GoInt.maxInt; lia).
      destruct (decide (v0 - 1 = 0)); [done|]. intros [= <-]. lia.
    + intros Hk. destruct (Hpos k v Hk). lia.
Qed.

Section persist.
Variables enc dec : string → string.
Hypothesis dec_enc : ∀ k, dec (enc k) = k.

Lemma foldl_insert_list_to_map (l : list (string * Z)) : ∀ acc : gmap string Z,
  NoDup l.*1 →
  foldl (λ a kv, <[kv.1 := kv.2]> a) acc l = list_to_map l ∪ acc.
Proof.
  induction l as [|[k v] l IH]; intros acc Hnd.
  { simpl. by rewrite (left_id_L ∅ (∪)). }
  rewrite fmap_cons in Hnd. apply NoDup_cons in Hnd as [Hk Hnd].
  simpl. rewrite IH by done.
  rewrite <- insert_union_l. symmetry. apply insert_union_r.
  by apply not_elem_of_list_to_map_1.
Qed.

Lemma foldl_insert_enc (l : list (string * Z)) : ∀ acc : gmap string Z,
  foldl (λ a kv, <[enc kv.1 := kv.2]> a) acc l
  = foldl (λ a kv, <[kv.1 := kv.2]> a) acc (prod_map enc id <$> l).
Proof. induction l as [|[k v] l IH]; intros acc; simpl; [done|]. apply IH. Qed.

Lemma foldl_insert_dec (l : list (string * Z)) : ∀ acc : gmap string Z,
  foldl (λ a kv, if 0 <? kv.2 then <[dec kv.1 := kv.2]> a else a) acc l
  = foldl (λ a kv, <[kv.1 := kv.2]> a) acc
          (prod_map dec id <$> filter (λ kv, 0 < kv.2) l).
Proof.
  induction l as [|[k v] l IH]; intros acc; simpl; [done|].
  rewrite filter_cons. simpl. destruct (0 <? v) eqn:Hv.
  - apply Z.ltb_lt in Hv. rewrite decide_True by done. simpl. apply IH.
  - apply Z.ltb_ge in Hv. rewrite decide_False by lia. apply IH.
Qed.

Lemma dec_filter_enc (l : list (string * Z)) :
  prod_map dec id <$> filter (λ kv, 0 < kv.2) (prod_map enc id <$> l)
  = filter (λ kv, 0 < kv.2) l.
Proof.
  induction l as [|[k v] l IH]; [done|].
  rewrite fmap_cons, !filter_cons. csimpl. destruct (decide (0 < v)); csimpl.
  - by rewrite dec_enc, IH.
  - done.
Qed.

Lemma enc_inj : Inj (=) (=) enc.
Proof. intros k1 k2 Hk. by rewrite <- (dec_enc k1), <- (dec_enc k2), Hk. Qed.

Lemma NoDup_enc_keys (l : list (string * Z)) :
  NoDup l.*1 → NoDup (prod_map enc id <$> l).*1.
Proof.
  intros Hnd. rewrite <- list_fmap_compose.
  assert (Heq : (fst ∘ prod_map enc id) <$> l = enc <$> l.*1).
  { rewrite <- list_fmap_compose. apply list_fmap_ext. by intros _ [??] _. }
  rewrite Heq. apply NoDup_fmap_2; [apply enc_inj|done].
Qed.

End persist.

End pin_facts.

Module pin_properties.

Import pin pin_facts.

(** X22: After any sequence of [Increment]s and [Decrement]s on a new pin, the
    count read for a key is the number of its [Increment]s minus the number
    of its [Decrement]s, reduced to the range of [int]; it is that
    difference itself for sequences of at most 2^63 - 1 calls.  A key that
    the pin does not hold has a balance of 0. *)
Theorem count_is_balance (cs : list call) (k : string) :
  let i := run cs newIndirectPin in
  count i k = GoInt.wrap (balance cs k)
  ∧ (Z.of_nat (length cs) ≤ GoInt.maxInt → count i k = balance cs k)
  ∧ (HasKey i k = false → GoInt.wrap (balance cs k) = 0).
Proof.
  intros i. subst i.
  pose proof (count_run_new cs k) as Hc.
  split_and!; [done| |].
  - apply count_run_exact.
  - intros Hk. rewrite <- Hc. unfold count.
    apply bool_decide_eq_false in Hk.
    destruct (refCounts (run cs newIndirectPin) !! k); [|done].
    exfalso. apply Hk. eauto.
Qed.

(** X23: When every [Decrement] of a sequence (of at most 2^63 - 1 calls on a
    new pin) is for a key that the pin holds at that time, every stored
    count is positive, and the pin holds a key exactly when the key has
    been incremented more often than decremented. *)
Theorem held_iff_positive_balance (cs : list call) (k : string) :
  Z.of_nat (length cs) ≤ GoInt.maxInt →
  decrements_held cs newIndirectPin = true →
  let i := run cs newIndirectPin in
  (HasKey i k = true ↔ 0 < balance cs k)
  ∧ (∀ v, GetRefs i !! k = Some v → v = balance cs k ∧ 0 < v).
Proof.
  intros Hlen Hheld i. subst i.
  pose proof (count_run_exact cs k Hlen) as Hc.
  assert (Hpos : ∀ v, refCounts (run cs newIndirectPin) !! k = Some v → 0 < v).
  { intros v. apply (decrements_held_positive cs newIndirectPin 0);
      [lia|lia| |done].
    intros k0 v0. simpl. by rewrite lookup_empty. }
  unfold count in Hc. split.
  - unfold HasKey. rewrite bool_decide_eq_true. split.
    + intros [v Hv]. rewrite Hv in Hc. simpl in Hc. rewrite <- Hc. by apply Hpos.
    + intros Hb. destruct (refCounts (run cs newIndirectPin) !! k); [eauto|].
      simpl in Hc. lia.
  - unfold GetRefs. intros v Hv. rewrite Hv in Hc. simpl in Hc.
    split; [done|by apply Hpos].
Qed.

Lemma held_iff_positive_balance_witness :
  let cs := [CallIncrement "a"; CallIncrement "a"; CallIncrement "b";
             CallDecrement "a"; CallDecrement "b"] in
  HasKey (run cs newIndirectPin) "a" = true
  ∧ HasKey (run cs newIndirectPin) "b" = false.
Proof.
  intros cs.
  assert (Hlen : Z.of_nat (length cs) ≤ GoInt.maxInt)
    by (unfold GoInt.maxInt; simpl; lia).
  destruct (held_iff_positive_balance cs "a" Hlen eq_refl) as [Ha _].
  destruct (held_iff_positive_balance cs "b" Hlen eq_refl) as [Hb _].
  split.
  - apply Ha. reflexivity.
  - destruct (HasKey (run cs newIndirectPin) "b"); [|done].
    pose proof (proj1 Hb eq_refl) as E. vm_compute in E. discriminate E.
Defined.

(** X24: [Decrement] takes a key out of the pin exactly when its count was 1.
    In particular a [Decrement] of a key that the pin does not hold puts
    the key into the pin, with the count -1.  Other keys are not
    touched. *)
Theorem Decrement_removes_at_one (i : indirectPin) (k : string) :
  GoInt.minInt ≤ count i k ≤ GoInt.maxInt →
  (HasKey (Decrement i k) k = false ↔ count i k = 1)
  ∧ (HasKey i k = false → GetRefs (Decrement i k) !! k = Some (-1))
  ∧ (∀ k', k' ≠ k → GetRefs (Decrement i k) !! k' = GetRefs i !! k').
Proof.
  intros Hr. unfold HasKey, GetRefs.
  assert (Hw : GoInt.wrap (count i k - 1) = 0 ↔ count i k = 1).
  { unfold GoInt.minInt, GoInt.maxInt in Hr.
    destruct (decide (count i k = - 2 ^ 63)) as [->|Hne].
    - vm_compute. split; discriminate.
    - rewrite prq_facts.wrap_id by (unfold GoInt.minInt, GoInt.maxInt; lia). lia. }
  split_and!.
  - rewrite bool_decide_eq_false, lookup_Decrement, decide_True by done.
    destruct (decide (GoInt.wrap (count i k - 1) = 0)) as [H0|H0].
    + split; [intros _; by apply Hw|]. intros _ [? ?]. done.
    + split; [intros Hn; exfalso; apply Hn; eauto|]. intros H1. by apply Hw in H1.
  - intros Hk. apply bool_decide_eq_false in Hk.
    rewrite lookup_Decrement, decide_True by done. unfold count.
    destruct (refCounts i !! k) eqn:E; [exfalso; apply Hk; eauto|]. done.
  - intros k' Hne. by rewrite lookup_Decrement, decide_False.
Qed.

Lemma Decrement_removes_at_one_witness :
  HasKey (Decrement newIndirectPin "k") "k" = true
  ∧ GetRefs (Decrement newIndirectPin "k") !! "k" = Some (-1).
Proof.
  destruct (Decrement_removes_at_one newIndirectPin "k") as (H1 & H2 & _).
  { vm_compute. split; discriminate. }
  split; [|by apply H2].
  destruct (HasKey (Decrement newIndirectPin "k") "k"); [done|].
  pose proof (proj1 H1 eq_refl) as E. vm_compute in E. discriminate E.
Defined.

(** X25: An [Increment] followed by a [Decrement] of the same key gives the
    pin back unless the key was stored with the count 0; a [Decrement]
    followed by an [Increment] gives the pin back when the pin held the
    key. *)
Theorem Increment_Decrement_cancel (i : indirectPin) (k : string) :
  GoInt.minInt < count i k < GoInt.maxInt →
  (GetRefs i !! k ≠ Some 0 → Decrement (Increment i k) k = i)
  ∧ (HasKey i k = true → Increment (Decrement i k) k = i).
Proof.
  intros Hr. unfold GoInt.minInt, GoInt.maxInt in Hr.
  assert (Hext : ∀ a b, refCounts a = refCounts b → a = b).
  { intros [a] [b]. simpl. by intros ->. }
  destruct i as [m]. unfold GetRefs, HasKey. simpl. split.
  - intros Hne. apply Hext, map_eq. intros k'.
    rewrite lookup_Decrement. destruct (decide (k = k')) as [<-|Hk].
    2: { rewrite lookup_Increment, decide_False by done. done. }
    rewrite count_Increment, (decide_True (P := k = k)) by done.
    rewrite (prq_facts.wrap_id (_ + 1)) by (unfold GoInt.minInt, GoInt.maxInt; lia).
    replace (count {| refCounts := m |} k + 1 - 1)
      with (count {| refCounts := m |} k) by lia.
    rewrite prq_facts.wrap_id by (unfold GoInt.minInt, GoInt.maxInt; lia).
    unfold count in *. simpl in *. destruct (m !! k) as [v|] eqn:E; simpl.
    + rewrite decide_False; [done|]. intros ->. done.
    + done.
  - intros [v Hv]%bool_decide_eq_true. apply Hext, map_eq. intros k'.
    rewrite lookup_Increment. destruct (decide (k = k')) as [<-|Hk].
    2: { rewrite lookup_Decrement, decide_False by done. done. }
    rewrite count_Decrement, (decide_True (P := k = k)) by done.
    rewrite (prq_facts.wrap_id (_ - 1)) by (unfold GoInt.minInt, GoInt.maxInt; lia).
    replace (count {| refCounts := m |} k - 1 + 1)
      with (count {| refCounts := m |} k) by lia.
    rewrite prq_facts.wrap_id by (unfold GoInt.minInt, GoInt.maxInt; lia).
    unfold count. simpl in *. by rewrite Hv.
Qed.

Lemma Increment_Decrement_cancel_witness :
  Decrement (Increment newIndirectPin "k") "k" = newIndirectPin.
Proof.
  apply (Increment_Decrement_cancel newIndirectPin "k").
  - vm_compute. done.
  - unfold GetRefs. simpl. by rewrite lookup_empty.
Defined.

Section round_trip.
Variables B58KeyEncode B58KeyDecode : string → string.
Variable range : gmap string Z → list (string * Z).
Hypothesis range_perm : ∀ m, range m ≡ₚ map_to_list m.
Hypothesis decode_encode : ∀ k, B58KeyDecode (B58KeyEncode k) = k.

(** X26: Storing a pin and loading it again keeps exactly the keys whose count
    is positive, each with its count: keys stored with a count of zero or
    below are lost.  This holds whatever order the two [range] loops visit
    their maps in, as long as decoding an encoded key gives the key back
    and [loadSet] returns the map that [storeSet] was given. *)
Theorem load_store_keeps_positive_counts {Err : Type} (p : indirectPin) :
  loadIndirPin B58KeyDecode range
    (inr (storeIndirPin B58KeyEncode range p) : Err + gmap string Z)
  = inr {| refCounts := filter (λ kv, 0 < kv.2) (refCounts p) |}.
Proof.
  unfold loadIndirPin, storeIndirPin. do 2 f_equal.
  set (m := refCounts p).
  rewrite foldl_insert_enc.
  pose proof (NoDup_fst_map_to_list m) as Hnd.
  assert (Hnd1 : NoDup (range m).*1) by (by rewrite range_perm).
  pose proof (NoDup_enc_keys _ _ decode_encode _ Hnd1) as Hnd2.
  rewrite foldl_insert_list_to_map, (right_id_L ∅ (∪)) by done.
  rewrite foldl_insert_dec.
  set (rc := list_to_map (prod_map B58KeyEncode id <$> range m) : gmap string Z).
  assert (Hl2 : range rc ≡ₚ prod_map B58KeyEncode id <$> map_to_list m).
  { rewrite range_perm. unfold rc. rewrite map_to_list_to_map by done.
    by rewrite range_perm. }
  assert (HL : prod_map B58KeyDecode id <$> filter (λ kv, 0 < kv.2) (range rc)
               ≡ₚ filter (λ kv, 0 < kv.2) (map_to_list m)).
  { rewrite Hl2. by rewrite (dec_filter_enc _ _ decode_encode). }
  assert (HndL : NoDup (prod_map B58KeyDecode id
                          <$> filter (λ kv, 0 < kv.2) (range rc)).*1).
  { rewrite HL. eapply sublist_NoDup; [exact Hnd|].
    apply fmap_sublist, sublist_filter. }
  rewrite foldl_insert_list_to_map, (right_id_L ∅ (∪)) by done.
  rewrite map_filter_alt. by apply list_to_map_proper.
Qed.

End round_trip.

Lemma load_store_keeps_positive_counts_witness :
  let p := {| refCounts := {[ "a" := 2; "b" := 0; "c" := -1 ]} |} in
  loadIndirPin id map_to_list (inr (storeIndirPin id map_to_list p) : () + _)
  = inr {| refCounts := {[ "a" := 2 ]} |}.
Proof.
  intros p.
  rewrite (load_store_keeps_positive_counts id id map_to_list
             (λ m, reflexivity _) (λ k, eq_refl) p).
  vm_compute. reflexivity.
Defined.

End pin_properties.

Module pin_uint64_facts.

Import pin_uint64.

Lemma count_Increment_uint64 i k k' :
  count (Increment i k') k =
    if decide (k' = k) then wrap (count i k + 1) else count i k.
Proof.
  unfold count, Increment. simpl. destruct (decide (k' = k)) as [->|Hne].
  - by rewrite lookup_insert_eq.
  - by rewrite lookup_insert_ne.
Qed.

Lemma count_Decrement_uint64 i k k' :
  count (Decrement i k') k =
    if decide (k' = k) then wrap (count i k - 1) else count i k.
Proof.
  unfold Decrement. simpl.
  set (v := wrap (count i k' - 1)).
  assert (Hv : count {| refCounts := <[k' := v]> (refCounts i) |} k' = v).
  { unfold count. simpl. by rewrite lookup_insert_eq. }
  rewrite Hv. destruct (decide (v = 0)) as [H0|H0]; unfold count; simpl.
  - destruct (decide (k' = k)) as [->|Hne].
    + rewrite lookup_delete_eq. simpl. symmetry. exact H0.
    + by rewrite lookup_delete_ne, lookup_insert_ne.
  - destruct (decide (k' = k)) as [->|Hne].
    + by rewrite lookup_insert_eq.
    + by rewrite lookup_insert_ne.
Qed.

Lemma lookup_Decrement_uint64 i k k' :
  refCounts (Decrement i k') !! k =
    if decide (k' = k)
    then (if decide (wrap (count i k - 1) = 0) then None
          else Some (wrap (count i k - 1)))
    else refCounts i !! k.
Proof.
  unfold Decrement. simpl.
  set (v := wrap (count i k' - 1)).
  assert (Hv : count {| refCounts := <[k' := v]> (refCounts i) |} k' = v).
  { unfold count. simpl. by rewrite lookup_insert_eq. }
  rewrite Hv. destruct (decide (k' = k)) as [->|Hne].
  - fold v. destruct (decide (v = 0)); simpl.
    + by rewrite lookup_delete_eq.
    + by rewrite lookup_insert_eq.
  - destruct (decide (v = 0)); simpl.
    + by rewrite lookup_delete_ne, lookup_insert_ne.
    + by rewrite lookup_insert_ne.
Qed.

Lemma count_step_uint64 i c k b :
  count i k = wrap b → count (step i c) k = wrap (b + pin.delta k c).
Proof.
  intros Hb. destruct c as [k'|k']; simpl.
  - rewrite count_Increment_uint64. destruct (decide (k' = k)) as [->|Hne].
    + rewrite Hb. unfold wrap. by rewrite Zplus_mod_idemp_l.
    + by rewrite Z.add_0_r.
  - rewrite count_Decrement_uint64. destruct (decide (k' = k)) as [->|Hne].
    + rewrite Hb. unfold wrap. by rewrite Zminus_mod_idemp_l.
    + by rewrite Z.add_0_r.
Qed.

Lemma count_run_uint64 cs : ∀ i k b,
  count i k = wrap b → count (run cs i) k = wrap (b + pin.balance cs k).
Proof.
  induction cs as [|c cs IH]; intros i k b Hb; simpl.
  - by rewrite Z.add_0_r.
  - rewrite (IH (step i c) k (b + pin.delta k c)) by (by apply count_step_uint64).
    f_equal. lia.
Qed.

End pin_uint64_facts.

Module pin_uint64_properties.

Import pin_uint64 pin_uint64_facts.

(** X27: In the version that counts in [uint64], the count read for a key
    after any sequence of calls on a new pin is the number of its
    [Increment]s minus the number of its [Decrement]s modulo 2^64.  A
    [Decrement] of a key that the pin does not hold therefore does not
    fail: it puts the key into the pin with the count 2^64 - 1. *)
Theorem uint64_count_wraps_around (cs : list pin.call) (k : string) :
  let i := run cs newIndirectPin in
  count i k = pin.balance cs k mod 2 ^ 64
  ∧ (HasKey i k = false →
     HasKey (Decrement i k) k = true
     ∧ GetRefs (Decrement i k) !! k = Some (2 ^ 64 - 1)).
Proof.
  intros i. subst i. split.
  - rewrite (count_run_uint64 cs newIndirectPin k 0); [done|].
    unfold count. simpl. by rewrite lookup_empty.
  - intros Hk. apply bool_decide_eq_false in Hk.
    assert (Hnone : refCounts (run cs newIndirectPin) !! k = None).
    { destruct (refCounts _ !! k) eqn:E; [|done]. exfalso. apply Hk. eauto. }
    assert (Hd : GetRefs (Decrement (run cs newIndirectPin) k) !! k
                 = Some (2 ^ 64 - 1)).
    { unfold GetRefs. rewrite lookup_Decrement_uint64, decide_True by done.
      unfold count. rewrite Hnone. vm_compute. reflexivity. }
    split; [|done]. unfold HasKey. apply bool_decide_eq_true.
    unfold GetRefs in Hd. rewrite Hd. eauto.
Qed.

End pin_uint64_properties.

(** ** The session generator *)
Module testutils_facts.

Import testutils.





End testutils_facts.

Module testutils_properties.

Import testutils testutils_facts.


End testutils_properties.
